(** * A shallow embedding of the proxy-shop bot's fulfilment core

  The development follows the layout of the repository:

  - [JsNumber]       IEEE-754 binary64 numbers as JavaScript uses them,
                     with [Number.prototype.toFixed(2)] and [parseFloat];
  - [Balance]        src/balance.js, the in-memory balance ledger;
  - [ProxySellerApi] src/proxySellerApi.js, the markup schedule;
  - [Db]             src/db.js, [generateCmId] and [withTransaction];
  - [Bot]            src/bot.js, the purchase handler and the payment
                     confirmation loop.

  Definitions come first, the theorems about them follow. *)

From Stdlib Require Import ZArith List Bool Lia String Ascii.
From Stdlib Require Import SpecFloat.
From stdpp Require Import base option list gmap strings pretty.

Open Scope Z_scope.

(* ===================================================================== *)
(** ** JavaScript numbers                                                 *)
(* ===================================================================== *)

Module JsNumber.

(** A JavaScript [Number] is an IEEE-754 binary64 value: 53 bits of
    precision, infinities at exponent 1024.  [spec_float] is the Standard
    Library's executable specification of such values. *)
Definition prec : Z := 53.
Definition emax : Z := 1024.
Definition num : Type := spec_float.

Definition zero : num := S754_zero false.
Definition neg_zero : num := S754_zero true.

Definition js_add : num -> num -> num := SFadd prec emax.
Definition js_sub : num -> num -> num := SFsub prec emax.
Definition js_lt : num -> num -> bool := SFltb.
Definition js_le : num -> num -> bool := SFleb.
Definition js_ge (x y : num) : bool := SFleb y x.
Definition js_gt (x y : num) : bool := SFltb y x.

(** [!x] on a number: the falsy numbers are [+0], [-0] and [NaN]. *)
Definition falsy (x : num) : bool :=
  match x with
  | S754_zero _ | S754_nan => true
  | _ => false
  end.

(** The string that [x.toFixed(2)] returns, kept structured:
    ["NaN"], ["Infinity"]/["-Infinity"], a sign with an integral number of
    hundredths (["-0.00"] is [FxDecimal true 0]), or, from 1e21 upwards,
    the exponential rendering [String(x)] of the number itself. *)
Inductive fixed2 : Type :=
| FxNaN
| FxInfinity (neg : bool)
| FxDecimal (neg : bool) (cents : Z)
| FxExponential (x : num).

(** The integer [n] for which [n / 100 - m * 2^e] is as close to zero as
    possible, the larger one when two are equally close. *)
Definition cents_of (m : positive) (e : Z) : Z :=
  match e with
  | Z0 => 100 * Zpos m
  | Zpos _ => 100 * Zpos m * 2 ^ e
  | Zneg _ => (200 * Zpos m + 2 ^ (- e)) / 2 ^ (1 - e)
  end.

(** [m * 2^e >= 10^21] *)
Definition ge_1e21 (m : positive) (e : Z) : bool :=
  match e with
  | Zneg _ => 10 ^ 21 * 2 ^ (- e) <=? Zpos m
  | _ => 10 ^ 21 <=? Zpos m * 2 ^ e
  end.

(** [Number.prototype.toFixed] with [fractionDigits = 2]: a non-finite
    number prints as itself; the sign is taken off a negative number (and
    [-0] is not negative); from 1e21 the number prints in exponential
    form; otherwise it is rounded to hundredths, half up on the
    magnitude. *)
Definition toFixed2 (x : num) : fixed2 :=
  match x with
  | S754_nan => FxNaN
  | S754_infinity s => FxInfinity s
  | S754_zero _ => FxDecimal false 0
  | S754_finite s m e =>
      if ge_1e21 m e then FxExponential x else FxDecimal s (cents_of m e)
  end.

(** [parseFloat] on such a string: the binary64 number nearest to the
    decimal it denotes (ties to even), [-0] for ["-0.00"].  The
    exponential rendering of a number reads back as that number. *)
Definition parseFloat (t : fixed2) : num :=
  match t with
  | FxNaN => S754_nan
  | FxInfinity s => S754_infinity s
  | FxExponential x => x
  | FxDecimal s c =>
      match c with
      | Zpos n => SFdiv prec emax (S754_finite s n 0) (S754_finite false 100 0)
      | _ => S754_zero s
      end
  end.

(** [parseFloat(x.toFixed(2))] *)
Definition round2 (x : num) : num := parseFloat (toFixed2 x).

(** The number written as the decimal literal [c / 100]. *)
Definition of_cents (c : Z) : num :=
  parseFloat (FxDecimal (c <? 0) (Z.abs c)).

(** The number written as the decimal literal [c / 1000]. *)
Definition of_mills (c : positive) : num :=
  SFdiv prec emax (S754_finite false c 0) (S754_finite false 1000 0).

(** [x] carries the sign [sx], or is [NaN]. *)
Definition signed_as (sx : bool) (x : num) : Prop :=
  match x with
  | S754_zero s | S754_infinity s | S754_finite s _ _ => s = sx
  | S754_nan => True
  end.

(** [x < 0] is false: [x] is a zero, a positive number or [NaN]. *)
Definition not_negative (x : num) : Prop := js_lt x zero = false.

(** *** Rounding, in terms of quotients and remainders *)

(** Where the remainder [R] of a division by [D] lies in its interval. *)
Definition loc_of_rem (R D : Z) : location :=
  if R =? 0 then loc_Exact else loc_Inexact (2 * R ?= D).

(** [N / D] rounded to the nearest integer, ties to even. *)
Definition rne (N D : Z) : Z :=
  round_nearest_even (N / D) (loc_of_rem (N mod D) D).

(** A finite result, or an infinity when the exponent is out of range. *)
Definition finish (sgn : bool) (M E : Z) : num :=
  if E <=? emax - prec then S754_finite sgn (Z.to_pos M) E
  else S754_infinity sgn.

(** By how many binary digits the division by 100 scales its dividend. *)
Definition cents_shift (c : positive) : Z :=
  Z.max (60 - Zpos (digits2_pos c)) 0.

End JsNumber.

(* ===================================================================== *)
(** ** JavaScript strings                                                 *)
(* ===================================================================== *)

Module JsString.

(** Strings are sequences of 8-bit code units, read as the code points
    U+0000 to U+00FF.  The white space among them: TAB, LF, VT, FF, CR,
    SP and NBSP. *)
Definition is_space (c : ascii) : bool :=
  let n := nat_of_ascii c in
  ((9 <=? n) && (n <=? 13) || (n =? 32) || (n =? 160))%nat.

(** [s.trimStart()] *)
Fixpoint trimStart (s : string) : string :=
  match s with
  | String c s' => if is_space c then trimStart s' else s
  | EmptyString => EmptyString
  end.

(** The value of the character [c] as a digit in the radix, if it is
    one: [0-9], then [a-z] or [A-Z] for ten and more. *)
Definition digit_of (radix : N) (c : ascii) : option N :=
  let n := N_of_ascii c in
  let v := if (48 <=? n)%N && (n <=? 57)%N then Some (n - 48)%N
           else if (97 <=? n)%N && (n <=? 122)%N then Some (n - 87)%N
           else if (65 <=? n)%N && (n <=? 90)%N then Some (n - 55)%N
           else None in
  match v with
  | Some d => if (d <? radix)%N then Some d else None
  | None => None
  end.

(** The number that the longest prefix of digits denotes, read from the
    left; [acc] is the number read so far. *)
Fixpoint digits_go (radix : N) (s : string) (acc : N) : N :=
  match s with
  | String c s' =>
      match digit_of radix c with
      | Some d => digits_go radix s' (radix * acc + d)
      | None => acc
      end
  | EmptyString => acc
  end.

(** No digit at the front is [NaN]. *)
Definition parse_digits (radix : N) (s : string) : option N :=
  match s with
  | String c _ =>
      match digit_of radix c with
      | Some _ => Some (digits_go radix s 0)
      | None => None
      end
  | EmptyString => None
  end.

Definition strip_sign (s : string) : bool * string :=
  match s with
  | String "-" s' => (true, s')
  | String "+" s' => (false, s')
  | _ => (false, s)
  end.

Definition signed (neg : bool) (n : N) : Z :=
  if neg then - Z.of_N n else Z.of_N n.

(** [parseInt(s)], no radix given: leading white space is skipped, a sign
    is taken off, [0x] or [0X] selects radix 16, and the longest prefix of
    digits is read; [None] is [NaN].  The integer is kept exact (as a
    [Number] it is the same up to 2^53), and [-0] is 0. *)
Definition parseInt (s : string) : option Z :=
  let '(neg, s1) := strip_sign (trimStart s) in
  match s1 with
  | String "0" (String x s2) =>
      if Ascii.eqb x "x" || Ascii.eqb x "X"
      then signed neg <$> parse_digits 16 s2
      else signed neg <$> parse_digits 10 s1
  | _ => signed neg <$> parse_digits 10 s1
  end.

(** [s.startsWith(p)] *)
Definition startsWith (p s : string) : bool := String.prefix p s.

(** [s.replace(pat, by)] with a string pattern: the first occurrence. *)
Definition replace (pat by_ s : string) : string :=
  match index 0 pat s with
  | Some i =>
      String.append (substring 0 i s)
        (String.append by_
           (substring (i + String.length pat)
              (String.length s - (i + String.length pat)) s))
  | None => s
  end.

End JsString.

(* ===================================================================== *)
(** ** src/balance.js                                                     *)
(* ===================================================================== *)

Module Balance.
Import JsNumber.

(** [userBalances], an object keyed by user id. *)
Abbreviation ledger := (gmap Z num).

Inductive error : Type :=
| InsufficientFunds.   (* Error('Недостаточно средств на балансе') *)

Inductive outcome : Type :=
| Returned (v : num) (s : ledger)
| Thrown (e : error) (s : ledger).

(** [userBalances[userId] || 0] *)
Definition getBalance (s : ledger) (userId : Z) : num :=
  match s !! userId with
  | Some x => if falsy x then zero else x
  | None => zero
  end.

(** [if (!userBalances[userId]) userBalances[userId] = 0;] *)
Definition ensure (s : ledger) (userId : Z) : ledger :=
  match s !! userId with
  | Some x => if falsy x then <[userId := zero]> s else s
  | None => <[userId := zero]> s
  end.

(** [userBalances[userId]] once the slot has been initialised. *)
Definition slot (s : ledger) (userId : Z) : num :=
  default zero (s !! userId).

Definition addBalance (s : ledger) (userId : Z) (amount : num)
  : num * ledger :=
  let s1 := ensure s userId in
  let v := round2 (js_add (slot s1 userId) amount) in
  (v, <[userId := v]> s1).

Definition subtractBalance (s : ledger) (userId : Z) (amount : num)
  : outcome :=
  let s1 := ensure s userId in
  let newBalance := round2 (js_sub (slot s1 userId) amount) in
  if js_lt newBalance zero
  then Thrown InsufficientFunds s1
  else Returned newBalance (<[userId := newBalance]> s1).

Definition hasEnoughBalance (s : ledger) (userId : Z) (amount : num)
  : bool :=
  js_ge (getBalance s userId) amount.

Definition ledger_after (o : outcome) : ledger :=
  match o with
  | Returned _ s => s
  | Thrown _ s => s
  end.

(** A client of the module: any sequence of calls, a thrown error being
    caught by the caller. *)
Inductive op : Type :=
| OpGet (userId : Z)
| OpAdd (userId : Z) (amount : num)
| OpSub (userId : Z) (amount : num).

Definition exec (s : ledger) (o : op) : ledger :=
  match o with
  | OpGet _ => s
  | OpAdd u a => snd (addBalance s u a)
  | OpSub u a => ledger_after (subtractBalance s u a)
  end.

Definition run (ops : list op) (s : ledger) : ledger :=
  fold_left exec ops s.

(** Credits are non-negative amounts: [amount >= 0] holds in JavaScript. *)
Definition credit_nonneg (o : op) : bool :=
  match o with
  | OpAdd _ a => js_ge a zero
  | _ => true
  end.

(** Every stored balance that counts (the falsy ones read as 0) is its own
    rounding to two decimals. *)
Definition ledger_rounded (s : ledger) : Prop :=
  forall u x, s !! u = Some x -> falsy x = false -> round2 x = x.

(** No stored balance is below zero. *)
Definition ledger_ok (s : ledger) : Prop :=
  forall u x, s !! u = Some x -> not_negative x.

(** The user an operation is about. *)
Definition op_user (o : op) : Z :=
  match o with
  | OpGet u | OpAdd u _ | OpSub u _ => u
  end.

End Balance.

(* ===================================================================== *)
(** ** src/proxySellerApi.js                                              *)
(* ===================================================================== *)

Module ProxySellerApi.

(** The rental periods the bot offers, in days (1w, 2w, 1m, 2m, 3m, 6m). *)
Definition rental_periods : list Z := [7; 14; 30; 60; 90; 180].

Definition baseMarkup : Z := 80.

Definition markupReduction (periodDays : Z) : Z :=
  if periodDays <=? 7 then 0
  else if periodDays <=? 14 then 10
  else if periodDays <=? 30 then 20
  else if periodDays <=? 60 then 30
  else if periodDays <=? 90 then 40
  else 40.

Definition calculateMarkupPercent (periodDays : Z) : Z :=
  let markupPercent := baseMarkup - markupReduction periodDays in
  Z.max 0 markupPercent.

(** The schedule as the comments of the function document it:
    80, 70, 60, 50, 40 and, for six months and more, 30 percent. *)
Definition documented_markup (periodDays : Z) : Z :=
  if periodDays <=? 7 then 80
  else if periodDays <=? 14 then 70
  else if periodDays <=? 30 then 60
  else if periodDays <=? 60 then 50
  else if periodDays <=? 90 then 40
  else 30.

(** [convertDaysToPeriodId(days)]: [Number(days) || 7], then the table
    lookup, ['1w'] when the table has no entry.  [None] is a value that
    [Number] turns into [NaN]. *)
Definition convertDaysToPeriodId (days : option Z) : string :=
  let d := match days with
           | Some n => if n =? 0 then 7 else n
           | None => 7
           end in
  if d =? 7 then "1w"
  else if d =? 14 then "2w"
  else if d =? 30 then "1m"
  else if d =? 60 then "2m"
  else if d =? 90 then "3m"
  else if d =? 180 then "6m"
  else "1w".

(** [const pref = ['1w', '2w', '1m', '2m', '3m', '6m']] *)
Definition pref : list string := ["1w"; "2w"; "1m"; "2m"; "3m"; "6m"]%string.

(** [pref.find(x => ids.includes(x))] *)
Definition first_offered (ids : list string) : option string :=
  List.find (fun x => bool_decide (x ∈ ids)) pref.

(** The period [calculatePrice] asks the price for, given the ids of the
    periods on offer: the one of the requested days, else the first of
    [pref] on offer; [None] is the error that no period was found. *)
Definition calc_period (ids : list string) (periodDays : option Z)
  : option string :=
  let periodId := convertDaysToPeriodId periodDays in
  if bool_decide (periodId ∈ ids) then Some periodId
  else first_offered ids.

(** The period [buyProxy] orders: as above, and when none of [pref] is on
    offer, the first period on offer. *)
Definition buy_period (ids : list string) (periodDays : option Z)
  : option string :=
  let desired := convertDaysToPeriodId periodDays in
  if bool_decide (desired ∈ ids) then Some desired
  else match first_offered ids with
       | Some alt => Some alt
       | None => head ids
       end.

Definition pickApiMethod (type : string) (isCalc : bool) : string :=
  if String.eqb type "private_ipv4"
  then (if isCalc then "orderCalcIpv4" else "orderMakeIpv4")
  else if String.eqb type "shared_ipv4"
  then (if isCalc then "orderCalcMix" else "orderMakeMix")
  else if String.eqb type "private_ipv6"
  then (if isCalc then "orderCalcIpv6" else "orderMakeIpv6")
  else if String.eqb type "mobile" || String.eqb type "MOB"
  then (if isCalc then "orderCalcMobile" else "orderMakeMobile")
  else if String.eqb type "ISP" || String.eqb type "isp"
          || String.eqb type "isp_ipv4"
  then (if isCalc then "orderCalcIsp" else "orderMakeIsp")
  else (if isCalc then "orderCalcIpv4" else "orderMakeIpv4").

(** [if (!methods.includes(m)) methods.push(m)] *)
Definition push_missing (methods : list string) (m : string) : list string :=
  if bool_decide (m ∈ methods) then methods else methods ++ [m].

(** The order methods [buyProxy] tries, in this order. *)
Definition buy_methods (type : string) : list string :=
  fold_left push_missing
    ["orderMakeIsp"; "orderMakeMobile"; "orderMakeMix"; "orderMakeIpv4";
     "orderMakeIpv6"]%string
    [pickApiMethod type false].

(** What one order method answers: an exception, or a result.  [success]
    is [result.status === 'success' && result.data], [errors] is
    [result.errors] when it is an array, else the empty list; an answer
    that is no object is a result without success and without errors. *)
Inductive make_response : Type :=
| MakeThrows (msg : string)
| MakeResult (success : bool) (errors : list string) (orderId : option Z).

(** The five order methods of the SDK that [buyProxy] knows. *)
Definition order_methods : list string :=
  ["orderMakeIsp"; "orderMakeMobile"; "orderMakeMix"; "orderMakeIpv4";
   "orderMakeIpv6"]%string.

(** An answer after which [buyProxy] goes on to the next method: an
    exception, or a result without success that lists errors. *)
Definition make_failed (r : make_response) : bool :=
  match r with
  | MakeThrows _ => true
  | MakeResult false (_ :: _) _ => true
  | MakeResult _ _ _ => false
  end.

(** The loop of [buyProxy] over the methods: the first answer that is
    neither an exception nor a failure with errors is returned; [None] is
    the error that the order could not be placed. *)
Fixpoint buy_loop (api : string -> make_response) (methods : list string)
  : option (string * make_response) :=
  match methods with
  | [] => None
  | m :: methods' =>
      match api m with
      | MakeThrows _ => buy_loop api methods'
      | MakeResult success errors orderId =>
          if success then Some (m, api m)
          else match errors with
               | _ :: _ => buy_loop api methods'
               | [] => Some (m, api m)
               end
      end
  end.

End ProxySellerApi.

(* ===================================================================== *)
(** ** src/db.js                                                          *)
(* ===================================================================== *)

Module Db.

(** [LPAD(s, 6, '0')]: padded with zeros on the left up to six characters,
    cut to its first six characters when longer. *)
Definition lpad6 (s : string) : string :=
  let n := String.length s in
  if (6 <=? n)%nat then substring 0 6 s
  else String.append (string_of_list_ascii (repeat "0"%char (6 - n))) s.

(** [s.slice(-6)]: the last six characters, all of [s] when shorter. *)
Definition slice_last6 (s : string) : string :=
  let n := String.length s in
  substring (n - 6) 6 s.

(** The sequence [cm_id_seq], given by the last value it handed out:
    [nextval] returns the successor; nothing handed out yet, the first
    value is 1. *)
Definition cm_id_seq_start : Z := 0.

Definition nextval (last : Z) : Z := last + 1.

(** ['CM' || LPAD(nextval('cm_id_seq')::TEXT, 6, '0')] *)
Definition cm_id_of_seq (v : Z) : string :=
  String.append "CM" (lpad6 (pretty v)).

(** [`CM${Date.now().toString().slice(-6)}`] *)
Definition cm_id_fallback (now : Z) : string :=
  String.append "CM" (slice_last6 (pretty now)).

Inductive db_error : Type :=
| PoolNotInitialised.   (* Error('Pool не инициализирован') *)

(** What one call of [generateCmId] meets: whether the query on the
    sequence succeeds, and what [Date.now()] reads (milliseconds). *)
Record cm_env : Type := {
  query_ok : bool;
  now : Z
}.

(** [generateCmId] with the pool in place: the identifier and the
    sequence afterwards. *)
Definition generateCmId_pool (e : cm_env) (last : Z) : string * Z :=
  if query_ok e
  then (cm_id_of_seq (nextval last), nextval last)
  else (cm_id_fallback (now e), last).

Definition generateCmId (pool : bool) (e : cm_env) (last : Z)
  : (db_error + string) * Z :=
  if pool
  then let '(id, last') := generateCmId_pool e last in (inr id, last')
  else (inl PoolNotInitialised, last).

(** A series of calls, each with its own environment; concurrent callers
    are served by the sequence one after the other. *)
Fixpoint issue (es : list cm_env) (last : Z) : list string :=
  match es with
  | [] => []
  | e :: es' =>
      let '(id, last') := generateCmId_pool e last in
      id :: issue es' last'
  end.

(** [withTransaction(callback)]: without a pool it throws; else BEGIN, the
    callback on the connection, then COMMIT and its result, or ROLLBACK and
    the error rethrown, be it the error of the callback or the error of
    COMMIT ([commit]).  The callback is a function from the database to
    the database it leaves and a result or an error; what it changes
    outside the database ([X]) is not undone.  [pool.connect()], BEGIN and
    ROLLBACK are taken to succeed. *)
Definition withTransaction {D X A E : Type} (no_pool : E) (pool : bool)
  (commit : option E) (callback : D -> X -> D * X * (E + A)) (db : D) (x : X)
  : D * X * (E + A) :=
  if pool then
    let '(db', x', r) := callback db x in
    match r with
    | inr a =>
        match commit with
        | None => (db', x', inr a)
        | Some e => (db, x', inl e)
        end
    | inl e => (db, x', inl e)
    end
  else (db, x, inl no_pool).

End Db.

(* ===================================================================== *)
(** ** src/bot.js                                                         *)
(* ===================================================================== *)

Module Bot.
Import JsNumber.

(** *** Values and their truthiness *)

(** A string-valued property that may be missing; [""] is falsy. *)
Definition truthy_str (s : option string) : bool :=
  match s with
  | Some s => negb (String.eqb s "")
  | None => false
  end.

(** An integer-valued property that may be missing or not a number;
    [0] is falsy. *)
Definition truthy_int (z : option Z) : bool :=
  match z with
  | Some z => negb (z =? 0)
  | None => false
  end.

(** [s || null] *)
Definition or_null (s : string) : option string :=
  if String.eqb s "" then None else Some s.

(** [a || b] on optional integers *)
Definition or_int (a b : option Z) : option Z :=
  if truthy_int a then a else b.

(** [haystack.includes(needle)] *)
Definition includes (needle haystack : string) : bool :=
  match index 0 needle haystack with
  | Some _ => true
  | None => false
  end.

(** *** The table [user_proxies] *)

Record proxy_row : Type := {
  telegram_id : Z;
  cm_id : string;
  proxy_id : option Z;
  order_id : option Z;
  type : string;
  login : option string;
  password : option string;
  ip : option string;
  port : option Z;
  port_http : option Z;
  port_socks : option Z;
  country : option string;
  date_start : option Z;
  date_end : option Z;
  status : string
}.

Abbreviation table := (list proxy_row).

(** The keys of the rows, NULLs left out. *)
Definition proxy_ids (tbl : table) : list Z := omap proxy_id tbl.

(** The constraint of migration 002: [UNIQUE (proxy_id)]. *)
Definition unique_proxy_id (tbl : table) : Prop := NoDup (proxy_ids tbl).

(** [SELECT ... FROM user_proxies WHERE proxy_id = $1] *)
Definition select_by_proxy_id (tbl : table) (k : Z) : table :=
  filter (fun r => proxy_id r = Some k) tbl.

Definition dquote : string := String (ascii_of_nat 34) EmptyString.

(** The message of the error the storage raises on a violation of the
    constraint [unique_proxy_id]. *)
Definition unique_violation : string :=
  String.append "duplicate key value violates unique constraint "
    (String.append dquote (String.append "unique_proxy_id" dquote)).

(** [INSERT INTO user_proxies ... RETURNING ...] under the constraint.
    [fault] is an error of any other origin (connection lost, another
    constraint) that makes the statement fail. *)
Definition insert_user_proxy (fault : option string) (r : proxy_row)
  (tbl : table) : string + table :=
  match fault with
  | Some msg => inl msg
  | None =>
      match proxy_id r with
      | Some k =>
          if bool_decide (k ∈ proxy_ids tbl)
          then inl unique_violation
          else inr (tbl ++ [r])
      | None => inr (tbl ++ [r])
      end
  end.

(** *** Records of the provisioning API *)

(** A record of [getProxyCredentials].  [p_id] is [Number(p.id)], [None]
    when the id is missing or not a number; a missing text is [""]; the
    dates are given as parsed, [None] when missing or invalid. *)
Record api_proxy : Type := {
  p_id : option Z;
  p_order_id : option Z;
  p_login : string;
  p_password : string;
  p_ip : string;
  p_ip_only : string;
  p_port_http : option Z;
  p_port_socks : option Z;
  p_port : option Z;
  p_country : string;
  p_date_start : option Z;
  p_date_end : option Z
}.

(** *** One candidate of the claim loop *)

Inductive skip_reason : Type :=
| NoProxyId
| OwnedByOther (owner : Z)
| AlreadyOwned
| CheckFailed
| NoLoginOrIp
| LostRace.

Inductive claim_result : Type :=
| Skipped (why : skip_reason)
| Saved (r : proxy_row)
| Raised (msg : string).

(** What one candidate meets: an error of the SELECT, the environment of
    [generateCmId], an error of the INSERT.

    The statements of a purchase run in one transaction.  PostgreSQL lets
    no statement of a transaction succeed once one has failed (the error
    on the constraint included), until ROLLBACK.  The faults here are not
    tied to each other: the run of the program after a failed statement is
    the run in the environment whose later statements fail too (the
    statements after the attempts included, see [env]), and the
    environments are not restricted to those. *)
Record claim_env : Type := {
  check_fault : option string;
  cm : Db.cm_env;
  insert_fault : option string
}.

(** A JavaScript value, as far as the comparison of the owners needs it:
    a number or a string. *)
Inductive js_value : Type :=
| JsNum (z : Z)
| JsStr (s : string).

(** [a === b]: values of different types are never equal. *)
Definition strict_eq (a b : js_value) : bool :=
  match a, b with
  | JsNum x, JsNum y => x =? y
  | JsStr s, JsStr t => String.eqb s t
  | _, _ => false
  end.

(** A [BIGINT] column as the driver returns it.  db.js registers no type
    parser, so node-postgres hands over the text of the number. *)
Definition pg_bigint (z : Z) : js_value := JsStr (pretty z).

(** The check on an existing owner: [Some why] is [continue].
    [existingOwner] is the column [telegram_id BIGINT] of the row found,
    [userId] is the number [ctx.from.id]; the two are compared by [!==]. *)
Definition claim_check (tbl : table) (userId : Z) (fault : option string)
  (proxyId : Z) : option skip_reason :=
  match fault with
  | Some _ => Some CheckFailed
  | None =>
      match select_by_proxy_id tbl proxyId with
      | r :: _ =>
          let existingOwner := pg_bigint (telegram_id r) in
          if negb (strict_eq existingOwner (JsNum userId))
          then Some (OwnedByOther (telegram_id r))
          else Some AlreadyOwned
      | [] => None
      end
  end.

Definition make_row (userId : Z) (cmId : string) (proxyId : Z)
  (proxyType : string) (orderId : option Z) (p : api_proxy) : proxy_row :=
  {| telegram_id := userId;
     cm_id := cmId;
     proxy_id := Some proxyId;
     order_id := match p_order_id p with Some o => Some o | None => orderId end;
     type := proxyType;
     login := or_null (p_login p);
     password := or_null (p_password p);
     ip := match or_null (p_ip p) with Some a => Some a | None => or_null (p_ip_only p) end;
     port := or_int (or_int (or_int (p_port_http p) (p_port_socks p)) (p_port p)) None;
     port_http := or_int (p_port_http p) None;
     port_socks := or_int (p_port_socks p) None;
     country := or_null (p_country p);
     date_start := p_date_start p;
     date_end := p_date_end p;
     status := "active" |}.

(** The INSERT and the handling of its error. *)
Definition claim_insert (tbl : table) (fault : option string)
  (row : proxy_row) : table * claim_result :=
  if negb (truthy_str (login row)) || negb (truthy_str (ip row))
  then (tbl, Skipped NoLoginOrIp)
  else
    match insert_user_proxy fault row tbl with
    | inr tbl' => (tbl', Saved row)
    | inl msg =>
        if includes "duplicate key" msg && includes "proxy_id" msg
        then (tbl, Skipped LostRace)
        else (tbl, Raised msg)
    end.

(** The body of [for (const p of enrichedProxies)] after the [break]. *)
Definition claim_one (userId : Z) (proxyType : string) (orderId : option Z)
  (ce : claim_env) (p : api_proxy) (tbl : table) (seq : Z)
  : table * Z * claim_result :=
  match p_id p with
  | Some proxyId =>
      if proxyId =? 0 then (tbl, seq, Skipped NoProxyId)
      else
        match claim_check tbl userId (check_fault ce) proxyId with
        | Some why => (tbl, seq, Skipped why)
        | None =>
            let '(cmId, seq') := Db.generateCmId_pool (cm ce) seq in
            let row := make_row userId cmId proxyId proxyType orderId p in
            let '(tbl', r) := claim_insert tbl (insert_fault ce) row in
            (tbl', seq', r)
        end
  | None => (tbl, seq, Skipped NoProxyId)
  end.

(** *** Candidates *)

(** [Number(p.id) || 0], the sort key of the last-resort selection. *)
Definition id_key (p : api_proxy) : Z := default 0 (p_id p).

(** A stable sort by descending key, as [Array.prototype.sort] with the
    comparator [(a, b) => key(b) - key(a)]. *)
Fixpoint insert_desc (x : api_proxy) (l : list api_proxy) : list api_proxy :=
  match l with
  | [] => [x]
  | y :: l' =>
      if id_key y <=? id_key x then x :: l else y :: insert_desc x l'
  end.

Definition sort_desc (l : list api_proxy) : list api_proxy :=
  foldr insert_desc [] l.

(** The keys never grow along the list. *)
Fixpoint descending (l : list api_proxy) : Prop :=
  match l with
  | [] => True
  | x :: l' => Forall (fun y => id_key y <= id_key x) l' /\ descending l'
  end.

(** [!isNaN(pId) && boughtProxyIds.includes(pId)] *)
Definition bought (boughtProxyIds : list Z) (p : api_proxy) : bool :=
  match p_id p with
  | Some k => bool_decide (k ∈ boughtProxyIds)
  | None => false
  end.

(** The three priorities: the ids the order returned, else the order id,
    else the [quantity] records with the largest ids. *)
Definition select_candidates (boughtProxyIds : list Z) (orderId : option Z)
  (quantity : Z) (proxiesFromAPI : list api_proxy) : list api_proxy :=
  match boughtProxyIds with
  | _ :: _ => List.filter (bought boughtProxyIds) proxiesFromAPI
  | [] =>
      if truthy_int orderId
      then filter (fun p => p_order_id p = orderId) proxiesFromAPI
      else take (Z.to_nat quantity) (sort_desc proxiesFromAPI)
  end.

(** [country: p.country || order.country || ''] *)
Definition enrich (orderCountry : string) (p : api_proxy) : api_proxy :=
  {| p_id := p_id p; p_order_id := p_order_id p; p_login := p_login p;
     p_password := p_password p; p_ip := p_ip p; p_ip_only := p_ip_only p;
     p_port_http := p_port_http p; p_port_socks := p_port_socks p;
     p_port := p_port p;
     p_country := if String.eqb (p_country p) "" then orderCountry
                  else p_country p;
     p_date_start := p_date_start p; p_date_end := p_date_end p |}.

(** *** The claim loop over the candidates of one attempt *)

Fixpoint claim_loop (quantity userId : Z) (proxyType : string)
  (orderId : option Z) (ce : Z -> claim_env) (ps : list api_proxy)
  (tbl : table) (seq : Z) (saved : list proxy_row)
  : table * Z * list proxy_row * option string :=
  match ps with
  | [] => (tbl, seq, saved, None)
  | p :: ps' =>
      if quantity <=? Z.of_nat (length saved) then (tbl, seq, saved, None)
      else
        let '(tbl', seq', r) :=
          claim_one userId proxyType orderId (ce (id_key p)) p tbl seq in
        match r with
        | Saved row =>
            claim_loop quantity userId proxyType orderId ce ps'
              tbl' seq' (saved ++ [row])
        | Skipped _ =>
            claim_loop quantity userId proxyType orderId ce ps'
              tbl' seq' saved
        | Raised msg => (tbl', seq', saved, Some msg)
        end
  end.

(** *** The attempts *)

Definition maxAttempts : nat := 12.

Inductive fetch_response : Type :=
| FetchThrows (msg : string)
| FetchReturns (proxiesFromAPI : list api_proxy).

(** What is thrown inside the [try] of one attempt. *)
Inductive cause : Type :=
| NoDataAfterAllAttempts   (* 'API не вернул данные прокси после всех попыток' *)
| Message (msg : string).

Inductive effect : Type :=
| AnswerCb
| EditMessage (m : message)
| CalculatePrice
| Begin
| Commit
| Rollback
| SelectBalanceForUpdate (userId : Z)
| InsertUser (userId : Z)
| DebitBalance (userId : Z) (totalPrice : num)
| UpdatePurchased (userId : Z) (n : Z)
| SelectBalance (userId : Z)
| BuyProxy
| GetProxyCredentials (attempt : nat)
with message : Type :=
| OrderLost            (* 'Данные заказа утеряны. Начните заново.' *)
| InvalidOrder         (* 'Некорректные параметры заказа. Начните заново.' *)
| CheckingBalance      (* 'Проверяю баланс и оформляю заказ...' *)
| FetchingProxies      (* 'Получаю и сохраняю данные прокси...' *)
| PurchaseDone (savedProxies : list proxy_row) (totalPrice finalBalance : num)
| PurchaseFailed (e : buy_error)
with buy_error : Type :=
| PoolMissing          (* 'Pool не инициализирован' *)
| Rethrown (msg : string)
| PriceNotCalculated   (* 'Не удалось рассчитать цену' *)
| TopUpFirst           (* 'Сначала пополните баланс' *)
| NotEnoughFunds (userBalance totalPrice : num)
| BuyFailed (msg : string)
| CredentialsFailed (c : cause)
| NothingSaved.        (* 'Не удалось сохранить ни одного прокси в БД' *)

(** What the transaction cannot undo: the sequence [cm_id_seq] and the
    calls and messages that went out. *)
Record outside : Type := {
  cm_id_seq : Z;
  effects : list effect
}.

Definition emit (f : effect) (x : outside) : outside :=
  {| cm_id_seq := cm_id_seq x; effects := effects x ++ [f] |}.

Definition set_seq (seq : Z) (x : outside) : outside :=
  {| cm_id_seq := seq; effects := effects x |}.

(** The state of [while (savedProxies.length < quantity && attempts <
    maxAttempts)]; [remaining] is [maxAttempts - attempts]. *)
Record loop_state : Type := {
  l_table : table;
  l_saved : list proxy_row;
  l_outside : outside
}.

Fixpoint fetch_loop (remaining : nat) (quantity userId : Z)
  (proxyType orderCountry : string) (orderId : option Z)
  (boughtProxyIds : list Z) (fetch : nat -> fetch_response)
  (ce : nat -> Z -> claim_env) (st : loop_state)
  : loop_state * option buy_error :=
  match remaining with
  | O => (st, None)
  | S remaining' =>
      if quantity <=? Z.of_nat (length (l_saved st)) then (st, None)
      else
        let attempts := (maxAttempts - remaining')%nat in
        let again st' :=
          fetch_loop remaining' quantity userId proxyType orderCountry
            orderId boughtProxyIds fetch ce st' in
        let caught (c : cause) st' :=
          if (maxAttempts <=? attempts)%nat
          then (st', Some (CredentialsFailed c))
          else again st' in
        let st1 :=
          {| l_table := l_table st; l_saved := l_saved st;
             l_outside := emit (GetProxyCredentials attempts) (l_outside st) |} in
        match fetch attempts with
        | FetchThrows msg => caught (Message msg) st1
        | FetchReturns [] =>
            if (attempts <? maxAttempts)%nat then again st1
            else caught NoDataAfterAllAttempts st1
        | FetchReturns proxiesFromAPI =>
            let candidateProxies :=
              select_candidates boughtProxyIds orderId quantity proxiesFromAPI in
            if bool_decide (candidateProxies = []) && (attempts <? maxAttempts)%nat
            then again st1
            else
              let '(tbl', seq', saved', raised) :=
                claim_loop quantity userId proxyType orderId (ce attempts)
                  (map (enrich orderCountry) candidateProxies)
                  (l_table st1) (cm_id_seq (l_outside st1)) (l_saved st1) in
              let st2 :=
                {| l_table := tbl'; l_saved := saved';
                   l_outside := set_seq seq' (l_outside st1) |} in
              match raised with
              | Some msg => caught (Message msg) st2
              | None =>
                  if quantity <=? Z.of_nat (length saved') then (st2, None)
                  else again st2
              end
        end
  end.

(** *** The purchase *)

Record order : Type := {
  o_type : option string;
  o_country : option string;
  o_periodDays : option Z;
  o_quantity : option Z;
  o_amount : num
}.

(** [!type || !country || !periodDays || !quantity || quantity <= 0 ||
    quantity > 100] *)
Definition order_invalid (o : order) : bool :=
  negb (truthy_str (o_type o)) || negb (truthy_str (o_country o))
  || negb (truthy_int (o_periodDays o)) || negb (truthy_int (o_quantity o))
  || match o_quantity o with
     | Some q => (q <=? 0) || (100 <? q)
     | None => false
     end.

Inductive price_response : Type :=
| PriceThrows (msg : string)
| PriceInfo (finalUsd : num).

(** The answer of [psBuyProxy], with the order id and the proxy ids the
    handler reads off it. *)
Inductive buy_response : Type :=
| BuyThrows (msg : string)
| BuyReturns (orderId : option Z) (boughtProxyIds : list Z).

(** The collaborators of one purchase: the price and order calls, the
    credential list and the claims of each attempt, and the errors, if any,
    of what follows the debit: of [ctx.editMessageText] before the attempts
    (step 6), of the UPDATE of the counter (step 7), of the SELECT of the
    final balance (step 8) and of COMMIT. *)
Record env : Type := {
  price : price_response;
  buy : buy_response;
  fetch : nat -> fetch_response;
  claim : nat -> Z -> claim_env;
  edit_fault : option string;
  counter_fault : option string;
  final_fault : option string;
  commit_fault : option string
}.

Record receipt : Type := {
  savedProxies : list proxy_row;
  totalPrice : num;
  finalBalance : num
}.

(** Step 1: the price shown before, else a fresh quote. *)
Definition quote_price (amount : num) (e : env) (x : outside)
  : outside * (buy_error + num) :=
  let totalPrice := if falsy amount then zero else amount in
  if js_le totalPrice zero then
    let x1 := emit CalculatePrice x in
    match price e with
    | PriceThrows msg => (x1, inl (Rethrown msg))
    | PriceInfo finalUsd =>
        let totalPrice := if falsy finalUsd then zero else finalUsd in
        if js_le totalPrice zero then (x1, inl PriceNotCalculated)
        else (x1, inr totalPrice)
    end
  else (x, inr totalPrice).

(** [type === 'private_ipv6' ? 'ipv6' : 'ipv4'] *)
Definition proxy_type (type : string) : string :=
  if String.eqb type "private_ipv6" then "ipv6" else "ipv4".

Section Money.

(** The table [users] is created outside the sources at hand: the type of
    its column [balance] and the arithmetic of the storage on it are
    parameters.  [money_to_js] is [parseFloat(row.balance || 0)]. *)
Context {money : Type}.
Variable money_zero : money.
Variable money_sub : money -> num -> money.
Variable money_add : money -> num -> money.
Variable money_to_js : money -> num.

Record user_row : Type := {
  balance : money;
  proxies_purchased : Z;
  username : option string
}.

Record database : Type := {
  users : gmap Z user_row;
  user_proxies : table
}.

Definition set_users (u : gmap Z user_row) (db : database) : database :=
  {| users := u; user_proxies := user_proxies db |}.

Definition set_user_proxies (t : table) (db : database) : database :=
  {| users := users db; user_proxies := t |}.

(** Steps 2 and 3: the balance read under the row lock, and the debit. *)
Definition debit (userId : Z) (name : option string) (totalPrice : num)
  (db : database) (x : outside) : database * outside * (buy_error + unit) :=
  let x1 := emit (SelectBalanceForUpdate userId) x in
  match users db !! userId with
  | None =>
      let row := {| balance := money_zero; proxies_purchased := 0;
                    username := name |} in
      (set_users (<[userId := row]> (users db)) db,
       emit (InsertUser userId) x1, inl TopUpFirst)
  | Some u =>
      let userBalance := money_to_js (balance u) in
      if js_lt userBalance totalPrice
      then (db, x1, inl (NotEnoughFunds userBalance totalPrice))
      else
        let u' := {| balance := money_sub (balance u) totalPrice;
                     proxies_purchased := proxies_purchased u;
                     username := username u |} in
        (set_users (<[userId := u']> (users db)) db,
         emit (DebitBalance userId totalPrice) x1, inr ())
  end.

(** Steps 7 and 8: the counter of purchased proxies and the final balance.
    An error of either statement leaves the callback as it is. *)
Definition settle (userId : Z) (totalPrice : num) (saved : list proxy_row)
  (e : env) (db : database) (x : outside)
  : database * outside * (buy_error + receipt) :=
  let n := Z.of_nat (length saved) in
  let bump u := {| balance := balance u;
                   proxies_purchased := proxies_purchased u + n;
                   username := username u |} in
  let x1 := emit (UpdatePurchased userId n) x in
  match counter_fault e with
  | Some msg => (db, x1, inl (Rethrown msg))
  | None =>
      let db' := set_users (alter bump userId (users db)) db in
      let x2 := emit (SelectBalance userId) x1 in
      match final_fault e with
      | Some msg => (db', x2, inl (Rethrown msg))
      | None =>
          let final := match users db' !! userId with
                       | Some u => money_to_js (balance u)
                       | None => zero
                       end in
          (db', x2, inr {| savedProxies := saved; totalPrice := totalPrice;
                           finalBalance := final |})
      end
  end.

(** The callback handed to [withTransaction].  The statements up to and
    including the debit are taken to succeed; what follows the debit can
    throw: the order call, the message before the attempts, the attempts,
    the check that a proxy was saved, and the two statements after it. *)
Definition purchase (userId : Z) (name : option string) (type country : string)
  (quantity : Z) (amount : num) (e : env) (db : database) (x : outside)
  : database * outside * (buy_error + receipt) :=
  match quote_price amount e x with
  | (x1, inl err) => (db, x1, inl err)
  | (x1, inr totalPrice) =>
      match debit userId name totalPrice db x1 with
      | (db2, x2, inl err) => (db2, x2, inl err)
      | (db2, x2, inr _) =>
          let x3 := emit BuyProxy x2 in
          match buy e with
          | BuyThrows msg => (db2, x3, inl (BuyFailed msg))
          | BuyReturns orderId boughtProxyIds =>
              let x4 := emit (EditMessage FetchingProxies) x3 in
              match edit_fault e with
              | Some msg => (db2, x4, inl (Rethrown msg))
              | None =>
                  let st := {| l_table := user_proxies db2; l_saved := [];
                               l_outside := x4 |} in
                  match fetch_loop maxAttempts quantity userId
                          (proxy_type type) country orderId boughtProxyIds
                          (fetch e) (claim e) st with
                  | (st', Some err) =>
                      (set_user_proxies (l_table st') db2, l_outside st',
                       inl err)
                  | (st', None) =>
                      let db3 := set_user_proxies (l_table st') db2 in
                      match l_saved st' with
                      | [] => (db3, l_outside st', inl NothingSaved)
                      | _ :: _ =>
                          settle userId totalPrice (l_saved st') e db3
                            (l_outside st')
                      end
                  end
              end
          end
      end
  end.

(** [withTransaction] as the handler uses it, with BEGIN, COMMIT and
    ROLLBACK on the record; [commit] is the error of COMMIT, if any. *)
Definition transact {A : Type}
  (callback : database -> outside -> database * outside * (buy_error + A))
  (pool : bool) (commit : option string) (db : database) (x : outside)
  : database * outside * (buy_error + A) :=
  let '(db', x', r) :=
    Db.withTransaction PoolMissing pool (Rethrown <$> commit)
      (fun d y =>
         let '(d1, y1, r1) := callback d (emit Begin y) in
         (d1, match r1 with inr _ => emit Commit y1 | inl _ => y1 end, r1))
      db x in
  (db',
   if pool then match r with inr _ => x' | inl _ => emit Rollback x' end
   else x',
   r).

(** [bot.action(/^buy_.../)]: the database, the record of what went out and
    [ctx.session.order] afterwards. *)
Definition buy_action (pool : bool) (userId : Z) (name : option string)
  (session_order : option order) (e : env) (db : database) (x : outside)
  : database * outside * option order :=
  let x0 := emit AnswerCb x in
  match session_order with
  | None => (db, emit (EditMessage OrderLost) x0, None)
  | Some o =>
      if order_invalid o
      then (db, emit (EditMessage InvalidOrder) x0, Some o)
      else
        let x1 := emit (EditMessage CheckingBalance) x0 in
        let '(db', x', r) :=
          transact
            (purchase userId name (default "" (o_type o))
               (default "" (o_country o)) (default 0 (o_quantity o))
               (o_amount o) e)
            pool (commit_fault e) db x1 in
        match r with
        | inr rc =>
            (db', emit (EditMessage (PurchaseDone (savedProxies rc)
                                       (totalPrice rc) (finalBalance rc))) x',
             None)
        | inl err => (db', emit (EditMessage (PurchaseFailed err)) x', Some o)
        end
  end.

(** *** The payment confirmation loop *)

Definition maxChecks : nat := 180.

Inductive invoice_status : Type :=
| InvoiceActive
| InvoicePaid
| InvoiceExpired.

(** The statements on [users] that credit a paid invoice, in the order
    in which the callback issues them. *)
Inductive users_step : Type :=
| SelectUser         (* SELECT * FROM users WHERE telegram_id = $1 *)
| InsertUserRow      (* INSERT INTO users (telegram_id, username) ... *)
| UpdateBalance      (* UPDATE users SET balance = balance + $1 ... *)
| SelectNewBalance.  (* SELECT balance FROM users WHERE telegram_id = $1 *)

(** What one callback of the interval meets: what
    [await checkInvoiceStatus(invoiceId)] gives ([null], a status, or an
    exception), and for a paid invoice whether a statement on [users]
    throws: [PollStatus InvoicePaid] is the paid invoice whose statements
    all succeed, [PollPaidDbFails failing] the paid invoice whose statement
    [failing] throws when it is issued. *)
Inductive poll_response : Type :=
| PollNull
| PollStatus (s : invoice_status)
| PollThrows
| PollPaidDbFails (failing : users_step).

Inductive notice : Type :=
| DatabaseError        (* 'Ошибка базы данных. Обратитесь в поддержку.' *)
| InvoiceSettled (amount newBalance : num)
| CreditFailed         (* 'Ошибка при зачислении средств. Обратитесь в поддержку.' *)
| InvoiceTimedOut.     (* 'Счёт истёк.' *)

(** One check started by [startPaymentCheck]: the interval timer, the
    counter the callbacks share, the callbacks suspended at the [await],
    the table [users], the deposit fields of the session, and what was sent
    to the user.  [credits] counts how often the statement
    [UPDATE users SET balance = balance + $1] went through. *)
Record check_state : Type := {
  timer_on : bool;
  registered : bool;
  checkCount : nat;
  awaiting : nat;
  deposit_session : bool;
  pay_users : gmap Z user_row;
  credits : nat;
  notices : list notice
}.

Definition start_check (u : gmap Z user_row) : check_state :=
  {| timer_on := true; registered := true; checkCount := 0; awaiting := 0;
     deposit_session := true; pay_users := u; credits := 0; notices := [] |}.

(** [clearInterval(checkInterval); delete activePaymentChecks[userId];] *)
Definition stop_check (st : check_state) : check_state :=
  {| timer_on := false; registered := false; checkCount := checkCount st;
     awaiting := awaiting st; deposit_session := deposit_session st;
     pay_users := pay_users st; credits := credits st;
     notices := notices st |}.

Definition clear_session (st : check_state) : check_state :=
  {| timer_on := timer_on st; registered := registered st;
     checkCount := checkCount st; awaiting := awaiting st;
     deposit_session := false; pay_users := pay_users st;
     credits := credits st; notices := notices st |}.

Definition notify (n : notice) (st : check_state) : check_state :=
  {| timer_on := timer_on st; registered := registered st;
     checkCount := checkCount st; awaiting := awaiting st;
     deposit_session := deposit_session st; pay_users := pay_users st;
     credits := credits st; notices := notices st ++ [n] |}.

(** The user row is created when missing. *)
Definition ensure_user (userId : Z) (u : gmap Z user_row)
  : gmap Z user_row :=
  match u !! userId with
  | Some _ => u
  | None => <[userId := {| balance := money_zero; proxies_purchased := 0;
                           username := None |}]> u
  end.

(** [UPDATE users SET balance = balance + $1 WHERE telegram_id = $2] *)
Definition add_balance (userId : Z) (amount : num) (u : gmap Z user_row)
  : gmap Z user_row :=
  alter (fun r => {| balance := money_add (balance r) amount;
                     proxies_purchased := proxies_purchased r;
                     username := username r |}) userId u.

(** The table after the statements that credit a paid invoice, when all
    of them go through. *)
Definition credit_user (userId : Z) (amount : num) (u : gmap Z user_row)
  : gmap Z user_row :=
  add_balance userId amount (ensure_user userId u).

Definition balance_of (userId : Z) (u : gmap Z user_row) : option money :=
  balance <$> u !! userId.

(** [parseFloat(balanceRes.rows[0].balance || 0)] *)
Definition read_balance (userId : Z) (u : gmap Z user_row) : num :=
  match u !! userId with
  | Some r => money_to_js (balance r)
  | None => zero
  end.

(** Whether the statement [s] throws when it is issued. *)
Definition throws (failing : option users_step) (s : users_step) : bool :=
  match failing, s with
  | Some SelectUser, SelectUser
  | Some InsertUserRow, InsertUserRow
  | Some UpdateBalance, UpdateBalance
  | Some SelectNewBalance, SelectNewBalance => true
  | _, _ => false
  end.

(** [user.rows.length === 0] *)
Definition no_user (userId : Z) (u : gmap Z user_row) : bool :=
  match u !! userId with
  | Some _ => false
  | None => true
  end.

(** The body of the inner [try]: the SELECT of the user, the INSERT when
    there is none, the UPDATE of the balance and the SELECT of the new
    balance, each on the pool and on its own, not in a transaction.  The
    statement [failing] throws when it is issued.  The result is the table
    afterwards, whether the UPDATE went through, and the new balance, or
    [None] when a statement threw ([catch (dbErr)]). *)
Definition credit_steps (failing : option users_step) (userId : Z)
  (amount : num) (u : gmap Z user_row)
  : gmap Z user_row * bool * option num :=
  if throws failing SelectUser then (u, false, None)
  else if no_user userId u && throws failing InsertUserRow
  then (u, false, None)
  else
    let u1 := ensure_user userId u in
    if throws failing UpdateBalance then (u1, false, None)
    else
      let u2 := add_balance userId amount u1 in
      if throws failing SelectNewBalance then (u2, true, None)
      else (u2, true, Some (read_balance userId u2)).

Definition credited (u : gmap Z user_row) (updated : bool)
  (st : check_state) : check_state :=
  {| timer_on := timer_on st; registered := registered st;
     checkCount := checkCount st; awaiting := awaiting st;
     deposit_session := deposit_session st; pay_users := u;
     credits := (credits st + if updated then 1 else 0)%nat;
     notices := notices st |}.

(** The branch [invoiceStatus.status === 'paid']: the timer is cleared
    first; without a pool the user is told so; else the statements on
    [users] run, and when one of them throws the callback returns after
    the message of the error, before the session is cleared. *)
Definition on_paid (pool : bool) (userId : Z) (amount : num)
  (failing : option users_step) (st : check_state) : check_state :=
  let st1 := stop_check st in
  if pool then
    match credit_steps failing userId amount (pay_users st1) with
    | (u, updated, Some newBalance) =>
        clear_session
          (notify (InvoiceSettled amount newBalance) (credited u updated st1))
    | (u, updated, None) => notify CreditFailed (credited u updated st1)
    end
  else notify DatabaseError st1.

(** The rest of the interval callback, from the answer of the poll on. *)
Definition on_response (pool : bool) (userId : Z) (amount : num)
  (r : poll_response) (st : check_state) : check_state :=
  match r with
  | PollNull | PollThrows =>
      if (maxChecks <=? checkCount st)%nat then stop_check st else st
  | PollStatus InvoicePaid => on_paid pool userId amount None st
  | PollPaidDbFails failing => on_paid pool userId amount (Some failing) st
  | PollStatus s =>
      if match s with InvoiceExpired => true | _ => false end
         || (maxChecks <=? checkCount st)%nat
      then clear_session (notify InvoiceTimedOut (stop_check st))
      else st
  end.

(** What happens to a check: the timer fires, or a pending poll answers. *)
Inductive tick_event : Type :=
| TimerFires
| PollReturns (r : poll_response).

Definition poll_step (pool : bool) (userId : Z) (amount : num)
  (st : check_state) (ev : tick_event) : check_state :=
  match ev with
  | TimerFires =>
      if timer_on st then
        {| timer_on := true; registered := registered st;
           checkCount := S (checkCount st); awaiting := S (awaiting st);
           deposit_session := deposit_session st; pay_users := pay_users st;
           credits := credits st; notices := notices st |}
      else st
  | PollReturns r =>
      match awaiting st with
      | O => st
      | S n =>
          on_response pool userId amount r
            {| timer_on := timer_on st; registered := registered st;
               checkCount := checkCount st; awaiting := n;
               deposit_session := deposit_session st;
               pay_users := pay_users st; credits := credits st;
               notices := notices st |}
      end
  end.

(** Polls that never overlap: each answer arrives before the timer fires
    again. *)
Definition one_at_a_time (rs : list poll_response) : list tick_event :=
  flat_map (fun r => [TimerFires; PollReturns r]) rs.

Definition poll_run (pool : bool) (userId : Z) (amount : num)
  (evs : list tick_event) (st : check_state) : check_state :=
  fold_left (poll_step pool userId amount) evs st.

End Money.

(** *** Purchases racing on the table

    Several purchase handlers run at once.  Each works through the claim
    loop above; the table and the sequence are shared, and the storage
    serialises the statements.  A handler's SELECT and its INSERT are
    separate statements, so other handlers' statements may fall between
    them. *)

Record flow : Type := {
  f_user : Z;
  f_proxyType : string;
  f_orderId : option Z;
  f_quantity : Z;
  f_todo : list api_proxy;       (* candidates not looked at yet *)
  f_pending : option proxy_row;  (* checked, its INSERT not issued yet *)
  f_saved : list proxy_row;      (* savedProxies *)
  f_raised : option string       (* an error left the loop *)
}.

Definition flow_with (todo : list api_proxy) (pending : option proxy_row)
  (saved : list proxy_row) (raised : option string) (f : flow) : flow :=
  {| f_user := f_user f; f_proxyType := f_proxyType f;
     f_orderId := f_orderId f; f_quantity := f_quantity f;
     f_todo := todo; f_pending := pending; f_saved := saved;
     f_raised := raised |}.

(** The next candidate up to and including the check and [generateCmId]. *)
Definition flow_check (ce : claim_env) (tbl : table) (seq : Z) (f : flow)
  : Z * flow :=
  match f_pending f, f_raised f, f_todo f with
  | None, None, p :: rest =>
      if f_quantity f <=? Z.of_nat (length (f_saved f))
      then (seq, flow_with [] None (f_saved f) None f)
      else
        let skip := (seq, flow_with rest None (f_saved f) None f) in
        match p_id p with
        | Some proxyId =>
            if proxyId =? 0 then skip
            else
              match claim_check tbl (f_user f) (check_fault ce) proxyId with
              | Some _ => skip
              | None =>
                  let '(cmId, seq') := Db.generateCmId_pool (cm ce) seq in
                  let row := make_row (f_user f) cmId proxyId (f_proxyType f)
                               (f_orderId f) p in
                  (seq', flow_with rest (Some row) (f_saved f) None f)
              end
        | None => skip
        end
  | _, _, _ => (seq, f)
  end.

(** The INSERT of the candidate that passed the check. *)
Definition flow_insert (fault : option string) (tbl : table) (f : flow)
  : table * flow :=
  match f_pending f with
  | Some row =>
      let '(tbl', r) := claim_insert tbl fault row in
      (tbl',
       match r with
       | Saved row' => flow_with (f_todo f) None (f_saved f ++ [row']) None f
       | Skipped _ => flow_with (f_todo f) None (f_saved f) None f
       | Raised msg => flow_with [] None (f_saved f) (Some msg) f
       end)
  | None => (tbl, f)
  end.

(** ROLLBACK of a handler's transaction: the rows it saved are gone. *)
Definition flow_abort (tbl : table) (f : flow) : table * flow :=
  (List.filter
     (fun r => match proxy_id r with
               | Some k => negb (bool_decide (k ∈ proxy_ids (f_saved f)))
               | None => true
               end) tbl,
   flow_with [] None [] (Some "rollback") f).

Inductive move : Type :=
| Check (i : nat) (ce : claim_env)
| Insert (i : nat) (fault : option string)
| Abort (i : nat).

Record race_state : Type := {
  r_table : table;
  r_seq : Z;
  r_flows : list flow
}.

Definition race_step (st : race_state) (m : move) : race_state :=
  match m with
  | Check i ce =>
      match r_flows st !! i with
      | Some f =>
          let '(seq', f') := flow_check ce (r_table st) (r_seq st) f in
          {| r_table := r_table st; r_seq := seq';
             r_flows := <[i := f']> (r_flows st) |}
      | None => st
      end
  | Insert i fault =>
      match r_flows st !! i with
      | Some f =>
          let '(tbl', f') := flow_insert fault (r_table st) f in
          {| r_table := tbl'; r_seq := r_seq st;
             r_flows := <[i := f']> (r_flows st) |}
      | None => st
      end
  | Abort i =>
      match r_flows st !! i with
      | Some f =>
          let '(tbl', f') := flow_abort (r_table st) f in
          {| r_table := tbl'; r_seq := r_seq st;
             r_flows := <[i := f']> (r_flows st) |}
      | None => st
      end
  end.

(** Any interleaving of the handlers' statements. *)
Definition race_run (ms : list move) (st : race_state) : race_state :=
  fold_left race_step ms st.

(** The INSERTs of several handlers on the same table, in the order in
    which the storage takes them. *)
Fixpoint insert_all (rows : list proxy_row) (tbl : table)
  : table * list claim_result :=
  match rows with
  | [] => (tbl, [])
  | row :: rows' =>
      let '(tbl1, r) := claim_insert tbl None row in
      let '(tbl2, rs) := insert_all rows' tbl1 in
      (tbl2, r :: rs)
  end.

(** A row of the user that carries a key. *)
Definition owned_by (userId : Z) (r : proxy_row) : Prop :=
  telegram_id r = userId /\ is_Some (proxy_id r).

(** *** Keyboards *)

(** [chunk(array, size)]: the loop [for (let i = 0; i < array.length;
    i += size) out.push(array.slice(i, i + size))], for a size that is a
    natural number.  The loop need not end: [fuel] bounds the number of
    rounds, and [None] is a loop that is still running when it is used
    up. *)
Fixpoint chunk_loop {A : Type} (fuel : nat) (array : list A) (size i : nat)
  (out : list (list A)) : option (list (list A)) :=
  match fuel with
  | O => if (i <? length array)%nat then None else Some out
  | S fuel' =>
      if (i <? length array)%nat
      then chunk_loop fuel' array size (i + size)
             (out ++ [take size (drop i array)])
      else Some out
  end.

Definition chunk {A : Type} (fuel : nat) (array : list A) (size : nat)
  : option (list (list A)) :=
  chunk_loop fuel array size 0 [].

Definition PAGE_SIZE : Z := 18.

(** [Math.max(1, Math.ceil(filtered.length / PAGE_SIZE))] *)
Definition totalPages {A : Type} (filtered : list A) : Z :=
  Z.max 1 ((Z.of_nat (length filtered) + PAGE_SIZE - 1) / PAGE_SIZE).

(** [Math.min(Math.max(0, page), totalPages - 1)] *)
Definition safePage {A : Type} (filtered : list A) (page : Z) : Z :=
  Z.min (Z.max 0 page) (totalPages filtered - 1).

(** [filtered.slice(start, start + PAGE_SIZE)], the countries that
    [buildCountryKeyboard] shows on the page. *)
Definition page_slice {A : Type} (filtered : list A) (page : Z) : list A :=
  let start := safePage filtered page * PAGE_SIZE in
  take (Z.to_nat PAGE_SIZE) (drop (Z.to_nat start) filtered).

(** *** Deposits *)

Definition is_nan (x : num) : bool :=
  match x with
  | S754_nan => true
  | _ => false
  end.

(** [isNaN(amount) || amount < 0.01 || amount > 1000], on the amount that
    [parseFloat] read off the message. *)
Definition deposit_rejected (amount : num) : bool :=
  is_nan amount || js_lt amount (of_cents 1) || js_gt amount (of_cents 100000).

(** [`deposit_${userId}`], the payload of the invoice. *)
Definition deposit_payload (userId : Z) : string :=
  String.append "deposit_" (pretty userId).

(** *** Counting what went out *)

Definition is_fetch (f : effect) : bool :=
  match f with
  | GetProxyCredentials _ => true
  | _ => false
  end.

Definition is_buy (f : effect) : bool :=
  match f with
  | BuyProxy => true
  | _ => false
  end.

Definition is_debit (f : effect) : bool :=
  match f with
  | DebitBalance _ _ => true
  | _ => false
  end.

Definition count (p : effect -> bool) (x : outside) : nat :=
  length (List.filter p (effects x)).

(** A poll that answers [paid], whatever the statements on [users] do
    then. *)
Definition is_paid (ev : tick_event) : bool :=
  match ev with
  | PollReturns (PollStatus InvoicePaid) => true
  | PollReturns (PollPaidDbFails _) => true
  | _ => false
  end.

(** An answer that leaves the invoice open: [null], an exception, or the
    status [active]. *)
Definition is_quiet (r : poll_response) : bool :=
  match r with
  | PollNull | PollThrows | PollStatus InvoiceActive => true
  | _ => false
  end.

(** The check is over: the timer is cleared, the entry of the user is
    deleted, no poll is pending. *)
Definition check_over {money : Type} (st : @check_state money) : Prop :=
  timer_on st = false /\ registered st = false /\ awaiting st = O.



End Bot.

(* ===================================================================== *)
(** ** src/cryptoBot.js                                                   *)
(* ===================================================================== *)

Module CryptoBot.
Import JsNumber JsString Balance Bot.

(** The invoice of a payment notice; [i_amount] is [parseFloat(amount)]. *)
Record invoice : Type := {
  i_status : string;
  i_payload : string;
  i_amount : num;
  i_user_id : Z
}.

Section Money.
Context {money : Type}.
Variable money_add : money -> num -> money.

(** [UPDATE users SET balance = balance + $1 WHERE telegram_id = $2] *)
Definition update_balance (userId : Z) (amount : num)
  (u : gmap Z (@user_row money)) : gmap Z user_row :=
  alter (fun r => {| balance := money_add (balance r) amount;
                     proxies_purchased := proxies_purchased r;
                     username := username r |}) userId u.

(** [handlePayment(invoice)]: the ledger of src/balance.js and the table
    [users] afterwards.  [pool] tells whether the module has a database,
    [db_fault] whether its UPDATE fails (the error is logged). *)
Definition handlePayment (pool db_fault : bool) (inv : invoice)
  (s : ledger) (u : gmap Z (@user_row money)) : ledger * gmap Z user_row :=
  if negb (String.eqb (i_status inv) "paid") then (s, u)
  else if startsWith "deposit_" (i_payload inv) then
    let userId := parseInt (replace "deposit_" "" (i_payload inv)) in
    if bool_decide (userId <> Some (i_user_id inv)) then (s, u)
    else
      let '(_, s') := addBalance s (i_user_id inv) (i_amount inv) in
      (s', if pool && negb db_fault
           then update_balance (i_user_id inv) (i_amount inv) u
           else u)
  else (s, u).

End Money.

End CryptoBot.

(* ===================================================================== *)
(** ** migrations/002_add_unique_proxy_id.sql                             *)
(* ===================================================================== *)

Module Migrations.
Import Bot.

(** The rows of [user_proxies] are listed in the order of their [id]: the
    [id] of a row is its position. *)

(** The row at position [i] has the smallest [id] among the rows with its
    key: [id IN (SELECT MIN(id) FROM user_proxies WHERE proxy_id IS NOT
    NULL GROUP BY proxy_id)]. *)
Definition min_of_group (tbl : table) (i : nat) : bool :=
  match tbl !! i with
  | Some r =>
      match proxy_id r with
      | Some k => bool_decide (k ∉ proxy_ids (take i tbl))
      | None => false
      end
  | None => false
  end.

(** Step 1: [DELETE FROM user_proxies WHERE id NOT IN (...)] *)
Definition delete_duplicates (tbl : table) : table :=
  snd <$> List.filter (fun ir => min_of_group tbl (fst ir)) (imap pair tbl).

(** Step 2: [ALTER TABLE user_proxies ADD CONSTRAINT unique_proxy_id
    UNIQUE (proxy_id)] fails on a table with two rows of one key. *)
Definition add_constraint (tbl : table) : option table :=
  if bool_decide (NoDup (proxy_ids tbl)) then Some tbl else None.

Definition migration_002 (tbl : table) : option table :=
  add_constraint (delete_duplicates tbl).

End Migrations.

(* ===================================================================== *)
(** ** Scenarios                                                          *)
(* ===================================================================== *)

Module Scenario.
Import JsNumber Bot.

Definition alice : Z := 1001.
Definition bob : Z := 1002.

(** A table [users] whose balances are JavaScript numbers. *)
Definition account (b : num) : @user_row num :=
  {| balance := b; proxies_purchased := 0; username := None |}.

Definition js_money_to_js (b : num) : num := b.

Definition steady : claim_env :=
  {| check_fault := None;
     cm := {| Db.query_ok := true; Db.now := 1700000123456 |};
     insert_fault := None |}.

Definition proxy7 : api_proxy :=
  {| p_id := Some 7; p_order_id := Some 55; p_login := "user7";
     p_password := "secret"; p_ip := "203.0.113.7"; p_ip_only := "";
     p_port_http := Some 8080; p_port_socks := Some 1080; p_port := None;
     p_country := "DEU"; p_date_start := None; p_date_end := None |}.

Definition row7 (owner : Z) (cmId : string) : proxy_row :=
  make_row owner cmId 7 "ipv4" (Some 55) proxy7.

(** A shop whose order call answers [b] and whose credential list is [f]. *)
Definition shop (b : buy_response) (f : nat -> fetch_response) : env :=
  {| price := PriceInfo zero; buy := b; fetch := f;
     claim := fun _ _ => steady;
     edit_fault := None; counter_fault := None; final_fault := None;
     commit_fault := None |}.

(** Alice has 50 dollars; Bob already holds proxy 7. *)
Definition db_alice_50 : @database num :=
  {| users := {[ alice := account (of_cents 5000) ]};
     user_proxies := [row7 bob "CM000001"] |}.

Definition fresh : outside := {| cm_id_seq := 1; effects := [] |}.

(** A purchase of one proxy for 30 dollars. *)
Definition purchase_30 (e : env) :=
  transact
    (purchase zero js_sub js_money_to_js alice None "private_ipv4" "DEU" 1
       (of_cents 3000) e)
    true (commit_fault e) db_alice_50 fresh.

Definition order_of (quantity : Z) : order :=
  {| o_type := Some "private_ipv4"; o_country := Some "DEU";
     o_periodDays := Some 30; o_quantity := Some quantity;
     o_amount := of_cents 3000 |}.

(** Two handlers, Alice's and Bob's, are offered proxy 7 at once. *)
Definition racer (user : Z) : flow :=
  {| f_user := user; f_proxyType := "ipv4"; f_orderId := Some 55;
     f_quantity := 1; f_todo := [proxy7]; f_pending := None;
     f_saved := []; f_raised := None |}.

Definition race_start : race_state :=
  {| r_table := []; r_seq := 0; r_flows := [racer alice; racer bob] |}.

Definition race_moves : list move :=
  [Check 0 steady; Check 1 steady; Insert 0 None; Insert 1 None].

(** A second proxy, which nobody holds. *)
Definition proxy8 : api_proxy :=
  {| p_id := Some 8; p_order_id := Some 56; p_login := "user8";
     p_password := "secret"; p_ip := "203.0.113.8"; p_ip_only := "";
     p_port_http := Some 8080; p_port_socks := Some 1080; p_port := None;
     p_country := "DEU"; p_date_start := None; p_date_end := None |}.

(** A record as the download export gives it: no id, no order. *)
Definition export_record : api_proxy :=
  {| p_id := None; p_order_id := None; p_login := "user9";
     p_password := "secret"; p_ip := "203.0.113.9"; p_ip_only := "";
     p_port_http := Some 8080; p_port_socks := None; p_port := None;
     p_country := ""; p_date_start := None; p_date_end := None |}.

(** The shop delivers proxy 8 for order 56; its list also shows proxy 7. *)
Definition shop8 : env :=
  shop (BuyReturns (Some 56) [8]) (fun _ => FetchReturns [proxy7; proxy8]).


End Scenario.

(* ===================================================================== *)
(** * Properties                                                          *)
(* ===================================================================== *)

(** ** The balance ledger *)
Import JsNumber Balance.


Lemma binary_round_aux_sign sx mx ex lx :
  signed_as sx (binary_round_aux prec emax sx mx ex lx).
Proof.
  unfold binary_round_aux.
  destruct (shr_fexp prec emax mx ex lx) as [mrs' e'].
  destruct (shr_fexp prec emax _ e' loc_Exact) as [mrs'' e''].
  destruct (shr_m mrs''); simpl; [done | | done].
  destruct (e'' <=? emax - prec); done.
Qed.

Lemma binary_round_sign sx mx ex :
  signed_as sx (binary_round prec emax sx mx ex).
Proof.
  unfold binary_round.
  destruct (shl_align mx ex _) as [mz ez].
  apply binary_round_aux_sign.
Qed.


Lemma not_negative_signed x : signed_as false x -> not_negative x.
Proof. destruct x as [s|s| |s m e]; simpl; intros H; subst; done. Qed.

Lemma not_negative_inv x :
  not_negative x ->
  match x with
  | S754_infinity s | S754_finite s _ _ => s = false
  | _ => True
  end.
Proof. by destruct x as [s|[]| |[] m e]. Qed.

Lemma round2_not_negative x : not_negative x -> not_negative (round2 x).
Proof.
  intros Hx. apply not_negative_inv in Hx.
  destruct x as [s|s| |s m e]; simpl in *; subst; try done.
  unfold round2, toFixed2.
  destruct (ge_1e21 m e); [done|].
  simpl. destruct (cents_of m e) as [|n|n]; [done| |done].
  apply not_negative_signed. unfold SFdiv.
  destruct (SFdiv_core_binary _ _ _ _ _ _) as [[mz ez] lz].
  apply binary_round_aux_sign.
Qed.

Lemma js_add_not_negative x a :
  not_negative x -> js_ge a zero = true -> not_negative (js_add x a).
Proof.
  intros Hx Ha. apply not_negative_inv in Hx.
  destruct x as [sx|sx| |sx mx ex], a as [sa|[]| |[] ma ea];
    simpl in *; subst; try done.
  - by destruct sx, sa.
  - apply not_negative_signed. unfold js_add, SFadd. simpl.
    apply binary_round_sign.
Qed.

Lemma getBalance_ge_zero (s : ledger) u :
  (forall x, s !! u = Some x -> not_negative x) ->
  js_ge (getBalance s u) zero = true.
Proof.
  intros H. unfold getBalance.
  destruct (s !! u) as [x|] eqn:E; [|done].
  specialize (H x eq_refl). apply not_negative_inv in H.
  destruct x as [sx|sx| |sx mx ex]; simpl in *; subst; done.
Qed.

Lemma slot_ensure (s : ledger) u : slot (ensure s u) u = getBalance s u.
Proof.
  unfold slot, ensure, getBalance.
  destruct (s !! u) as [x|] eqn:E.
  - destruct (falsy x); [by rewrite lookup_insert_eq | by rewrite E].
  - by rewrite lookup_insert_eq.
Qed.

Lemma getBalance_ensure (s : ledger) u u' :
  getBalance (ensure s u) u' = getBalance s u'.
Proof.
  unfold ensure, getBalance.
  destruct (s !! u) as [x|] eqn:E.
  - destruct (falsy x) eqn:F; [|done].
    destruct (decide (u = u')) as [<-|Hne].
    + by rewrite lookup_insert_eq, E, F.
    + by rewrite lookup_insert_ne.
  - destruct (decide (u = u')) as [<-|Hne].
    + by rewrite lookup_insert_eq, E.
    + by rewrite lookup_insert_ne.
Qed.


Lemma ledger_ok_insert (s : ledger) u v :
  ledger_ok s -> not_negative v -> ledger_ok (<[u := v]> s).
Proof.
  intros Hs Hv u' x. destruct (decide (u = u')) as [<-|Hne].
  - rewrite lookup_insert_eq. by intros [= <-].
  - rewrite lookup_insert_ne by done. apply Hs.
Qed.

Lemma ledger_ok_ensure (s : ledger) u : ledger_ok s -> ledger_ok (ensure s u).
Proof.
  intros Hs. unfold ensure.
  destruct (s !! u) as [x|]; [destruct (falsy x)|]; try done;
    by apply ledger_ok_insert.
Qed.

Lemma getBalance_not_negative (s : ledger) u :
  ledger_ok s -> not_negative (getBalance s u).
Proof.
  intros Hs. unfold getBalance.
  destruct (s !! u) as [x|] eqn:E; [|done].
  destruct (falsy x); [done|]. by eapply Hs.
Qed.

Lemma exec_ok (s : ledger) o :
  credit_nonneg o = true -> ledger_ok s -> ledger_ok (exec s o).
Proof.
  intros Ho Hs. destruct o as [u|u a|u a]; simpl in *; [done| |].
  - apply ledger_ok_insert; [by apply ledger_ok_ensure|].
    apply round2_not_negative. rewrite slot_ensure.
    apply js_add_not_negative; [by apply getBalance_not_negative | done].
  - unfold subtractBalance.
    destruct (js_lt _ zero) eqn:E; simpl; [by apply ledger_ok_ensure|].
    apply ledger_ok_insert; [by apply ledger_ok_ensure | done].
Qed.

Lemma run_ok ops : forall s,
  forallb credit_nonneg ops = true -> ledger_ok s -> ledger_ok (run ops s).
Proof.
  induction ops as [|o ops IH]; intros s Hops Hs; simpl in *; [done|].
  apply andb_true_iff in Hops as [Ho Hops].
  apply IH; [done|]. by apply exec_ok.
Qed.

Lemma forallb_take {A} (f : A -> bool) n (l : list A) :
  forallb f l = true -> forallb f (take n l) = true.
Proof.
  revert n. induction l as [|x l IH]; intros [|n] H; simpl in *; try done.
  apply andb_true_iff in H as [-> H]. simpl. by apply IH.
Qed.


(** C3 (as amended).  [subtractBalance] throws the insufficient-funds error
    exactly when the balance less the amount, rounded to two decimals by
    [parseFloat(toFixed(2))], is below zero, and then [getBalance] is
    unchanged for every user; otherwise it stores and returns that rounded
    value, which is not below zero. *)
Theorem subtractBalance_spec (s : ledger) (u : Z) (a : num) :
  let newBalance := round2 (js_sub (getBalance s u) a) in
  match subtractBalance s u a with
  | Thrown e s' =>
      e = InsufficientFunds /\ js_lt newBalance zero = true /\
      forall u', getBalance s' u' = getBalance s u'
  | Returned v s' =>
      v = newBalance /\ js_lt v zero = false /\
      s' !! u = Some v /\ js_ge (getBalance s' u) zero = true /\
      forall u', u' <> u -> getBalance s' u' = getBalance s u'
  end.
Proof.
  unfold subtractBalance. rewrite slot_ensure. simpl.
  destruct (js_lt (round2 (js_sub (getBalance s u) a)) zero) eqn:E.
  - split; [done|]. split; [done|]. intros u'. apply getBalance_ensure.
  - split; [done|]. split; [done|]. split; [by rewrite lookup_insert_eq|].
    split.
    + apply getBalance_ge_zero. intros x. rewrite lookup_insert_eq.
      by intros [= <-].
    + intros u' Hne. rewrite <- (getBalance_ensure s u u').
      unfold getBalance. by rewrite lookup_insert_ne.
Qed.

(** C3, the claim as stated fails: with a balance of 10, a debit of 10.001
    exceeds the balance and is refused by [hasEnoughBalance], yet
    [subtractBalance] does not throw: it returns [-0] and stores it. *)
Lemma subtractBalance_overdraft_accepted :
  let s := snd (addBalance ∅ 1 (of_cents 1000)) in
  let a := of_mills 10001 in
  getBalance s 1 = of_cents 1000 /\
  js_gt a (getBalance s 1) = true /\
  hasEnoughBalance s 1 a = false /\
  subtractBalance s 1 a = Returned neg_zero (<[1 := neg_zero]> s).
Proof. vm_compute. repeat split. Qed.

(** C6.  Starting from the empty ledger, after each operation of any
    sequence of reads, non-negative credits and debits, the balance that
    [getBalance] reports is at least zero, for every user. *)
Theorem balance_never_negative (ops : list op) (n : nat) (u : Z) :
  forallb credit_nonneg ops = true ->
  js_ge (getBalance (run (take n ops) ∅) u) zero = true.
Proof.
  intros Hops. apply getBalance_ge_zero. intros x Hx.
  eapply (run_ok (take n ops) ∅); [by apply forallb_take| |exact Hx].
  intros u' x'. by rewrite lookup_empty.
Qed.

(** A run of the ledger: a credit of 10, a debit of 10.001, a read and a
    debit of 5. *)
Lemma balance_never_negative_witness :
  let ops := [OpAdd 1 (of_cents 1000); OpSub 1 (of_mills 10001);
              OpGet 1; OpSub 1 (of_cents 500)] in
  forallb credit_nonneg ops = true /\
  js_ge (getBalance (run (take 4 ops) ∅) 1) zero = true.
Proof.
  split; [reflexivity|].
  apply (balance_never_negative
           [OpAdd 1 (of_cents 1000); OpSub 1 (of_mills 10001);
            OpGet 1; OpSub 1 (of_cents 500)] 4 1).
  reflexivity.
Defined.

(** ** Rounding to cents *)
Import JsNumber.

(** *** Shifting with a remainder *)



Lemma digits2_pos_bounds (p : positive) :
  2 ^ (Zpos (digits2_pos p) - 1) <= Zpos p < 2 ^ Zpos (digits2_pos p).
Proof.
  induction p as [p IH|p IH|]; simpl digits2_pos.
  - rewrite Pos2Z.inj_succ.
    replace (Z.succ (Zpos (digits2_pos p)) - 1) with (Z.succ (Zpos (digits2_pos p) - 1)) by lia.
    rewrite !Z.pow_succ_r by lia. lia.
  - rewrite Pos2Z.inj_succ.
    replace (Z.succ (Zpos (digits2_pos p)) - 1) with (Z.succ (Zpos (digits2_pos p) - 1)) by lia.
    rewrite !Z.pow_succ_r by lia. lia.
  - simpl. lia.
Qed.

(** The number of binary digits is determined by the binade. *)
Lemma digits2_pos_unique (p : positive) (n : Z) :
  2 ^ (n - 1) <= Zpos p < 2 ^ n -> Zpos (digits2_pos p) = n.
Proof.
  intros [Hlo Hhi]. pose proof (digits2_pos_bounds p) as [Hlo' Hhi'].
  assert (0 < n) as Hn.
  { destruct (Z.le_gt_cases n 0) as [H|H]; [|done].
    assert (2 ^ n <= 2 ^ 0) by (apply Z.pow_le_mono_r; lia).
    simpl in *. lia. }
  destruct (Z.lt_trichotomy (Zpos (digits2_pos p)) n) as [H|[H|H]]; [|done|].
  - assert (2 ^ Zpos (digits2_pos p) <= 2 ^ (n - 1))
      by (apply Z.pow_le_mono_r; lia). lia.
  - assert (2 ^ n <= 2 ^ (Zpos (digits2_pos p) - 1))
      by (apply Z.pow_le_mono_r; lia). lia.
Qed.

(** One step of the shift: the mantissa is halved, the remainder takes in
    the bit that falls off. *)
Lemma shr_1_rem (m R D : Z) :
  0 <= m -> 0 <= R < D ->
  shr_1 (shr_record_of_loc m (loc_of_rem R D))
  = shr_record_of_loc (m / 2) (loc_of_rem ((m mod 2) * D + R) (2 * D)).
Proof.
  intros Hm HR.
  assert (shr_1 (shr_record_of_loc m (loc_of_rem R D))
          = {| shr_m := m / 2; shr_r := m mod 2 =? 1;
               shr_s := negb (R =? 0) |}) as ->.
  { assert (forall q b l,
              m / 2 = q -> (m mod 2 =? 1) = b ->
              shr_1 (shr_record_of_loc m l)
              = {| shr_m := q; shr_r := b;
                   shr_s := match l with loc_Exact => false | _ => true end |})
      as Hstep.
    { intros q b l Hq Hb. subst q b.
      destruct m as [|[p|p|]|p]; [| | | |lia].
      - by destruct l as [|[]].
      - replace (Z.pos p~1 / 2) with (Zpos p)
          by (rewrite Pos2Z.inj_xI; Z.div_mod_to_equations; lia).
        replace (Z.pos p~1 mod 2 =? 1) with true
          by (symmetry; apply Z.eqb_eq; rewrite Pos2Z.inj_xI;
              Z.div_mod_to_equations; lia).
        by destruct l as [|[]].
      - replace (Z.pos p~0 / 2) with (Zpos p)
          by (rewrite Pos2Z.inj_xO; Z.div_mod_to_equations; lia).
        replace (Z.pos p~0 mod 2 =? 1) with false
          by (symmetry; apply Z.eqb_neq; rewrite Pos2Z.inj_xO;
              Z.div_mod_to_equations; lia).
        by destruct l as [|[]].
      - by destruct l as [|[]]. }
    rewrite (Hstep (m / 2) (m mod 2 =? 1)) by done.
    unfold loc_of_rem. by destruct (R =? 0). }
  assert (0 <= m mod 2 < 2) as Hmod by (apply Z.mod_pos_bound; lia).
  unfold loc_of_rem.
  destruct (m mod 2 =? 1) eqn:Hb.
  - apply Z.eqb_eq in Hb. rewrite Hb, Z.mul_1_l.
    assert ((D + R =? 0) = false) as -> by (apply Z.eqb_neq; lia).
    destruct (R =? 0) eqn:E.
    + apply Z.eqb_eq in E. subst R.
      assert ((2 * (D + 0) ?= 2 * D) = Eq) as ->
        by (apply Z.compare_eq_iff; lia).
      done.
    + apply Z.eqb_neq in E.
      assert ((2 * (D + R) ?= 2 * D) = Gt) as ->
        by (apply Z.compare_gt_iff; lia).
      done.
  - apply Z.eqb_neq in Hb. assert (m mod 2 = 0) as -> by lia.
    rewrite Z.mul_0_l, Z.add_0_l.
    destruct (R =? 0) eqn:E; [done|].
    apply Z.eqb_neq in E.
    assert ((2 * R ?= 2 * D) = Lt) as -> by (apply Z.compare_lt_iff; lia).
    done.
Qed.

Lemma iter_pos_nat {A : Type} (f : A -> A) (p : positive) : forall x,
  SpecFloat.iter_pos f p x = Nat.iter (Pos.to_nat p) f x.
Proof.
  induction p as [p IH|p IH|]; intros x; simpl SpecFloat.iter_pos.
  - rewrite !IH, Pos2Nat.inj_xI.
    replace (S (2 * Pos.to_nat p)) with (S (Pos.to_nat p + Pos.to_nat p)) by lia.
    by rewrite Nat.iter_succ_r, Nat.iter_add.
  - rewrite !IH, Pos2Nat.inj_xO.
    replace (2 * Pos.to_nat p)%nat with (Pos.to_nat p + Pos.to_nat p)%nat by lia.
    by rewrite Nat.iter_add.
  - done.
Qed.

Lemma shr_iter_rem (n : nat) (m R D : Z) :
  0 <= m -> 0 <= R < D ->
  Nat.iter n shr_1 (shr_record_of_loc m (loc_of_rem R D))
  = shr_record_of_loc (m / 2 ^ Z.of_nat n)
      (loc_of_rem ((m mod 2 ^ Z.of_nat n) * D + R) (2 ^ Z.of_nat n * D)).
Proof.
  intros Hm HR. induction n as [|n IH].
  - simpl. rewrite Z.div_1_r, Z.mod_1_r. f_equal. f_equal; lia.
  - rewrite Nat.iter_succ, IH.
    assert (0 < 2 ^ Z.of_nat n) as Hpow by (apply Z.pow_pos_nonneg; lia).
    assert (0 <= m mod 2 ^ Z.of_nat n < 2 ^ Z.of_nat n) as Hmod
      by (apply Z.mod_pos_bound; lia).
    rewrite shr_1_rem.
    + rewrite Nat2Z.inj_succ, Z.pow_succ_r by lia.
      rewrite Z.div_div by lia.
      rewrite (Z.mul_comm 2 (2 ^ Z.of_nat n)).
      rewrite (Z.rem_mul_r m (2 ^ Z.of_nat n) 2) by lia.
      f_equal. f_equal; lia.
    + apply Z.div_pos; lia.
    + nia.
Qed.

(** The shift of [binary_round_aux] on a mantissa with a remainder. *)
Lemma shr_rem (m R D e n : Z) :
  0 <= m -> 0 <= R < D -> 0 <= n ->
  shr (shr_record_of_loc m (loc_of_rem R D)) e n
  = (shr_record_of_loc (m / 2 ^ n)
       (loc_of_rem ((m mod 2 ^ n) * D + R) (2 ^ n * D)), e + n).
Proof.
  intros Hm HR Hn. unfold shr. destruct n as [|p|p]; [| |lia].
  - rewrite Z.pow_0_r, Z.div_1_r, Z.mod_1_r, Z.add_0_r. f_equal. f_equal.
    f_equal; lia.
  - rewrite iter_pos_nat, shr_iter_rem by done.
    by rewrite positive_nat_Z.
Qed.

Lemma shr_m_of_loc m l : shr_m (shr_record_of_loc m l) = m.
Proof. by destruct l as [|[]]. Qed.

Lemma loc_of_shr_record_of_loc m l :
  loc_of_shr_record (shr_record_of_loc m l) = l.
Proof. by destruct l as [|[]]. Qed.


Lemma rne_cases (N D : Z) :
  rne N D = N / D \/ rne N D = N / D + 1.
Proof.
  unfold rne, round_nearest_even, loc_of_rem.
  destruct (N mod D =? 0); [by left|].
  destruct (2 * (N mod D) ?= D); [|by left|by right].
  destruct (Z.even (N / D)); [by left|by right].
Qed.

Lemma Zdigits2_unique (m n : Z) :
  0 < m -> 2 ^ (n - 1) <= m < 2 ^ n -> Zdigits2 m = n.
Proof.
  intros Hm H. destruct m as [|p|p]; [lia| |lia].
  simpl. by apply digits2_pos_unique.
Qed.

Lemma Zdigits2_bounds (m : Z) :
  0 < m -> 2 ^ (Zdigits2 m - 1) <= m < 2 ^ Zdigits2 m.
Proof.
  intros Hm. destruct m as [|p|p]; [lia| |lia].
  simpl. apply digits2_pos_bounds.
Qed.

(** [binary_round_aux] on a mantissa [q] of at least 53 digits with a
    remainder [R] out of [D]: the value [(q + R/D) * 2^e] is rounded to
    53 digits, nearest and ties to even, with a carry into the next
    binade when the rounded mantissa reaches [2^53]. *)
Lemma binary_round_aux_rem (sgn : bool) (q e R D : Z) :
  0 < q -> 0 <= R < D ->
  let k := Zdigits2 q - prec in
  0 <= k -> 3 - emax - prec <= e + k ->
  binary_round_aux prec emax sgn q e (loc_of_rem R D)
  = let M1 := rne (q * D + R) (2 ^ k * D) in
    if M1 =? 2 ^ prec then finish sgn (2 ^ (prec - 1)) (e + k + 1)
    else finish sgn M1 (e + k).
Proof.
  intros Hq HR k Hk He.
  pose proof (Zdigits2_bounds q Hq) as Hdq.
  assert (Zdigits2 q = k + prec) as Hdq' by (unfold k; lia).
  assert (0 < 2 ^ k) as Hpow by (apply Z.pow_pos_nonneg; lia).
  assert (2 ^ (prec - 1) <= q / 2 ^ k < 2 ^ prec) as HM0.
  { rewrite Hdq' in Hdq.
    replace (k + prec - 1) with (prec - 1 + k) in Hdq by lia.
    replace (k + prec) with (prec + k) in Hdq by lia.
    rewrite !Z.pow_add_r in Hdq by (unfold prec; lia).
    split.
    - apply Z.div_le_lower_bound; lia.
    - apply Z.div_lt_upper_bound; lia. }
  assert (0 <= q mod 2 ^ k < 2 ^ k) as Hmod by (apply Z.mod_pos_bound; lia).
  assert (q = 2 ^ k * (q / 2 ^ k) + q mod 2 ^ k) as Hdm
    by (apply Z.div_mod; lia).
  assert ((q * D + R) / (2 ^ k * D) = q / 2 ^ k) as Hdiv.
  { symmetry. apply Z.div_unique with (q mod 2 ^ k * D + R); nia. }
  assert ((q * D + R) mod (2 ^ k * D) = q mod 2 ^ k * D + R) as Hrem.
  { symmetry. apply Z.mod_unique with (q / 2 ^ k); nia. }
  unfold binary_round_aux, shr_fexp at 1.
  assert (fexp prec emax (Zdigits2 q + e) - e = k) as ->.
  { unfold fexp, emin. rewrite Hdq'. unfold prec, emax in *. lia. }
  rewrite shr_rem by lia.
  rewrite shr_m_of_loc, loc_of_shr_record_of_loc.
  fold (rne (q * D + R) (2 ^ k * D)) in *.
  assert (round_nearest_even (q / 2 ^ k)
            (loc_of_rem (q mod 2 ^ k * D + R) (2 ^ k * D))
          = rne (q * D + R) (2 ^ k * D)) as ->
    by (unfold rne; by rewrite Hdiv, Hrem).
  set (M1 := rne (q * D + R) (2 ^ k * D)).
  assert (M1 = q / 2 ^ k \/ M1 = q / 2 ^ k + 1) as HM1
    by (unfold M1; rewrite <- Hdiv; apply rne_cases).
  simpl. unfold shr_fexp.
  change loc_Exact with (loc_of_rem 0 1).
  destruct (M1 =? 2 ^ prec) eqn:Hcarry.
  - apply Z.eqb_eq in Hcarry.
    assert (Zdigits2 M1 = prec + 1) as ->
      by (rewrite Hcarry; reflexivity).
    assert (fexp prec emax (prec + 1 + (e + k)) - (e + k) = 1) as ->
      by (unfold fexp, emin; unfold prec, emax in *; lia).
    rewrite shr_rem by (rewrite ?Hcarry; unfold prec; simpl; lia).
    rewrite shr_m_of_loc, Hcarry. simpl (2 ^ prec / 2 ^ 1).
    unfold finish. simpl (2 ^ (prec - 1)).
    by destruct (e + k + 1 <=? emax - prec).
  - apply Z.eqb_neq in Hcarry.
    assert (Zdigits2 M1 = prec) as ->
      by (apply Zdigits2_unique; unfold prec in *; lia).
    assert (fexp prec emax (prec + (e + k)) - (e + k) = 0) as ->
      by (unfold fexp, emin; unfold prec, emax in *; lia).
    rewrite shr_rem by (unfold prec in *; lia).
    rewrite shr_m_of_loc, Z.pow_0_r, Z.div_1_r, Z.add_0_r.
    unfold finish.
    destruct M1 as [|p|p] eqn:HM; [unfold prec in *; lia| |unfold prec in *; lia].
    done.
Qed.

(** *** The number read from a decimal with two fraction digits *)


Lemma cents_scaled_large (c : positive) :
  2 ^ 59 <= Zpos c * 2 ^ cents_shift c.
Proof.
  unfold cents_shift. pose proof (digits2_pos_bounds c) as [Hlo _].
  destruct (Z.le_gt_cases (Zpos (digits2_pos c)) 60) as [Hd|Hd].
  - rewrite Z.max_l by lia.
    replace 59 with (Zpos (digits2_pos c) - 1 + (60 - Zpos (digits2_pos c))) by lia.
    rewrite Z.pow_add_r by lia.
    apply Z.mul_le_mono_nonneg_r; [apply Z.pow_nonneg; lia|done].
  - rewrite Z.max_r by lia. rewrite Z.pow_0_r, Z.mul_1_r.
    assert (2 ^ 59 <= 2 ^ (Zpos (digits2_pos c) - 1))
      by (apply Z.pow_le_mono_r; lia). lia.
Qed.

Lemma parse_cents_spec (sgn : bool) (c : positive) :
  let s := cents_shift c in
  let N := Zpos c * 2 ^ s in
  let k := Zdigits2 (N / 100) - prec in
  0 <= k /\
  SFdiv prec emax (S754_finite sgn c 0) (S754_finite false 100 0)
  = let M1 := rne N (2 ^ k * 100) in
    if M1 =? 2 ^ prec then finish sgn (2 ^ (prec - 1)) (k - s + 1)
    else finish sgn M1 (k - s).
Proof.
  intros s N k.
  pose proof (cents_scaled_large c) as HN. fold s in HN. fold N in HN.
  assert (0 <= s) as Hs by (unfold s, cents_shift; lia).
  assert (s <= 59) as Hs' by (unfold s, cents_shift; lia).
  assert (2 ^ 52 <= N / 100) as Hq
    by (apply Z.div_le_lower_bound; [lia|]; simpl in *; lia).
  assert (0 < N / 100) as Hq0 by (simpl in Hq; lia).
  pose proof (Zdigits2_bounds (N / 100) Hq0) as [_ Hdq].
  assert (0 <= k) as Hk.
  { unfold k. destruct (Z.le_gt_cases prec (Zdigits2 (N / 100))); [lia|].
    assert (2 ^ Zdigits2 (N / 100) <= 2 ^ 52)
      by (apply Z.pow_le_mono_r; unfold prec in *; lia). lia. }
  split; [done|].
  unfold SFdiv, SFdiv_core_binary.
  change (Zdigits2 (Z.pos c)) with (Zpos (digits2_pos c)).
  change (Zdigits2 100) with 7.
  assert (Z.min (fexp prec emax (Zpos (digits2_pos c) + 0 - (7 + 0))) (0 - 0)
          = - s) as ->.
  { unfold fexp, emin, s, cents_shift, prec, emax.
    pose proof (Pos2Z.is_pos (digits2_pos c)). lia. }
  assert (match 0 - 0 - - s with
          | 0 => Z.pos c
          | Z.pos _ => Z.shiftl (Z.pos c) (0 - 0 - - s)
          | Z.neg _ => 0
          end = N) as ->.
  { replace (0 - 0 - - s) with s by lia. unfold N.
    destruct s as [|p|p] eqn:Es; [by rewrite Z.mul_1_r| |lia].
    by rewrite Z.shiftl_mul_pow2. }
  assert (Z.div_eucl N 100 = (N / 100, N mod 100)) as ->
    by (unfold Z.div, Z.modulo; by destruct (Z.div_eucl N 100)).
  change (new_location 100 (N mod 100)) with (loc_of_rem (N mod 100) 100).
  rewrite xorb_false_r.
  assert (0 <= N mod 100 < 100) as Hr by (apply Z.mod_pos_bound; lia).
  rewrite binary_round_aux_rem; try done.
  - fold k.
    replace (N / 100 * 100 + N mod 100) with N
      by (rewrite (Z.div_mod N 100) at 1; lia).
    replace (- s + k) with (k - s) by lia. done.
  - fold k. unfold emax, prec. lia.
Qed.

(** *** Rounding to the nearest integer *)

Lemma rne_accuracy (N D : Z) :
  0 < D -> 2 * Z.abs (rne N D * D - N) <= D.
Proof.
  intros HD.
  assert (N = D * (N / D) + N mod D) as Hdm by (apply Z.div_mod; lia).
  assert (0 <= N mod D < D) as Hmod by (apply Z.mod_pos_bound; lia).
  unfold rne, round_nearest_even, loc_of_rem.
  remember (N / D) as q eqn:Eq. remember (N mod D) as r eqn:Er.
  clear Eq Er.
  assert (q * D - N = - r) as Hdown by lia.
  assert ((q + 1) * D - N = D - r) as Hup by lia.
  destruct (r =? 0) eqn:E0.
  - apply Z.eqb_eq in E0. rewrite Hdown. lia.
  - destruct (2 * r ?= D) eqn:Ec.
    + apply Z.compare_eq_iff in Ec.
      destruct (Z.even q); rewrite ?Hdown, ?Hup; lia.
    + change (2 * r < D) in Ec. rewrite Hdown. lia.
    + change (2 * r > D) in Ec. rewrite Hup. lia.
Qed.

Lemma rne_near (N D M : Z) :
  0 < D -> 2 * Z.abs (N - M * D) < D -> rne N D = M.
Proof.
  intros HD Hnear.
  destruct (Z.le_gt_cases (M * D) N) as [Hle|Hgt].
  - assert (N / D = M) as Hq
      by (symmetry; apply Z.div_unique with (N - M * D); lia).
    assert (N mod D = N - M * D) as Hr
      by (symmetry; apply Z.mod_unique with M; lia).
    unfold rne, round_nearest_even, loc_of_rem. rewrite Hq, Hr.
    destruct (N - M * D =? 0); [done|].
    assert ((2 * (N - M * D) ?= D) = Lt) as ->
      by (apply Z.compare_lt_iff; lia).
    done.
  - assert (N / D = M - 1) as Hq
      by (symmetry; apply Z.div_unique with (N - (M - 1) * D); lia).
    assert (N mod D = N - (M - 1) * D) as Hr
      by (symmetry; apply Z.mod_unique with (M - 1); lia).
    unfold rne, round_nearest_even, loc_of_rem. rewrite Hq, Hr.
    assert ((N - (M - 1) * D =? 0) = false) as -> by (apply Z.eqb_neq; lia).
    assert ((2 * (N - (M - 1) * D) ?= D) = Gt) as ->
      by (apply Z.compare_gt_iff; lia).
    lia.
Qed.

(** The quotient that the division rounds lies in one binade. *)
Lemma parse_cents_binade (c : positive) :
  let s := cents_shift c in
  let N := Zpos c * 2 ^ s in
  let k := Zdigits2 (N / 100) - prec in
  0 <= s /\ 0 <= k /\
  100 * 2 ^ (prec - 1) * 2 ^ k <= N < 100 * 2 ^ prec * 2 ^ k.
Proof.
  intros s N k.
  destruct (parse_cents_spec false c) as [Hk _]. fold s N k in Hk.
  pose proof (cents_scaled_large c) as HN. fold s N in HN.
  assert (0 <= s) as Hs by (unfold s, cents_shift; lia).
  assert (0 < N / 100) as Hq0
    by (apply Z.div_str_pos; simpl in HN; lia).
  pose proof (Zdigits2_bounds (N / 100) Hq0) as Hdq.
  replace (Zdigits2 (N / 100)) with (k + prec) in Hdq by (unfold k; lia).
  replace (k + prec - 1) with (prec - 1 + k) in Hdq by lia.
  replace (k + prec) with (prec + k) in Hdq by lia.
  rewrite !Z.pow_add_r in Hdq by (unfold prec; lia).
  assert (0 < 2 ^ k) by (apply Z.pow_pos_nonneg; lia).
  split; [done|]. split; [done|].
  assert (N = 100 * (N / 100) + N mod 100) as Hdm by (apply Z.div_mod; lia).
  assert (0 <= N mod 100 < 100) as Hmod by (apply Z.mod_pos_bound; lia).
  unfold prec in *. nia.
Qed.

Lemma pow2_pos (n : Z) : 0 <= n -> 0 < 2 ^ n.
Proof. intros. apply Z.pow_pos_nonneg; lia. Qed.

(** A finite number read from a decimal has 53 digits and lies within
    half a unit of its last digit from the decimal. *)
Lemma parse_cents_finite (sgn : bool) (c : positive) (s' : bool)
  (M : positive) (E : Z) :
  SFdiv prec emax (S754_finite sgn c 0) (S754_finite false 100 0)
    = S754_finite s' M E ->
  s' = sgn /\ 2 ^ 52 <= Zpos M < 2 ^ 53 /\ E <= 971 /\
  (E < 0 -> Z.abs (Zpos c * 2 ^ (- E) - 100 * Zpos M) <= 50).
Proof.
  destruct (parse_cents_spec sgn c) as [_ ->].
  destruct (parse_cents_binade c) as (Hs & Hk & Hlo & Hhi).
  set (s := cents_shift c) in *. set (N := Zpos c * 2 ^ s) in *.
  set (k := Zdigits2 (N / 100) - prec) in *.
  pose proof (pow2_pos k Hk) as HX.
  pose proof (rne_accuracy N (2 ^ k * 100) ltac:(lia)) as Hacc.
  pose proof (rne_cases N (2 ^ k * 100)) as Hcases.
  assert (2 ^ 52 <= N / (2 ^ k * 100) < 2 ^ 53) as HM0.
  { change (2 ^ (prec - 1)) with (2 ^ 52) in Hlo.
    change (2 ^ prec) with (2 ^ 53) in Hhi.
    split.
    - apply Z.div_le_lower_bound; lia.
    - apply Z.div_lt_upper_bound; lia. }
  set (M1 := rne N (2 ^ k * 100)) in *. cbv zeta.
  destruct (M1 =? 2 ^ prec) eqn:Hcarry.
  - apply Z.eqb_eq in Hcarry. unfold finish.
    destruct (k - s + 1 <=? emax - prec) eqn:Hfin; [|done].
    apply Z.leb_le in Hfin. intros [= <- <- <-].
    split; [done|]. split; [done|]. split; [unfold emax, prec in Hfin; lia|].
    intros HE.
    assert (s = - (k - s + 1) + 1 + k) as Hsplit by lia.
    assert (2 ^ s = 2 ^ (- (k - s + 1)) * 2 * 2 ^ k) as Hpow.
    { rewrite Hsplit at 1. rewrite !Z.pow_add_r by lia. done. }
    pose proof (pow2_pos (- (k - s + 1)) ltac:(lia)) as HT.
    change (Z.pos (Z.to_pos (2 ^ (prec - 1)))) with (2 ^ 52).
    revert Hacc. unfold N. rewrite Hcarry, Hpow.
    change (2 ^ prec) with (2 ^ 53).
    generalize dependent (2 ^ (- (k - s + 1))). intros T _ HT.
    generalize dependent (2 ^ k). intros X. intros. nia.
  - apply Z.eqb_neq in Hcarry. unfold finish.
    destruct (k - s <=? emax - prec) eqn:Hfin; [|done].
    apply Z.leb_le in Hfin. intros [= <- <- <-].
    change (2 ^ prec) with (2 ^ 53) in Hcarry.
    assert (0 < M1) by lia. rewrite Z2Pos.id by done.
    split; [done|]. split; [lia|]. split; [unfold emax, prec in Hfin; lia|].
    intros HE.
    assert (s = - (k - s) + k) as Hsplit by lia.
    assert (2 ^ s = 2 ^ (- (k - s)) * 2 ^ k) as Hpow.
    { rewrite Hsplit at 1. rewrite !Z.pow_add_r by lia. done. }
    pose proof (pow2_pos (- (k - s)) ltac:(lia)) as HT.
    revert Hacc. unfold N. rewrite Hpow.
    generalize dependent (2 ^ (- (k - s))). intros T _ HT.
    generalize dependent (2 ^ k). intros X. intros. nia.
Qed.

(** Conversely, a decimal that lies in the binade of a 53-digit number
    [M * 2^E], strictly within half a unit of its last digit, reads as that
    number.  The exponent is given as [td - tn] with both parts
    non-negative. *)
Lemma parse_cents_unique (sgn : bool) (c : positive) (M E tn td : Z) :
  0 <= tn -> 0 <= td -> E = td - tn -> E <= 971 ->
  2 ^ 52 <= M < 2 ^ 53 ->
  100 * 2 ^ 52 * 2 ^ td <= Zpos c * 2 ^ tn ->
  2 * Z.abs (Zpos c * 2 ^ tn - 100 * M * 2 ^ td) < 100 * 2 ^ td ->
  SFdiv prec emax (S754_finite sgn c 0) (S754_finite false 100 0)
  = S754_finite sgn (Z.to_pos M) E.
Proof.
  intros Htn Htd HE Hfin HM Hlow Hnear.
  destruct (parse_cents_spec sgn c) as [_ ->].
  destruct (parse_cents_binade c) as (Hs & Hk & Hlo & Hhi).
  set (s := cents_shift c) in *. set (N := Zpos c * 2 ^ s) in *.
  set (k := Zdigits2 (N / 100) - prec) in *.
  change (2 ^ (prec - 1)) with (2 ^ 52) in Hlo.
  change (2 ^ prec) with (2 ^ 53) in Hhi.
  pose proof (pow2_pos k Hk) as HX. pose proof (pow2_pos s Hs) as HY.
  pose proof (pow2_pos tn Htn) as HU. pose proof (pow2_pos td Htd) as HV.
  (* the two binades agree *)
  assert (2 ^ (k + tn) < 2 ^ (td + s + 1)) as H1.
  { rewrite !Z.pow_add_r by lia. change (2 ^ 1) with 2.
    unfold N in *.
    generalize dependent (2 ^ k). intros X.
    generalize dependent (2 ^ s). intros Y.
    generalize dependent (2 ^ tn). intros U.
    generalize dependent (2 ^ td). intros V. intros.
    assert (100 * 2 ^ 52 * (X * U) <= Z.pos c * Y * U) by nia.
    assert (Z.pos c * U * Y < 100 * 2 ^ 53 * (V * Y)) by nia.
    change (2 ^ 53) with (2 * 2 ^ 52) in *. nia. }
  assert (2 ^ (td + s) < 2 ^ (k + tn + 1)) as H2.
  { rewrite !Z.pow_add_r by lia. change (2 ^ 1) with 2.
    unfold N in *.
    generalize dependent (2 ^ k). intros X.
    generalize dependent (2 ^ s). intros Y.
    generalize dependent (2 ^ tn). intros U.
    generalize dependent (2 ^ td). intros V. intros.
    assert (100 * 2 ^ 52 * (V * Y) <= Z.pos c * U * Y) by nia.
    assert (Z.pos c * Y * U < 100 * 2 ^ 53 * (X * U)) by nia.
    change (2 ^ 53) with (2 * 2 ^ 52) in *. nia. }
  apply Z.pow_lt_mono_r_iff in H1; [|lia|lia].
  apply Z.pow_lt_mono_r_iff in H2; [|lia|lia].
  assert (k + tn = td + s) as Hexp by lia.
  assert (rne N (2 ^ k * 100) = M) as HM1.
  { apply rne_near; [lia|].
    assert (2 ^ k * 2 ^ tn = 2 ^ td * 2 ^ s) as Hpow
      by (rewrite <- !Z.pow_add_r by lia; by rewrite Hexp).
    unfold N.
    generalize dependent (2 ^ k). intros X.
    generalize dependent (2 ^ s). intros Y.
    generalize dependent (2 ^ tn). intros U.
    generalize dependent (2 ^ td). intros V. intros.
    assert (2 * Z.abs (Z.pos c * U - 100 * M * V) * Y < 100 * V * Y) as Hn
      by nia.
    assert (Z.abs (Z.pos c * U - 100 * M * V) * Y
            = Z.abs (Z.pos c * Y - M * (X * 100)) * U) as Heq.
    { rewrite <- (Z.abs_eq Y) at 1 by lia. rewrite <- (Z.abs_eq U) at 2 by lia.
      rewrite <- !Z.abs_mul. f_equal. nia. }
    nia. }
  cbv zeta. rewrite HM1.
  assert ((M =? 2 ^ prec) = false) as ->
    by (apply Z.eqb_neq; change (2 ^ prec) with (2 ^ 53); lia).
  unfold finish.
  replace (k - s) with E by lia.
  assert ((E <=? emax - prec) = true) as ->
    by (apply Z.leb_le; unfold emax, prec; lia).
  done.
Qed.

(** *** Rounding to cents is idempotent *)

(** The half-up rounding of [toFixed] in terms of a quotient. *)
Lemma cents_of_neg (m : positive) (E : Z) :
  E < 0 ->
  cents_of m E = (200 * Zpos m + 2 ^ (- E)) / (2 * 2 ^ (- E)).
Proof.
  intros HE. destruct E as [|p|p]; [lia|lia|].
  unfold cents_of. f_equal.
  replace (1 - Z.neg p) with (1 + - Z.neg p) by lia.
  by rewrite Z.pow_add_r by lia.
Qed.

Lemma cents_of_nonneg (m : positive) (E : Z) :
  0 <= E -> cents_of m E = 100 * Zpos m * 2 ^ E.
Proof.
  intros HE. destruct E as [|p|p]; [|done|lia].
  unfold cents_of. by rewrite Z.mul_1_r.
Qed.

Lemma parse_cents_shape (sgn : bool) (c : positive) :
  (exists M E,
     SFdiv prec emax (S754_finite sgn c 0) (S754_finite false 100 0)
     = S754_finite sgn M E) \/
  SFdiv prec emax (S754_finite sgn c 0) (S754_finite false 100 0)
  = S754_infinity sgn.
Proof.
  destruct (parse_cents_spec sgn c) as [_ ->]. cbv zeta.
  destruct (_ =? 2 ^ prec); unfold finish;
    destruct (_ <=? emax - prec); eauto.
Qed.

(** A number read from a decimal with two fraction digits prints, with
    two fraction digits, as a decimal that reads as the same number. *)
Lemma round2_parsed (sgn : bool) (c : positive) :
  let d := SFdiv prec emax (S754_finite sgn c 0) (S754_finite false 100 0) in
  round2 d = d.
Proof.
  intros d.
  destruct (parse_cents_shape sgn c) as [(M & E & Hd)|Hd];
    fold d in Hd; rewrite Hd; [|done].
  pose proof Hd as Hfin. unfold d in Hfin.
  apply parse_cents_finite in Hfin as (_ & HM & HE & Hacc).
  unfold round2, toFixed2.
  destruct (ge_1e21 M E); [done|].
  destruct (Z.le_gt_cases 0 E) as [Hpos|Hneg].
  - (* an integer: its hundredths are exact *)
    rewrite cents_of_nonneg by done.
    pose proof (pow2_pos E Hpos) as HT.
    destruct (100 * Z.pos M * 2 ^ E) as [|c'|c'] eqn:Hc'; [lia| |lia].
    unfold parseFloat.
    change (S754_finite sgn M E) with (S754_finite sgn (Z.to_pos (Zpos M)) E).
    apply (parse_cents_unique sgn c' (Zpos M) E 0 E);
      rewrite ?Z.pow_0_r, ?Z.mul_1_r, <- ?Hc'; try lia; try done.
    apply Z.mul_le_mono_nonneg_r; lia.
  - rewrite cents_of_neg by done.
    destruct (Z.le_gt_cases E (-7)) as [Hsmall|Hmid].
    + (* the unit of the last digit is below a cent: the decimal is the
         one the number was read from *)
      specialize (Hacc Hneg).
      assert (2 ^ 7 <= 2 ^ (- E)) as HT by (apply Z.pow_le_mono_r; lia).
      change (2 ^ 7) with 128 in HT.
      assert ((200 * Z.pos M + 2 ^ (- E)) / (2 * 2 ^ (- E)) = Zpos c) as ->.
      { symmetry.
        apply Z.div_unique
          with (200 * Z.pos M + 2 ^ (- E) - 2 * 2 ^ (- E) * Zpos c); lia. }
      unfold parseFloat. exact Hd.
    + (* the decimal lies within a third of the unit of the last digit *)
      assert (exists j, 1 <= j <= 6 /\ - E = j) as (j & Hj & HjE)
        by (exists (- E); lia).
      rewrite HjE.
      assert (2 ^ j = 2 \/ 2 ^ j = 4 \/ 2 ^ j = 8 \/ 2 ^ j = 16 \/
              2 ^ j = 32 \/ 2 ^ j = 64) as Hpow.
      { assert (j = 1 \/ j = 2 \/ j = 3 \/ j = 4 \/ j = 5 \/ j = 6)
          as [->|[->|[->|[->|[->| ->]]]]] by lia; simpl; tauto. }
      set (t := 2 ^ j) in *.
      assert (t * ((200 * Z.pos M + t) / (2 * t)) * 2
              <= 200 * Zpos M + t
              < t * ((200 * Z.pos M + t) / (2 * t)) * 2 + 2 * t) as Hdiv.
      { pose proof (Z.div_mod (200 * Z.pos M + t) (2 * t) ltac:(lia)).
        pose proof (Z.mod_pos_bound (200 * Z.pos M + t) (2 * t) ltac:(lia)).
        lia. }
      assert (100 * 2 ^ 52 <= t * ((200 * Z.pos M + t) / (2 * t))) as Hlow.
      { destruct (Z.eq_dec (Zpos M) (2 ^ 52)) as [->|Hne]; [|lia].
        destruct Hpow as [->|[->|[->|[->|[->| ->]]]]]; vm_compute; done. }
      destruct ((200 * Z.pos M + t) / (2 * t)) as [|c'|c'] eqn:Hc';
        [lia| |lia].
      unfold parseFloat.
      change (S754_finite sgn M E) with (S754_finite sgn (Z.to_pos (Zpos M)) E).
      apply (parse_cents_unique sgn c' (Zpos M) E j 0);
        fold t; rewrite ?Z.pow_0_r; try lia; try done.
Qed.

Lemma round2_idempotent (x : num) :
  falsy (round2 x) = false -> round2 (round2 x) = round2 x.
Proof.
  destruct x as [s|s| |s m e]; try done.
  unfold round2 at 1 3 4, toFixed2.
  destruct (ge_1e21 m e) eqn:Hbig.
  - simpl. intros _. unfold round2, toFixed2. by rewrite Hbig.
  - simpl. destruct (cents_of m e) as [|c|c]; [done| |done].
    intros _. apply round2_parsed.
Qed.

Import Balance.

Lemma ledger_rounded_insert (s : ledger) u y :
  ledger_rounded s -> ledger_rounded (<[u := round2 y]> s).
Proof.
  intros Hs u' x. destruct (decide (u = u')) as [<-|Hne].
  - rewrite lookup_insert_eq. intros [= <-]. apply round2_idempotent.
  - rewrite lookup_insert_ne by done. apply Hs.
Qed.

Lemma ledger_rounded_ensure (s : ledger) u :
  ledger_rounded s -> ledger_rounded (ensure s u).
Proof.
  intros Hs. unfold ensure.
  assert (ledger_rounded (<[u := zero]> s)) as Hz
    by (change zero with (round2 zero); by apply ledger_rounded_insert).
  destruct (s !! u) as [x|]; [destruct (falsy x)|]; done.
Qed.

Lemma exec_rounded (s : ledger) o :
  ledger_rounded s -> ledger_rounded (exec s o).
Proof.
  intros Hs. destruct o as [u|u a|u a]; simpl; [done| |].
  - by apply ledger_rounded_insert, ledger_rounded_ensure.
  - unfold subtractBalance. destruct (js_lt _ zero); simpl.
    + by apply ledger_rounded_ensure.
    + by apply ledger_rounded_insert, ledger_rounded_ensure.
Qed.

Lemma run_rounded ops : forall s,
  ledger_rounded s -> ledger_rounded (run ops s).
Proof.
  induction ops as [|o ops IH]; intros s Hs; simpl; [done|].
  by apply IH, exec_rounded.
Qed.

Lemma getBalance_rounded (s : ledger) u :
  ledger_rounded s -> round2 (getBalance s u) = getBalance s u.
Proof.
  intros Hs. unfold getBalance.
  destruct (s !! u) as [x|] eqn:E; [|done].
  destruct (falsy x) eqn:F; [done|]. by eapply Hs.
Qed.

(** C10.  After any sequence of operations on the ledger, for every user
    and amount: the balance that [getBalance] reports is its own rounding
    to two decimals; [addBalance] stores and returns the old balance plus
    the amount, rounded to two decimals; [subtractBalance], when it does
    not throw, stores and returns the old balance less the amount, rounded
    to two decimals. *)
Theorem ledger_rounded_to_cents (ops : list op) (n : nat) (u : Z) (a : num) :
  let s := run (take n ops) ∅ in
  round2 (getBalance s u) = getBalance s u /\
  (let '(v, s') := addBalance s u a in
   v = round2 (js_add (getBalance s u) a) /\ s' !! u = Some v /\
   round2 (getBalance s' u) = getBalance s' u) /\
  match subtractBalance s u a with
  | Returned v s' =>
      v = round2 (js_sub (getBalance s u) a) /\ s' !! u = Some v /\
      round2 (getBalance s' u) = getBalance s' u
  | Thrown _ s' => forall u', getBalance s' u' = getBalance s u'
  end.
Proof.
  intros s.
  assert (ledger_rounded s) as Hs.
  { apply run_rounded. intros u' x. by rewrite lookup_empty. }
  split; [by apply getBalance_rounded|]. split.
  - unfold addBalance. rewrite slot_ensure.
    split; [done|]. split; [by rewrite lookup_insert_eq|].
    by apply getBalance_rounded, ledger_rounded_insert, ledger_rounded_ensure.
  - unfold subtractBalance. rewrite slot_ensure.
    destruct (js_lt _ zero).
    + intros u'. apply getBalance_ensure.
    + split; [done|]. split; [by rewrite lookup_insert_eq|].
      by apply getBalance_rounded, ledger_rounded_insert, ledger_rounded_ensure.
Qed.

(** The edge of the rounding: a debit of 10.001 from a balance of 10
    leaves the difference -0.00099..., which prints as "-0.00" and is
    stored as -0; [getBalance] then reports 0. *)
Example subtractBalance_negative_zero :
  let s := snd (addBalance ∅ 1 (of_cents 1000)) in
  let a := of_mills 10001 in
  toFixed2 (js_sub (getBalance s 1) a) = FxDecimal true 0 /\
  ledger_after (subtractBalance s 1 a) !! 1 = Some neg_zero /\
  getBalance (ledger_after (subtractBalance s 1 a)) 1 = zero.
Proof. vm_compute. repeat split. Qed.

(** ** The markup schedule and the identifier issuer *)
Import ProxySellerApi.

(** The markup never grows with the rental period. *)
Lemma calculateMarkupPercent_antitone p1 p2 :
  p1 <= p2 -> calculateMarkupPercent p2 <= calculateMarkupPercent p1.
Proof.
  intros H. unfold calculateMarkupPercent, markupReduction, baseMarkup.
  repeat case_match; lia.
Qed.

(** Up to three months, a longer period has a strictly lower markup. *)
Lemma calculateMarkupPercent_strict_to_90 p1 p2 :
  p1 ∈ [7; 14; 30; 60; 90] -> p2 ∈ [7; 14; 30; 60; 90] -> p1 < p2 ->
  calculateMarkupPercent p2 < calculateMarkupPercent p1.
Proof.
  intros H1 H2 Hlt.
  repeat (apply elem_of_cons in H1 as [->|H1]);
    [..|by apply elem_of_nil in H1];
    repeat (apply elem_of_cons in H2 as [->|H2]);
    try (by apply elem_of_nil in H2); try done.
Qed.

(** C7, at the failing periods: three months and six months carry the same
    markup of 40 percent, where the comments of the function document 30
    percent for six months; the schedule is not strictly decreasing. *)
Theorem calculateMarkupPercent_90_180 :
  calculateMarkupPercent 90 = 40 /\ calculateMarkupPercent 180 = 40 /\
  documented_markup 180 = 30 /\
  ~ (forall p1 p2, p1 ∈ rental_periods -> p2 ∈ rental_periods -> p1 < p2 ->
       calculateMarkupPercent p2 < calculateMarkupPercent p1).
Proof.
  repeat split. intros H.
  specialize (H 90 180). 
  assert (calculateMarkupPercent 180 < calculateMarkupPercent 90) as Hlt.
  { apply H; [| |done]; unfold rental_periods; set_solver. }
  vm_compute in Hlt. done.
Qed.

Import Db.

(** On the sequence, [generateCmId] hands out the next value and moves the
    sequence on. *)
Lemma generateCmId_pool_seq e last :
  query_ok e = true ->
  generateCmId_pool e last = (cm_id_of_seq (last + 1), last + 1).
Proof. intros H. unfold generateCmId_pool, nextval. by rewrite H. Qed.

(** On the fallback, the identifier depends on the clock alone: two calls
    that read the same millisecond return the same identifier. *)
Lemma generateCmId_pool_fallback e1 e2 last1 last2 :
  query_ok e1 = false -> query_ok e2 = false -> now e1 = now e2 ->
  fst (generateCmId_pool e1 last1) = fst (generateCmId_pool e2 last2).
Proof.
  intros H1 H2 Hnow. unfold generateCmId_pool.
  by rewrite H1, H2, Hnow.
Qed.

(** C5, at the failing input: with the sequence out of reach, two calls of
    [generateCmId] within the same millisecond both return CM123456; so do
    two calls a thousand seconds apart. *)
Theorem generateCmId_fallback_duplicate :
  let e := {| query_ok := false; now := 1700000123456 |} in
  let e' := {| query_ok := false; now := 1700001123456 |} in
  issue [e; e] cm_id_seq_start = ["CM123456"; "CM123456"]%string /\
  issue [e; e'] cm_id_seq_start = ["CM123456"; "CM123456"]%string /\
  generateCmId true e cm_id_seq_start = (inr "CM123456"%string, cm_id_seq_start).
Proof. vm_compute. repeat split. Qed.

(** ** The claim store *)
Import JsNumber Bot.

(** *** The table under the constraint *)

Lemma unique_violation_recognised :
  includes "duplicate key" unique_violation && includes "proxy_id" unique_violation
  = true.
Proof. reflexivity. Qed.

Lemma proxy_ids_app (t1 t2 : table) :
  proxy_ids (t1 ++ t2) = proxy_ids t1 ++ proxy_ids t2.
Proof. apply omap_app. Qed.

Lemma unique_proxy_id_snoc (tbl : table) (r : proxy_row) :
  unique_proxy_id tbl ->
  match proxy_id r with Some k => k ∉ proxy_ids tbl | None => True end ->
  unique_proxy_id (tbl ++ [r]).
Proof.
  unfold unique_proxy_id. intros Hu Hk. rewrite proxy_ids_app.
  unfold proxy_ids at 2. simpl.
  destruct (proxy_id r) as [k|]; simpl.
  - apply NoDup_app. split; [done|]. split; [|apply NoDup_singleton].
    intros x Hx Hin. apply list_elem_of_singleton in Hin as ->. done.
  - by rewrite app_nil_r.
Qed.

(** The statement either adds the row, whose key was free, or leaves the
    table as it was. *)
Lemma insert_user_proxy_cases fault r tbl :
  match insert_user_proxy fault r tbl with
  | inr tbl' =>
      tbl' = tbl ++ [r] /\ fault = None /\
      match proxy_id r with Some k => k ∉ proxy_ids tbl | None => True end
  | inl msg =>
      fault = Some msg \/
      (fault = None /\ msg = unique_violation /\
       exists k, proxy_id r = Some k /\ k ∈ proxy_ids tbl)
  end.
Proof.
  unfold insert_user_proxy. destruct fault as [msg|]; [by left|].
  destruct (proxy_id r) as [k|]; [|done].
  case_bool_decide; [|done]. right. eauto.
Qed.

Lemma claim_insert_cases tbl fault row :
  match claim_insert tbl fault row with
  | (tbl', Saved r) =>
      r = row /\ tbl' = tbl ++ [row] /\
      match proxy_id row with Some k => k ∉ proxy_ids tbl | None => True end
  | (tbl', _) => tbl' = tbl
  end.
Proof.
  unfold claim_insert.
  destruct (negb (truthy_str (login row)) || negb (truthy_str (ip row))); [done|].
  pose proof (insert_user_proxy_cases fault row tbl) as H.
  destruct (insert_user_proxy fault row tbl) as [msg|tbl'].
  - by destruct (includes _ msg && includes _ msg).
  - destruct H as (-> & _ & Hk). done.
Qed.

Lemma claim_insert_unique tbl fault row :
  unique_proxy_id tbl -> unique_proxy_id (claim_insert tbl fault row).1.
Proof.
  intros Hu. pose proof (claim_insert_cases tbl fault row) as H.
  destruct (claim_insert tbl fault row) as [tbl' [why|r|msg]]; simpl;
    [by subst| |by subst].
  destruct H as (-> & -> & Hk). by apply unique_proxy_id_snoc.
Qed.

Lemma proxy_ids_filter_sublist (f : proxy_row -> bool) (tbl : table) :
  proxy_ids (List.filter f tbl) `sublist_of` proxy_ids tbl.
Proof.
  induction tbl as [|r tbl IH]; simpl; [done|].
  unfold proxy_ids in *. simpl.
  destruct (f r); simpl; destruct (proxy_id r); simpl;
    try done; by constructor.
Qed.

Lemma flow_abort_unique tbl f :
  unique_proxy_id tbl -> unique_proxy_id (flow_abort tbl f).1.
Proof.
  unfold unique_proxy_id, flow_abort. simpl. intros Hu.
  eapply sublist_NoDup; [done | apply proxy_ids_filter_sublist].
Qed.

Lemma race_step_unique st m :
  unique_proxy_id (r_table st) -> unique_proxy_id (r_table (race_step st m)).
Proof.
  intros Hu. destruct m as [i ce|i fault|i]; unfold race_step;
    destruct (r_flows st !! i) as [f|]; try done.
  - destruct (flow_check ce (r_table st) (r_seq st) f). simpl. done.
  - pose proof (claim_insert_unique (r_table st) fault) as H.
    unfold flow_insert. destruct (f_pending f) as [row|]; [|done].
    specialize (H row Hu).
    destruct (claim_insert (r_table st) fault row). simpl in *. done.
  - pose proof (flow_abort_unique (r_table st) f Hu) as H.
    destruct (flow_abort (r_table st) f). simpl in *. done.
Qed.

Lemma race_run_unique ms : forall st,
  unique_proxy_id (r_table st) -> unique_proxy_id (r_table (race_run ms st)).
Proof.
  induction ms as [|m ms IH]; intros st Hu; simpl; [done|].
  apply IH. by apply race_step_unique.
Qed.

Lemma select_by_proxy_id_absent tbl k :
  k ∉ proxy_ids tbl -> select_by_proxy_id tbl k = [].
Proof.
  intros Hk. unfold select_by_proxy_id.
  induction tbl as [|r tbl IH]; [done|].
  rewrite filter_cons. case_decide as Hr.
  - exfalso. apply Hk. unfold proxy_ids. simpl. rewrite Hr. simpl. left.
  - apply IH. intros Hin. apply Hk. unfold proxy_ids in *. simpl.
    destruct (proxy_id r); simpl; [by right|done].
Qed.

(** Once a row holds the key, every further INSERT on the key loses: the
    table stays as it is and the handler moves on. *)
Lemma insert_all_taken k rows : forall tbl,
  k ∈ proxy_ids tbl ->
  Forall (fun r => proxy_id r = Some k /\ truthy_str (login r) = true
                   /\ truthy_str (ip r) = true) rows ->
  insert_all rows tbl = (tbl, map (fun _ => Skipped LostRace) rows).
Proof.
  induction rows as [|row rows IH]; intros tbl Hk Hrows; simpl; [done|].
  apply Forall_cons in Hrows as [(Hid & Hl & Hi) Hrows].
  unfold claim_insert at 1. rewrite Hl, Hi. simpl.
  unfold insert_user_proxy. rewrite Hid.
  rewrite bool_decide_eq_true_2 by done.
  rewrite unique_violation_recognised.
  by rewrite (IH tbl Hk Hrows).
Qed.

Lemma select_by_proxy_id_owned tbl k row :
  unique_proxy_id tbl -> row ∈ tbl -> proxy_id row = Some k ->
  select_by_proxy_id tbl k = [row].
Proof.
  unfold unique_proxy_id, select_by_proxy_id.
  induction tbl as [|r tbl IH]; intros Hu Hin Hk.
  - by apply elem_of_nil in Hin.
  - assert (proxy_ids (r :: tbl) =
            match proxy_id r with Some j => j :: proxy_ids tbl | None => proxy_ids tbl end)
      as Hids by (unfold proxy_ids; simpl; by destruct (proxy_id r)).
    rewrite Hids in Hu. rewrite filter_cons.
    apply elem_of_cons in Hin as [<-|Hin].
    + rewrite Hk in Hu. apply NoDup_cons in Hu as [Hnot _].
      rewrite decide_True by done. f_equal.
      by apply select_by_proxy_id_absent.
    + assert (k ∈ proxy_ids tbl) as Hkin
        by (apply list_elem_of_omap; eauto).
      destruct (proxy_id r) as [j|] eqn:Hr.
      * apply NoDup_cons in Hu as [Hnot Hu].
        rewrite decide_False by (intros [= ->]; done).
        by apply IH.
      * rewrite decide_False by done. by apply IH.
Qed.

(** C1.  Whatever the purchase handlers do and however their statements
    interleave, the table never holds two rows with the same key; and when
    several handlers issue their INSERT for one free key, the first one
    stores its row, every other one loses, is skipped without an error and
    stores nothing: exactly one row holds the key. *)
Theorem unique_proxy_id_under_races :
  (forall ms st,
     unique_proxy_id (r_table st) ->
     unique_proxy_id (r_table (race_run ms st))) /\
  (forall k row rows tbl,
     unique_proxy_id tbl -> k ∉ proxy_ids tbl ->
     Forall (fun r => proxy_id r = Some k /\ truthy_str (login r) = true
                      /\ truthy_str (ip r) = true) (row :: rows) ->
     insert_all (row :: rows) tbl
       = (tbl ++ [row], Saved row :: map (fun _ => Skipped LostRace) rows) /\
     select_by_proxy_id (tbl ++ [row]) k = [row] /\
     unique_proxy_id (tbl ++ [row])).
Proof.
  split; [intros ms st; apply race_run_unique|].
  intros k row rows tbl Hu Hk Hrows.
  apply Forall_cons in Hrows as [(Hid & Hl & Hi) Hrows].
  assert (unique_proxy_id (tbl ++ [row])) as Hu'
    by (apply unique_proxy_id_snoc; [done | by rewrite Hid]).
  split; [|split; [|done]].
  - simpl. unfold claim_insert at 1. rewrite Hl, Hi. simpl.
    unfold insert_user_proxy. rewrite Hid.
    rewrite bool_decide_eq_false_2 by done.
    rewrite (insert_all_taken k rows (tbl ++ [row])); [done| |done].
    rewrite proxy_ids_app. apply elem_of_app. right.
    unfold proxy_ids. simpl. rewrite Hid. simpl. left.
  - apply select_by_proxy_id_owned; [done| |done].
    apply elem_of_app. right. left.
Qed.

(** C8.  A candidate whose key the same user already owns is passed over:
    no row is inserted, no identifier is drawn, no error is raised, and
    the claim loop goes on with the next candidate.  The handler takes the
    row for another user's, since the owner read from the table is a
    string and the user id a number; this branch passes the candidate
    over as well. *)
Theorem claim_same_owner_noop (quantity userId : Z) (proxyType : string)
  (orderId : option Z) (ce : Z -> claim_env) (p : api_proxy)
  (ps : list api_proxy) (tbl : table) (seq : Z) (saved : list proxy_row)
  (k : Z) (row : proxy_row) :
  unique_proxy_id tbl -> p_id p = Some k ->
  row ∈ tbl -> proxy_id row = Some k -> telegram_id row = userId ->
  (exists why,
     claim_one userId proxyType orderId (ce (id_key p)) p tbl seq
       = (tbl, seq, Skipped why) /\
     (k <> 0 -> check_fault (ce (id_key p)) = None ->
      why = OwnedByOther userId)) /\
  claim_loop quantity userId proxyType orderId ce (p :: ps) tbl seq saved
    = claim_loop quantity userId proxyType orderId ce ps tbl seq saved.
Proof.
  intros Hu Hp Hin Hk Hown.
  assert (exists why,
     claim_one userId proxyType orderId (ce (id_key p)) p tbl seq
       = (tbl, seq, Skipped why) /\
     (k <> 0 -> check_fault (ce (id_key p)) = None ->
      why = OwnedByOther userId))
    as (why & Hone & Hwhy).
  { unfold claim_one. rewrite Hp.
    destruct (k =? 0) eqn:Hz; [exists NoProxyId; split; [done|lia]|].
    unfold claim_check.
    destruct (check_fault (ce (id_key p))) as [msg|];
      [exists CheckFailed; split; done|].
    rewrite (select_by_proxy_id_owned tbl k row) by done.
    cbn [pg_bigint strict_eq negb]. rewrite Hown.
    by exists (OwnedByOther userId). }
  split; [by exists why|].
  simpl. rewrite Hone.
  destruct (quantity <=? Z.of_nat (length saved)) eqn:Hq; [|done].
  destruct ps as [|p' ps']; simpl; by rewrite ?Hq.
Qed.

(** The branch of the check that reports a candidate as already saved for
    the user is never taken: the owner read from the table is a string, the
    user id a number, and [!==] tells them apart whatever they are. *)
Lemma claim_check_never_already_owned tbl userId fault proxyId :
  claim_check tbl userId fault proxyId <> Some AlreadyOwned.
Proof.
  unfold claim_check. destruct fault; [done|].
  by destruct (select_by_proxy_id tbl proxyId).
Qed.

(** Claiming twice: after a candidate was saved for a user, the same
    candidate is passed over for that user, with nothing stored and no
    identifier drawn.  The handler passes it over as a proxy of another
    user, which it names as the user: the branch for a proxy already saved
    for this user is not the one it takes. *)
Lemma claim_one_twice userId proxyType orderId ce ce' p tbl seq tbl' seq' row :
  unique_proxy_id tbl ->
  claim_one userId proxyType orderId ce p tbl seq = (tbl', seq', Saved row) ->
  unique_proxy_id tbl' /\
  exists why,
    claim_one userId proxyType orderId ce' p tbl' seq' = (tbl', seq', Skipped why) /\
    why <> AlreadyOwned /\
    (check_fault ce' = None -> why = OwnedByOther userId).
Proof.
  intros Hu. unfold claim_one at 1.
  destruct (p_id p) as [k|] eqn:Hp; [|done].
  destruct (k =? 0) eqn:Hz; [done|].
  destruct (claim_check tbl userId (check_fault ce) k); [done|].
  destruct (Db.generateCmId_pool (cm ce) seq) as [cmId seq1].
  pose proof (claim_insert_cases tbl (insert_fault ce)
                (make_row userId cmId k proxyType orderId p)) as Hc.
  destruct (claim_insert tbl (insert_fault ce) _) as [tbl1 r].
  intros [= -> -> ->]. destruct Hc as (-> & -> & Hfree). simpl in Hfree.
  split; [by apply unique_proxy_id_snoc|].
  unfold claim_one. rewrite Hp, Hz. unfold claim_check.
  destruct (check_fault ce') as [msg|]; [by exists CheckFailed|].
  rewrite (select_by_proxy_id_owned _ k
             (make_row userId cmId k proxyType orderId p)).
  - simpl. by exists (OwnedByOther userId).
  - by apply unique_proxy_id_snoc.
  - apply elem_of_app. right. left.
  - done.
Qed.

(** ** The purchase *)
Import JsNumber Bot.

Section PurchaseFacts.
Context {money : Type}.
Variable money_zero : money.
Variable money_sub : money -> num -> money.
Variable money_to_js : money -> num.

Abbreviation db := (@database money).

(** The order of the session is refused when a field is missing or the
    quantity is out of range. *)
Lemma order_invalid_iff (o : order) :
  order_invalid o = true <->
  truthy_str (o_type o) = false \/ truthy_str (o_country o) = false \/
  truthy_int (o_periodDays o) = false \/
  match o_quantity o with
  | Some q => q <= 0 \/ 100 < q
  | None => True
  end.
Proof.
  unfold order_invalid.
  destruct (truthy_str (o_type o)), (truthy_str (o_country o)),
    (truthy_int (o_periodDays o)); simpl; try tauto.
  destruct (o_quantity o) as [q|]; simpl; [|tauto].
  destruct (q =? 0) eqn:E0; simpl.
  - apply Z.eqb_eq in E0. split; [intros _; right; right; right; lia|done].
  - rewrite orb_true_iff, Z.leb_le, Z.ltb_lt. split; [tauto|].
    intros [H|[H|[H|H]]]; done.
Qed.

(** C9.  When the order of the session lacks its type, its country or its
    period, or its quantity is missing, not positive or above 100, the
    handler answers the callback, shows the invalid-order message and
    returns: the database is untouched, the order stays in the session,
    and no price is calculated, no balance debited and nothing bought. *)
Theorem buy_action_rejects_invalid_order (pool : bool) (userId : Z)
  (name : option string) (o : order) (e : env) (d : db) (x : outside) :
  truthy_str (o_type o) = false \/ truthy_str (o_country o) = false \/
  truthy_int (o_periodDays o) = false \/
  match o_quantity o with
  | Some q => q <= 0 \/ 100 < q
  | None => True
  end ->
  buy_action money_zero money_sub money_to_js pool userId name (Some o) e d x
  = (d, {| cm_id_seq := cm_id_seq x;
           effects := effects x ++ [AnswerCb; EditMessage InvalidOrder] |},
     Some o).
Proof.
  intros H. apply order_invalid_iff in H.
  unfold buy_action. rewrite H. unfold emit. simpl.
  by rewrite <- app_assoc.
Qed.

(** [withTransaction] on a pool: the callback after BEGIN, then ROLLBACK
    and the database as before when the callback or COMMIT throws. *)
Lemma transact_cases {A : Type}
  (callback : db -> outside -> db * outside * (buy_error + A))
  (commit : option string) (d : db) (x : outside) :
  transact callback true commit d x
  = let '(d1, x1, r1) := callback d (emit Begin x) in
    match r1 with
    | inl err => (d, emit Rollback x1, inl err)
    | inr a =>
        match commit with
        | None => (d1, emit Commit x1, inr a)
        | Some msg => (d, emit Rollback (emit Commit x1), inl (Rethrown msg))
        end
    end.
Proof.
  unfold transact, Db.withTransaction.
  destruct (callback d (emit Begin x)) as [[d1 x1] [err|a]]; [done|].
  by destruct commit.
Qed.

End PurchaseFacts.

(** ** The payment confirmation loop *)
Import JsNumber Bot.

Section PaymentFacts.
Context {money : Type}.
Variable money_zero : money.
Variable money_add : money -> num -> money.
Variable money_to_js : money -> num.

Abbreviation pstate := (@check_state money).


Lemma poll_step_stopped pool userId amount (st : pstate) ev :
  timer_on st = false -> awaiting st = O ->
  poll_step money_zero money_add money_to_js pool userId amount st ev = st.
Proof.
  intros Ht Ha. destruct ev as [|r]; simpl; by rewrite ?Ht, ?Ha.
Qed.

Lemma poll_run_stopped pool userId amount evs : forall st : pstate,
  timer_on st = false -> awaiting st = O ->
  poll_run money_zero money_add money_to_js pool userId amount evs st = st.
Proof.
  induction evs as [|ev evs IH]; intros st Ht Ha; simpl; [done|].
  rewrite poll_step_stopped by done. by apply IH.
Qed.

(** The statements on [users] when none of them throws. *)
Lemma credit_steps_ok userId amount (u : gmap Z (@user_row money)) :
  credit_steps money_zero money_add money_to_js None userId amount u
  = (credit_user money_zero money_add userId amount u, true,
     Some (read_balance money_to_js userId
             (credit_user money_zero money_add userId amount u))).
Proof. unfold credit_steps. cbn [throws]. by rewrite andb_false_r. Qed.

Lemma on_paid_ok userId amount (st : pstate) :
  on_paid money_zero money_add money_to_js true userId amount None st
  = clear_session
      (notify
         (InvoiceSettled amount
            (read_balance money_to_js userId
               (credit_user money_zero money_add userId amount
                  (pay_users st))))
         (credited (credit_user money_zero money_add userId amount
                      (pay_users st)) true (stop_check st))).
Proof. unfold on_paid. cbn [stop_check pay_users]. by rewrite credit_steps_ok. Qed.

(** A paid invoice stops the timer, and the UPDATE of the balance goes
    through at most once. *)
Lemma on_paid_cases pool userId amount failing (st : pstate) :
  awaiting st = O ->
  let st' := on_paid money_zero money_add money_to_js pool userId amount
               failing st in
  awaiting st' = O /\ timer_on st' = false /\
  (credits st' = credits st \/ credits st' = S (credits st)).
Proof.
  intros Ha. unfold on_paid. destruct pool; [|by repeat split; [|left]].
  destruct (credit_steps _ _ _ _ _ _) as [[u updated] [newBalance|]];
    cbn [stop_check clear_session notify credited awaiting timer_on credits];
    (split; [done|split; [done|]]); destruct updated; (right; lia) || (left; lia).
Qed.

Lemma on_response_cases pool userId amount r (st : pstate) :
  awaiting st = O ->
  let st' := on_response money_zero money_add money_to_js pool userId amount
               r st in
  awaiting st' = O /\
  (credits st' = credits st \/
   (timer_on st' = false /\ credits st' = S (credits st))).
Proof.
  intros Ha. unfold on_response.
  assert (forall failing,
            let st' := on_paid money_zero money_add money_to_js pool userId
                         amount failing st in
            awaiting st' = O /\
            (credits st' = credits st \/
             (timer_on st' = false /\ credits st' = S (credits st))))
    as Hpaid.
  { intros failing.
    destruct (on_paid_cases pool userId amount failing st Ha)
      as (H1 & H2 & [H3|H3]); (split; [done|]); [by left|by right]. }
  destruct r as [|[| |]| |failing].
  - destruct (maxChecks <=? checkCount st)%nat; (split; [done|by left]).
  - destruct (false || (maxChecks <=? checkCount st)%nat);
      (split; [done|by left]).
  - apply Hpaid.
  - destruct (true || (maxChecks <=? checkCount st)%nat);
      (split; [done|by left]).
  - destruct (maxChecks <=? checkCount st)%nat; (split; [done|by left]).
  - apply Hpaid.
Qed.

(** One round without overlap: no poll is left pending, and the balance
    is credited only if the timer is stopped. *)
Lemma poll_round pool userId amount r (st : pstate) :
  awaiting st = O ->
  let st' := poll_step money_zero money_add money_to_js pool userId amount
               (poll_step money_zero money_add money_to_js pool userId
                  amount st TimerFires) (PollReturns r) in
  awaiting st' = O /\
  (credits st' = credits st \/
   (timer_on st' = false /\ credits st' = S (credits st))).
Proof.
  intros Ha. unfold poll_step at 2. destruct (timer_on st) eqn:Ht.
  - unfold poll_step. cbn [awaiting]. rewrite Ha.
    cbn [timer_on registered checkCount deposit_session pay_users notices
         credits].
    exact (on_response_cases pool userId amount r
             {| timer_on := true; registered := registered st;
                checkCount := S (checkCount st); awaiting := 0;
                deposit_session := deposit_session st;
                pay_users := pay_users st; credits := credits st;
                notices := notices st |}
             eq_refl).
  - unfold poll_step. rewrite Ha. split; [done|by left].
Qed.

(** Without overlap the balance is credited at most once. *)
Lemma poll_one_at_a_time_credits pool userId amount rs : forall st : pstate,
  awaiting st = O -> credits st = O ->
  (credits (poll_run money_zero money_add money_to_js pool userId amount
              (one_at_a_time rs) st) <= 1)%nat.
Proof.
  induction rs as [|r rs IH]; intros st Ha Hc; [simpl; lia|].
  change (one_at_a_time (r :: rs))
    with (TimerFires :: PollReturns r :: one_at_a_time rs).
  change (poll_run money_zero money_add money_to_js pool userId amount
            (TimerFires :: PollReturns r :: one_at_a_time rs) st)
    with (poll_run money_zero money_add money_to_js pool userId amount
            (one_at_a_time rs)
            (poll_step money_zero money_add money_to_js pool userId amount
               (poll_step money_zero money_add money_to_js pool userId
                  amount st TimerFires) (PollReturns r))).
  destruct (poll_round pool userId amount r st Ha) as (Ha' & [Hsame|[Hoff Hone]]).
  - apply IH; [done|]. by rewrite Hsame.
  - rewrite poll_run_stopped by done. rewrite Hone, Hc. lia.
Qed.

(** C4, at the failing schedule: the timer fires twice before the first
    poll answers, and both polls report the invoice as paid.  The first
    answer stops the timer and credits the amount; the second callback is
    already past the timer and credits the amount again. *)
Theorem payment_credited_twice (userId : Z) (amount : num)
  (r : @user_row money) :
  let st := poll_run money_zero money_add money_to_js true userId amount
              [TimerFires; TimerFires;
               PollReturns (PollStatus InvoicePaid);
               PollReturns (PollStatus InvoicePaid)]
              (start_check {[userId := r]}) in
  credits st = 2%nat /\
  balance_of userId (pay_users st)
    = Some (money_add (money_add (balance r) amount) amount) /\
  timer_on st = false.
Proof.
  cbv zeta. unfold poll_run.
  cbn [fold_left poll_step on_response start_check timer_on registered
       checkCount awaiting deposit_session pay_users credits notices].
  do 2 (rewrite on_paid_ok;
        cbn [clear_session notify credited stop_check timer_on registered
             checkCount awaiting deposit_session pay_users credits notices]).
  split; [done|]. split; [|done].
  unfold balance_of, credit_user, ensure_user, add_balance.
  rewrite !lookup_singleton_eq. rewrite alter_singleton_eq.
  rewrite !lookup_singleton_eq. rewrite alter_singleton_eq.
  by rewrite !lookup_singleton_eq.
Qed.

End PaymentFacts.

(** ** The scenarios *)
Import JsNumber Bot Scenario.


(** The two steps of a racing handler, taken one after the other, are the
    body of the claim loop. *)
Lemma flow_steps_claim_one ce (f : flow) p rest tbl seq :
  f_pending f = None -> f_raised f = None -> f_todo f = p :: rest ->
  Z.of_nat (length (f_saved f)) < f_quantity f ->
  let '(seq1, f1) := flow_check ce tbl seq f in
  let '(tbl2, f2) := flow_insert (insert_fault ce) tbl f1 in
  let '(tbl', seq', r) :=
    claim_one (f_user f) (f_proxyType f) (f_orderId f) ce p tbl seq in
  tbl2 = tbl' /\ seq1 = seq' /\
  f_saved f2 = match r with
               | Saved row => f_saved f ++ [row]
               | _ => f_saved f
               end /\
  f_raised f2 = match r with Raised msg => Some msg | _ => None end.
Proof.
  intros Hp Hr Ht Hq. unfold flow_check, claim_one. rewrite Hp, Hr, Ht.
  rewrite (proj2 (Z.leb_gt _ _)) by done.
  destruct (p_id p) as [k|]; [|done].
  destruct (k =? 0); [done|].
  destruct (claim_check tbl (f_user f) (check_fault ce) k); [done|].
  destruct (Db.generateCmId_pool (cm ce) seq) as [cmId seq1].
  unfold flow_insert. simpl.
  destruct (claim_insert tbl (insert_fault ce) _) as [tbl1 [why|row|msg]];
    done.
Qed.

(** The race of the scenario: both handlers pass the check on proxy 7,
    Alice's INSERT stores the row, Bob's loses and is skipped; one row. *)
Example race_on_proxy7 :
  let st := race_run race_moves race_start in
  r_table st = [row7 alice "CM000001"] /\
  f_saved <$> r_flows st = [[row7 alice "CM000001"]; []] /\
  f_raised <$> r_flows st = [None; None].
Proof. vm_compute. repeat split. Qed.

(** The race of the scenario keeps the constraint, and of the two INSERTs
    on proxy 7 the second is skipped. *)
Lemma unique_proxy_id_under_races_witness :
  unique_proxy_id (r_table (race_run race_moves race_start)) /\
  insert_all [row7 alice "CM000001"; row7 bob "CM000002"] []
  = ([row7 alice "CM000001"], [Saved (row7 alice "CM000001"); Skipped LostRace]).
Proof.
  destruct unique_proxy_id_under_races as [Hrace Hone]. split.
  - apply Hrace. apply NoDup_nil_2.
  - apply (Hone 7 (row7 alice "CM000001") [row7 bob "CM000002"] []).
    + apply NoDup_nil_2.
    + apply not_elem_of_nil.
    + repeat constructor.
Defined.

(** Bob is offered proxy 7, which he already holds: nothing changes. *)
Lemma claim_same_owner_noop_witness :
  claim_loop 1 bob "ipv4" (Some 55) (fun _ => steady) [proxy7]
    [row7 bob "CM000001"] 1 []
  = ([row7 bob "CM000001"], 1, [], None).
Proof.
  destruct (claim_same_owner_noop 1 bob "ipv4" (Some 55) (fun _ => steady)
              proxy7 [] [row7 bob "CM000001"] 1 [] 7 (row7 bob "CM000001"))
    as [_ Hloop].
  - apply NoDup_singleton.
  - reflexivity.
  - apply list_elem_of_singleton. reflexivity.
  - reflexivity.
  - reflexivity.
  - rewrite Hloop. reflexivity.
Defined.

(** An order of 101 proxies is refused before anything else happens. *)
Lemma buy_action_rejects_invalid_order_witness :
  buy_action zero js_sub js_money_to_js true alice None
    (Some (order_of 101)) (shop (BuyReturns None []) (fun _ => FetchReturns []))
    db_alice_50 fresh
  = (db_alice_50,
     {| cm_id_seq := 1; effects := [AnswerCb; EditMessage InvalidOrder] |},
     Some (order_of 101)).
Proof.
  apply (buy_action_rejects_invalid_order zero js_sub js_money_to_js true
           alice None (order_of 101)).
  right. right. right. simpl. right. lia.
Defined.

(** C2, the claim as stated fails: when the order call fails, the debit of
    30 dollars has been made and is reverted, although this is not the
    path on which no proxy could be saved; no credentials were asked for. *)
Lemma purchase_order_failure_reverts_debit :
  purchase_30 (shop (BuyThrows "order failed") (fun _ => FetchReturns []))
  = (db_alice_50,
     {| cm_id_seq := 1;
        effects := [Begin; SelectBalanceForUpdate alice;
                    DebitBalance alice (of_cents 3000); BuyProxy; Rollback] |},
     inl (BuyFailed "order failed")) /\
  BuyFailed "order failed" <> NothingSaved.
Proof. split; [vm_compute; reflexivity | discriminate]. Qed.

(** ** The ledger, user by user *)
Import JsNumber Balance.

Lemma getBalance_insert (s : ledger) u u' v :
  getBalance (<[u := v]> s) u'
  = if bool_decide (u = u') then (if falsy v then zero else v)
    else getBalance s u'.
Proof.
  unfold getBalance. case_bool_decide as H.
  - subst. by rewrite lookup_insert_eq.
  - by rewrite lookup_insert_ne.
Qed.

Lemma getBalance_exec_other (s : ledger) o u :
  op_user o <> u -> getBalance (exec s o) u = getBalance s u.
Proof.
  destruct o as [w|w a|w a]; simpl; intros Hne; [done| |].
  - rewrite getBalance_insert, bool_decide_eq_false_2 by done.
    apply getBalance_ensure.
  - unfold subtractBalance. destruct (js_lt _ zero); simpl.
    + apply getBalance_ensure.
    + rewrite getBalance_insert, bool_decide_eq_false_2 by done.
      apply getBalance_ensure.
Qed.

(** The balance of a user is moved by the operations on that user only:
    whatever is credited to or debited from other users, successfully or
    not, the balance that [getBalance] reports stays the same. *)
Theorem balance_isolated (ops : list op) (s : ledger) (u : Z) :
  Forall (fun o => op_user o <> u) ops ->
  getBalance (run ops s) u = getBalance s u.
Proof.
  revert s. induction ops as [|o ops IH]; intros s Hops; simpl; [done|].
  apply Forall_cons in Hops as [Ho Hops].
  unfold run in IH. rewrite IH by done. by apply getBalance_exec_other.
Qed.

Lemma balance_isolated_witness :
  Forall (fun o => op_user o <> 1) [OpAdd 2 (of_cents 1000); OpSub 2 (of_cents 2500)] /\
  getBalance (run [OpAdd 2 (of_cents 1000); OpSub 2 (of_cents 2500)]
                (<[1 := of_cents 500]> ∅)) 1
  = getBalance (<[1 := of_cents 500]> ∅) 1.
Proof.
  assert (Forall (fun o => op_user o <> 1)
            [OpAdd 2 (of_cents 1000); OpSub 2 (of_cents 2500)]) as H.
  { repeat constructor; simpl; lia. }
  split; [exact H|]. apply (balance_isolated _ _ 1 H).
Defined.

Lemma js_add_zero_r (s : ledger) u :
  js_add (getBalance s u) zero = getBalance s u.
Proof.
  unfold getBalance. destruct (s !! u) as [x|]; [|done].
  destruct x as [[]| | |]; done.
Qed.

Lemma getBalance_falsy (s : ledger) u :
  (if falsy (getBalance s u) then zero else getBalance s u) = getBalance s u.
Proof.
  unfold getBalance. destruct (s !! u) as [x|]; [|done].
  destruct x as [[]| | |]; done.
Qed.

Lemma ledger_rounded_empty : ledger_rounded ∅.
Proof. intros u x H. by rewrite lookup_empty in H. Qed.

(** Crediting nothing changes nothing: after any history of the ledger, a
    credit of 0 leaves the balance of every user as it was.  (A stored
    balance is already rounded to cents, so that rounding it again does not
    move it.) *)
Theorem addBalance_zero_noop (ops : list op) (u u' : Z) :
  let s := run ops ∅ in
  fst (addBalance s u zero) = getBalance s u /\
  getBalance (snd (addBalance s u zero)) u' = getBalance s u'.
Proof.
  intros s. unfold addBalance. cbn [fst snd].
  assert (round2 (js_add (slot (ensure s u) u) zero) = getBalance s u) as Hv.
  { rewrite slot_ensure, js_add_zero_r. apply getBalance_rounded.
    apply run_rounded, ledger_rounded_empty. }
  rewrite Hv. split; [done|].
  rewrite getBalance_insert. case_bool_decide as H.
  - subst. apply getBalance_falsy.
  - apply getBalance_ensure.
Qed.

(** *** Enough balance *)

Lemma pos_iter_xO (d m : positive) :
  Zpos (Pos.iter xO m d) = Zpos m * 2 ^ Zpos d.
Proof.
  induction d as [|d IH] using Pos.peano_ind.
  - simpl. lia.
  - rewrite Pos.iter_succ, Pos2Z.inj_xO, IH, Pos2Z.inj_succ.
    rewrite Z.pow_succ_r by lia. lia.
Qed.

Lemma shl_align_fst (m : positive) (e ez : Z) :
  ez <= e -> Zpos (fst (shl_align m e ez)) = Zpos m * 2 ^ (e - ez).
Proof.
  intros H. unfold shl_align. destruct (ez - e) as [|d|d] eqn:Hd; simpl.
  - replace (e - ez) with 0 by lia. lia.
  - lia.
  - rewrite pos_iter_xO. f_equal. f_equal. lia.
Qed.

(** A number in its canonical form: the mantissa has at most 53 bits, and
    exactly 53 above the smallest exponent. *)
Lemma valid_finite_bounds (s : bool) (m : positive) (e : Z) :
  valid_binary prec emax (S754_finite s m e) = true ->
  Zpos m < 2 ^ 53 /\ -1074 <= e /\ (-1074 < e -> 2 ^ 52 <= Zpos m).
Proof.
  simpl. unfold bounded, canonical_mantissa, fexp, emin, prec, emax.
  intros H. apply andb_prop in H as [H _]. apply Z.eqb_eq in H.
  pose proof (digits2_pos_bounds m) as [Hlo Hhi].
  assert (Zpos (digits2_pos m) <= 53) as Hd by lia.
  split; [|split; [lia|]].
  - eapply Z.lt_le_trans; [exact Hhi|]. apply Z.pow_le_mono_r; lia.
  - intros He. assert (Zpos (digits2_pos m) = 53) as Hd53 by lia.
    rewrite Hd53 in Hlo. exact Hlo.
Qed.

Lemma binary_normalize_nonneg (z e : Z) :
  0 <= z -> not_negative (binary_normalize prec emax z e false).
Proof.
  intros Hz. destruct z as [|p|p]; simpl; [done| |lia].
  apply not_negative_signed, binary_round_sign.
Qed.

(** Of two canonical numbers with mantissas [ma], [mb] and exponents
    [ea < eb], the one with the larger exponent is the larger. *)
Lemma mantissa_order (ma mb : positive) (ea eb : Z) :
  Zpos ma < 2 ^ 53 -> -1074 <= ea -> ea < eb -> 2 ^ 52 <= Zpos mb ->
  Zpos ma * 2 ^ (ea - ea) <= Zpos mb * 2 ^ (eb - ea).
Proof.
  intros Ha Hea Hlt Hb. rewrite Z.sub_diag, Z.pow_0_r, Z.mul_1_r.
  assert (2 ^ 1 <= 2 ^ (eb - ea)) as Hp by (apply Z.pow_le_mono_r; lia).
  change (2 ^ 53) with (2 ^ 52 * 2 ^ 1) in Ha. nia.
Qed.

Lemma js_sub_not_negative (b a : num) :
  valid_binary prec emax b = true -> valid_binary prec emax a = true ->
  js_le a b = true -> not_negative (js_sub b a).
Proof.
  intros Hb Ha Hle. unfold js_le, SFleb in Hle. unfold js_sub.
  destruct b as [sb|sb| |sb mb eb], a as [sa|sa| |sa ma ea];
    try (by destruct sb); try (by destruct sa);
    try (by destruct sa, sb); try done.
  apply valid_finite_bounds in Hb as (Hmb & Heb & Hnb).
  apply valid_finite_bounds in Ha as (Hma & Hea & Hna).
  unfold SFsub. apply binary_normalize_nonneg.
  simpl in Hle.
  destruct (Z.min_spec eb ea) as [[Hlt Hmin]|[Hge Hmin]]; rewrite Hmin.
  - (* eb < ea *)
    rewrite !shl_align_fst by lia.
    destruct sa, sb; simpl in *.
    + pose proof (mantissa_order mb ma eb ea Hmb Heb Hlt (Hna ltac:(lia))). lia.
    + lia.
    + done.
    + apply Z.compare_lt_iff in Hlt. rewrite Z.compare_antisym, Hlt in Hle.
      done.
  - rewrite !shl_align_fst by lia.
    destruct sa, sb; simpl in *.
    + destruct (Z.compare_spec ea eb) as [Heq|Hlt|Hgt]; [|done|lia].
      subst. rewrite Z.sub_diag, Z.pow_0_r.
      rewrite Pos.compare_cont_spec in Hle. simpl in Hle.
      destruct (Pos.compare_spec ma mb); simpl in Hle; try done; lia.
    + lia.
    + done.
    + destruct (Z.compare_spec ea eb) as [Heq|Hlt|Hgt]; [| |lia].
      * subst. rewrite Z.sub_diag, Z.pow_0_r.
        rewrite Pos.compare_cont_spec in Hle. simpl in Hle.
        destruct (Pos.compare_spec ma mb); simpl in Hle; try done; lia.
      * assert (-1074 < eb) as Hgt by lia.
        pose proof (mantissa_order ma mb ea eb Hma Hea Hlt (Hnb Hgt)). lia.
Qed.

(** [hasEnoughBalance] is a safe test before a debit: when it answers
    true for an amount, [subtractBalance] of that amount does not fail,
    and stores the balance less the amount, rounded to cents.  The numbers
    are IEEE doubles in canonical form. *)
Theorem hasEnoughBalance_sound (s : ledger) (u : Z) (a : num) :
  valid_binary prec emax (getBalance s u) = true ->
  valid_binary prec emax a = true ->
  hasEnoughBalance s u a = true ->
  subtractBalance s u a
  = Returned (round2 (js_sub (getBalance s u) a))
      (<[u := round2 (js_sub (getBalance s u) a)]> (ensure s u)).
Proof.
  intros Hb Ha Hle. unfold subtractBalance. rewrite slot_ensure.
  pose proof (round2_not_negative _ (js_sub_not_negative _ _ Hb Ha Hle)) as H.
  unfold not_negative in H. by rewrite H.
Qed.

Lemma hasEnoughBalance_sound_witness :
  let s : ledger := <[7 := of_cents 5000]> ∅ in
  hasEnoughBalance s 7 (of_cents 3000) = true /\
  subtractBalance s 7 (of_cents 3000)
  = Returned (of_cents 2000) (<[7 := of_cents 2000]> (ensure s 7)).
Proof.
  intros s. split; [reflexivity|].
  rewrite (hasEnoughBalance_sound s 7 (of_cents 3000)); reflexivity.
Defined.

(** ** Rounding twice *)
Import JsNumber.

(** Rounding to cents a second time changes nothing: for every number [x],
    [parseFloat(x.toFixed(2))] is its own rounding to cents.  The one
    exception is the sign of a zero: a negative number that rounds to
    [-0] rounds to [0] the second time. *)
Theorem round2_twice (x : num) :
  round2 (round2 x)
  = match round2 x with
    | S754_zero _ => zero
    | y => y
    end.
Proof.
  destruct (round2 x) as [s|s| |s m e] eqn:Hr.
  - reflexivity.
  - reflexivity.
  - reflexivity.
  - rewrite <- Hr. apply round2_idempotent. by rewrite Hr.
Qed.

(** ** Periods and order methods *)
Import ProxySellerApi.

(** The six rental periods have six different period ids, all among the
    ids the API knows. *)
Theorem convertDaysToPeriodId_rental (d1 d2 : Z) :
  d1 ∈ rental_periods -> d2 ∈ rental_periods ->
  convertDaysToPeriodId (Some d1) = convertDaysToPeriodId (Some d2) ->
  d1 = d2 /\ convertDaysToPeriodId (Some d1) ∈ pref.
Proof.
  unfold rental_periods, pref. intros H1 H2.
  repeat (apply elem_of_cons in H1 as [->|H1]);
    [..|by apply elem_of_nil in H1];
    repeat (apply elem_of_cons in H2 as [->|H2]);
    try (by apply elem_of_nil in H2);
    vm_compute; intros Heq; try discriminate Heq;
    (split; [reflexivity|]); repeat constructor.
Qed.

Lemma convertDaysToPeriodId_rental_witness :
  14 ∈ rental_periods /\
  convertDaysToPeriodId (Some 14) = "2w"%string /\
  convertDaysToPeriodId (Some 14) ∈ pref.
Proof.
  assert (14 ∈ rental_periods) as H by (by apply (bool_decide_unpack _)).
  split; [exact H|]. split; [reflexivity|].
  apply (convertDaysToPeriodId_rental 14 14 H H eq_refl).
Defined.

(** A number of days that is none of the six periods is ordered as one
    week; when it is more than seven days, the markup on the price is
    nevertheless the lower one of the longer period. *)
Theorem unlisted_period_is_one_week (d : Z) :
  d ∉ rental_periods ->
  convertDaysToPeriodId (Some d) = "1w"%string /\
  (7 < d -> calculateMarkupPercent d < calculateMarkupPercent 7).
Proof.
  intros Hd. unfold rental_periods in Hd.
  assert (d <> 7 /\ d <> 14 /\ d <> 30 /\ d <> 60 /\ d <> 90 /\ d <> 180)
    as (H7 & H14 & H30 & H60 & H90 & H180).
  { repeat split; intros ->; apply Hd; by apply (bool_decide_unpack _). }
  split.
  - unfold convertDaysToPeriodId.
    destruct (d =? 0) eqn:H0; [done|].
    apply Z.eqb_neq in H7, H14, H30, H60, H90, H180.
    by rewrite H7, H14, H30, H60, H90, H180.
  - intros Hlt. unfold calculateMarkupPercent, markupReduction, baseMarkup.
    repeat case_match; lia.
Qed.

Lemma unlisted_period_is_one_week_witness :
  (45 ∉ rental_periods) /\
  convertDaysToPeriodId (Some 45) = "1w"%string /\
  calculateMarkupPercent 45 = 50 /\ calculateMarkupPercent 7 = 80.
Proof.
  assert (45 ∉ rental_periods) as H by (by apply (bool_decide_unpack _)).
  split; [exact H|].
  split; [apply (unlisted_period_is_one_week 45 H)|].
  split; reflexivity.
Defined.

(** The period that is ordered is the period whose price was quoted:
    whenever [calculatePrice] finds a period among those on offer,
    [buyProxy] orders the same one, and it is one of those on offer. *)
Theorem buy_period_as_quoted (ids : list string) (periodDays : option Z)
  (p : string) :
  calc_period ids periodDays = Some p ->
  buy_period ids periodDays = Some p /\ p ∈ ids.
Proof.
  unfold calc_period, buy_period.
  case_bool_decide as Hin; [by intros [= <-]|].
  unfold first_offered. intros Hf. rewrite Hf. split; [done|].
  apply List.find_some in Hf as [_ Hp]. by apply bool_decide_eq_true_1 in Hp.
Qed.

Lemma buy_period_as_quoted_witness :
  calc_period ["1m"; "3m"]%string (Some 14) = Some "1m"%string /\
  buy_period ["1m"; "3m"]%string (Some 14) = Some "1m"%string /\
  "1m"%string ∈ ["1m"; "3m"]%string.
Proof.
  split; [reflexivity|].
  apply (buy_period_as_quoted ["1m"; "3m"]%string (Some 14) "1m").
  reflexivity.
Defined.

Lemma pickApiMethod_make (type : string) :
  pickApiMethod type false ∈ order_methods.
Proof.
  unfold pickApiMethod, order_methods. repeat case_match; repeat constructor.
Qed.

(** [buyProxy] tries each of the five order methods once, the one of the
    proxy type first. *)
Theorem buy_methods_once (type : string) :
  head (buy_methods type) = Some (pickApiMethod type false) /\
  NoDup (buy_methods type) /\
  forall m, m ∈ buy_methods type <-> m ∈ order_methods.
Proof.
  pose proof (pickApiMethod_make type) as H. unfold buy_methods.
  unfold order_methods in H.
  repeat (apply elem_of_cons in H as [->|H]);
    [..|by apply elem_of_nil in H];
    (split; [reflexivity|]);
    (split; [by apply (bool_decide_unpack _)|]);
    intros m;
    match goal with
    | |- context [fold_left ?f ?a ?b] =>
        let v := eval vm_compute in (fold_left f a b) in
        change (fold_left f a b) with v
    end;
    unfold order_methods; rewrite !elem_of_cons, !elem_of_nil; tauto.
Qed.

Lemma buy_loop_none api methods :
  buy_loop api methods = None <->
  Forall (fun m => make_failed (api m) = true) methods.
Proof.
  induction methods as [|m methods IH]; simpl; [split; [constructor|done]|].
  rewrite Forall_cons, <- IH. unfold make_failed.
  destruct (api m) as [msg|[] [|e errors] orderId]; simpl; split;
    try done; try tauto; by intros [? ?].
Qed.

(** The methods in the order in which [buyProxy] tries them: the one of
    the proxy type, then the others of the five in their order. *)
Lemma buy_methods_order (type : string) :
  buy_methods type
  = pickApiMethod type false
    :: filter (fun m => m <> pickApiMethod type false) order_methods.
Proof.
  pose proof (pickApiMethod_make type) as H. unfold buy_methods.
  unfold order_methods in H.
  repeat (apply elem_of_cons in H as [->|H]);
    [..|by apply elem_of_nil in H]; reflexivity.
Qed.

Lemma buy_loop_cons api m methods :
  buy_loop api (m :: methods)
  = if make_failed (api m) then buy_loop api methods else Some (m, api m).
Proof.
  simpl. unfold make_failed.
  by destruct (api m) as [msg|[] [|e errors] orderId].
Qed.

(** The loop returns the answer of the first method that did not fail. *)
Lemma buy_loop_some api methods m r :
  buy_loop api methods = Some (m, r) ->
  r = api m /\ make_failed (api m) = false /\
  exists pre post, methods = pre ++ m :: post /\
    Forall (fun m' => make_failed (api m') = true) pre.
Proof.
  induction methods as [|m0 methods IH]; [done|].
  rewrite buy_loop_cons.
  destruct (make_failed (api m0)) eqn:Hf.
  - intros H. apply IH in H as (-> & Hm & pre & post & -> & Hpre).
    split; [done|]. split; [done|].
    exists (m0 :: pre), post. split; [done|]. by constructor.
  - intros [= <- <-]. split; [done|]. split; [done|].
    exists [], methods. split; [done|constructor].
Qed.

(** [buyProxy] tries the order method of the proxy type first, then the
    others of the five in their order, each once, and returns the answer
    of the first method that neither throws nor answers without success
    while listing errors.  It throws that the order could not be placed
    only when each of the five methods has failed in one of these two
    ways. *)
Theorem buyProxy_first_answer (api : string -> make_response)
  (type : string) :
  buy_methods type
  = pickApiMethod type false
    :: filter (fun m => m <> pickApiMethod type false) order_methods /\
  match buy_loop api (buy_methods type) with
  | Some (m, r) =>
      r = api m /\ make_failed (api m) = false /\
      exists pre post, buy_methods type = pre ++ m :: post /\
        Forall (fun m' => make_failed (api m') = true) pre
  | None => forall m, m ∈ order_methods -> make_failed (api m) = true
  end.
Proof.
  split; [apply buy_methods_order|].
  destruct (buy_loop api (buy_methods type)) as [[m r]|] eqn:Hloop.
  - by apply buy_loop_some.
  - apply buy_loop_none in Hloop.
    destruct (buy_methods_once type) as (_ & _ & Hm).
    intros m Hin. apply (proj1 (Forall_forall _ _) Hloop). by apply Hm.
Qed.

(** ** Decimal numerals *)
Import JsString.

Lemma string_app_cons (c : ascii) (s1 s2 : string) :
  String c s1 +:+ s2 = String c (s1 +:+ s2).
Proof. done. Qed.

Lemma string_app_nil_l (s : string) : "" +:+ s = s.
Proof. done. Qed.

Lemma string_app_assoc (s1 s2 s3 : string) :
  (s1 +:+ s2) +:+ s3 = s1 +:+ (s2 +:+ s3).
Proof.
  induction s1 as [|c s1 IH]; [done|].
  by rewrite !string_app_cons, IH.
Qed.

Lemma string_app_length (s1 s2 : string) :
  String.length (s1 +:+ s2) = (String.length s1 + String.length s2)%nat.
Proof.
  induction s1 as [|c s1 IH]; [done|].
  rewrite string_app_cons. simpl. by rewrite IH.
Qed.

Lemma string_app_nil_r (s : string) : s +:+ "" = s.
Proof.
  induction s as [|c s IH]; [done|]. by rewrite string_app_cons, IH.
Qed.

Lemma substring_all (s : string) : substring 0 (String.length s) s = s.
Proof. induction s as [|c s IH]; simpl; [done|]. by rewrite IH. Qed.

Lemma substring_app_l (n : nat) (s1 s2 : string) :
  (n <= String.length s1)%nat ->
  substring 0 n (s1 +:+ s2) = substring 0 n s1.
Proof.
  revert s1. induction n as [|n IH]; intros s1 Hn.
  - destruct s1; [by destruct s2|done].
  - destruct s1 as [|c s1]; simpl in Hn; [lia|].
    rewrite string_app_cons. simpl. rewrite IH by lia. done.
Qed.

(** The numeral of [x]: its decimal digits, none for 0. *)
Lemma pretty_N_go_app (x : N) (s : string) :
  pretty_N_go x s = pretty_N_go x "" +:+ s.
Proof.
  revert s. induction (N.lt_wf_0 x) as [x _ IH]; intros s.
  destruct (decide (x = 0)%N) as [->|Hx]; [by rewrite !pretty_N_go_0|].
  assert (x `div` 10 < x)%N as Hlt by (apply N.div_lt; lia).
  rewrite !(pretty_N_go_step x) by lia.
  rewrite (IH _ Hlt (String _ s)), (IH _ Hlt (String _ "")).
  by rewrite string_app_assoc.
Qed.

Lemma pretty_N_go_snoc (x : N) :
  (0 < x)%N ->
  pretty_N_go x ""
  = pretty_N_go (x `div` 10) "" +:+ String (pretty_N_char (x `mod` 10)) "".
Proof.
  intros Hx. rewrite pretty_N_go_step by done. apply pretty_N_go_app.
Qed.

Lemma digit_of_pretty_N_char (d : N) :
  (d < 10)%N -> digit_of 10 (pretty_N_char d) = Some d.
Proof.
  intros Hd.
  assert (d = 0 \/ d = 1 \/ d = 2 \/ d = 3 \/ d = 4 \/ d = 5 \/ d = 6 \/
          d = 7 \/ d = 8 \/ d = 9)%N as H by lia.
  repeat (destruct H as [->|H]; [done|]). by subst.
Qed.

(** Reading the numeral of [x] gives [x] back: read after the number
    [acc], the digits of [x] shift it to the left and add [x]. *)
Lemma digits_go_pretty (x : N) :
  forall (t : string) (acc : N),
  digits_go 10 (pretty_N_go x "" +:+ t) acc
  = digits_go 10 t
      (acc * 10 ^ N.of_nat (String.length (pretty_N_go x "")) + x)%N.
Proof.
  induction (N.lt_wf_0 x) as [x _ IH]; intros t acc.
  destruct (decide (x = 0)%N) as [->|Hx].
  { rewrite pretty_N_go_0, string_app_nil_l. simpl. f_equal. lia. }
  assert (x `div` 10 < x)%N as Hlt by (apply N.div_lt; lia).
  rewrite pretty_N_go_snoc by lia.
  rewrite string_app_assoc, (IH _ Hlt).
  rewrite string_app_cons, string_app_nil_l. cbn [digits_go].
  rewrite digit_of_pretty_N_char by (apply N.mod_lt; lia).
  f_equal. rewrite string_app_length. simpl.
  rewrite Nat.add_1_r, Nat2N.inj_succ, N.pow_succ_r'.
  pose proof (N.div_mod x 10). lia.
Qed.

(** The numeral of [x] has as many digits as [x] needs. *)
Lemma pretty_N_go_length (x : N) :
  (x < 10 ^ N.of_nat (String.length (pretty_N_go x "")))%N /\
  (0 < x -> 10 ^ N.of_nat (String.length (pretty_N_go x "")) <= 10 * x)%N.
Proof.
  induction (N.lt_wf_0 x) as [x _ IH].
  destruct (decide (x = 0)%N) as [->|Hx].
  { rewrite pretty_N_go_0. simpl. lia. }
  rewrite pretty_N_go_snoc by lia. rewrite string_app_length. simpl.
  rewrite Nat.add_1_r, Nat2N.inj_succ, N.pow_succ_r'.
  destruct (IH (x `div` 10)%N) as [Hlt Hge]; [apply N.div_lt; lia|].
  pose proof (N.div_mod x 10). pose proof (N.mod_lt x 10).
  split; [lia|]. intros _.
  destruct (decide (x `div` 10 = 0)%N) as [Hq|Hq].
  - rewrite Hq, pretty_N_go_0. simpl. lia.
  - specialize (Hge ltac:(lia)).
    set (P := (10 ^ _)%N) in *. clearbody P. clear IH.
    specialize (H ltac:(done)). specialize (H0 ltac:(done)).
    remember (x `div` 10)%N as q. remember (x `mod` 10)%N as r.
    clear Heqq Heqr. lia.
Qed.
(** ** The identifiers of the sequence *)
Import Db.

Lemma pretty_Z_pos (v : Z) :
  0 < v -> pretty v = pretty_N_go (Z.to_N v) "".
Proof.
  destruct v as [|p|p]; [lia| |lia]. intros _.
  unfold pretty, pretty_Z, pretty, pretty_positive, pretty, pretty_N.
  by destruct (decide (N.pos p = 0%N)).
Qed.

Lemma digits_go_zeros (k : nat) (s : string) :
  digits_go 10 (string_of_list_ascii (repeat "0"%char k) +:+ s) 0
  = digits_go 10 s 0.
Proof.
  induction k as [|k IH]; [done|].
  simpl repeat. simpl string_of_list_ascii. rewrite string_app_cons.
  cbn [digits_go]. exact IH.
Qed.

Lemma lpad6_value (s : string) :
  (String.length s <= 6)%nat ->
  digits_go 10 (lpad6 s) 0 = digits_go 10 s 0.
Proof.
  intros Hn. unfold lpad6.
  destruct (6 <=? String.length s)%nat eqn:H6.
  - apply Nat.leb_le in H6.
    replace 6%nat with (String.length s) by lia. by rewrite substring_all.
  - apply digits_go_zeros.
Qed.

Lemma pretty_length_le (v : Z) :
  0 <= v < 10 ^ 6 -> (String.length (pretty v) <= 6)%nat.
Proof.
  intros [H0 H6]. destruct (decide (v = 0)) as [->|Hv]; [simpl; lia|].
  rewrite pretty_Z_pos by lia.
  destruct (pretty_N_go_length (Z.to_N v)) as [_ Hge].
  specialize (Hge ltac:(lia)).
  destruct (le_lt_dec (String.length (pretty_N_go (Z.to_N v) "")) 6)
    as [Hle|Hgt]; [done|exfalso].
  assert (10 ^ 7 <= 10 ^ N.of_nat (String.length (pretty_N_go (Z.to_N v) "")))%N
    as Hp by (apply N.pow_le_mono_r; lia).
  assert (Z.to_N v < 10 ^ 6)%N as Hv6.
  { change (10 ^ 6)%N with (Z.to_N (10 ^ 6)). lia. }
  set (P := (10 ^ N.of_nat _)%N) in *. clearbody P.
  change (10 ^ 7)%N with 10000000%N in Hp.
  change (10 ^ 6)%N with 1000000%N in Hv6. lia.
Qed.

(** The number of an identifier can be read off it again. *)
Lemma cm_id_value (v : Z) :
  0 <= v < 10 ^ 6 -> digits_go 10 (lpad6 (pretty v)) 0 = Z.to_N v.
Proof.
  intros Hv. rewrite lpad6_value by by apply pretty_length_le.
  destruct (decide (v = 0)) as [->|Hne]; [done|].
  rewrite pretty_Z_pos by lia.
  rewrite <- (string_app_nil_r (pretty_N_go _ _)), digits_go_pretty.
  simpl. lia.
Qed.

Lemma cm_id_of_seq_inj (v1 v2 : Z) :
  0 <= v1 < 10 ^ 6 -> 0 <= v2 < 10 ^ 6 ->
  cm_id_of_seq v1 = cm_id_of_seq v2 -> v1 = v2.
Proof.
  intros H1 H2 Heq. unfold cm_id_of_seq in Heq.
  rewrite !string_app_cons, !string_app_nil_l in Heq.
  injection Heq as Heq.
  apply (f_equal (fun s => digits_go 10 s 0)) in Heq.
  rewrite !cm_id_value in Heq by done.
  apply Z2N.inj in Heq; [done|apply H1|apply H2].
Qed.

Lemma issue_range es : forall last id,
  Forall (fun e => query_ok e = true) es ->
  id ∈ issue es last ->
  exists v, last < v <= last + Z.of_nat (length es) /\ id = cm_id_of_seq v.
Proof.
  induction es as [|e es IH]; intros last id Hok Hin; simpl in Hin.
  { by apply elem_of_nil in Hin. }
  apply Forall_cons in Hok as [He Hok].
  unfold generateCmId_pool in Hin. rewrite He in Hin. unfold nextval in Hin.
  apply elem_of_cons in Hin as [->|Hin].
  - exists (last + 1). simpl. split; [lia|done].
  - apply IH in Hin as (v & Hv & ->); [|done].
    exists v. simpl. split; [lia|done].
Qed.

(** While the sequence answers and has not passed 999999, the identifiers
    that [generateCmId] hands out are pairwise distinct. *)
Theorem issue_distinct (es : list cm_env) (last : Z) :
  Forall (fun e => query_ok e = true) es ->
  0 <= last -> last + Z.of_nat (length es) < 10 ^ 6 ->
  NoDup (issue es last).
Proof.
  revert last. induction es as [|e es IH]; intros last Hok H0 Hn; simpl.
  { constructor. }
  pose proof Hok as Hok'. apply Forall_cons in Hok' as [He Hes].
  unfold generateCmId_pool. rewrite He. unfold nextval.
  simpl in Hn. constructor.
  - intros Hin. apply issue_range in Hin as (v & Hv & Heq); [|done].
    apply cm_id_of_seq_inj in Heq; lia.
  - apply IH; [done|lia|lia].
Qed.

Lemma issue_distinct_witness :
  let e := {| query_ok := true; now := 1700000123456 |} in
  issue [e; e; e] 41 = ["CM000042"; "CM000043"; "CM000044"]%string /\
  NoDup (issue [e; e; e] 41).
Proof.
  intros e. split; [reflexivity|].
  apply (issue_distinct [e; e; e] 41); [repeat constructor|lia|simpl; lia].
Defined.

(** From the millionth value on, the identifier is cut to six digits and
    loses the last digit of its number: it is the identifier of a tenth of
    the value, which the sequence handed out before. *)
Theorem cm_id_of_seq_wraps (v : Z) :
  10 ^ 6 <= v -> cm_id_of_seq v = cm_id_of_seq (v / 10).
Proof.
  intros Hv. unfold cm_id_of_seq. f_equal.
  assert (0 < v / 10) as Hq by (apply Z.div_str_pos; lia).
  rewrite !pretty_Z_pos by lia.
  rewrite (pretty_N_go_snoc (Z.to_N v)) by lia.
  replace (Z.to_N v `div` 10)%N with (Z.to_N (v / 10))
    by (rewrite Z2N.inj_div by lia; done).
  set (D := pretty_N_go (Z.to_N (v / 10)) "").
  assert (6 <= String.length D)%nat as Hlen.
  { destruct (pretty_N_go_length (Z.to_N (v / 10))) as [Hlt _].
    fold D in Hlt.
    destruct (le_lt_dec 6 (String.length D)) as [Hle|Hgt]; [done|exfalso].
    assert (10 ^ N.of_nat (String.length D) <= 10 ^ 5)%N as Hp
      by (apply N.pow_le_mono_r; lia).
    assert (10 ^ 5 <= Z.to_N (v / 10))%N as H5.
    { change (10 ^ 5)%N with (Z.to_N (10 ^ 5)).
      apply Z2N.inj_le; [lia|lia|].
      apply Z.div_le_lower_bound; lia. }
    set (P := (10 ^ N.of_nat _)%N) in *. clearbody P. lia. }
  unfold lpad6. rewrite string_app_length.
  rewrite (proj2 (Nat.leb_le 6 _)) by lia.
  rewrite (proj2 (Nat.leb_le 6 _)) by lia.
  by apply substring_app_l.
Qed.

Lemma cm_id_of_seq_wraps_witness :
  10 ^ 6 <= 1000000 /\
  cm_id_of_seq 1000000 = "CM100000"%string /\
  cm_id_of_seq 1000000 = cm_id_of_seq (1000000 / 10).
Proof.
  split; [lia|]. split; [reflexivity|].
  apply (cm_id_of_seq_wraps 1000000). lia.
Defined.

(** ** The payload of a deposit *)
Import JsNumber JsString Balance Bot CryptoBot.

(** The numeral of a positive number starts with a digit other than 0. *)
Lemma pretty_N_go_first (x : N) :
  (0 < x)%N ->
  exists d s, (0 < d < 10)%N /\
              pretty_N_go x "" = String (pretty_N_char d) s.
Proof.
  induction (N.lt_wf_0 x) as [x _ IH]; intros Hx.
  rewrite pretty_N_go_snoc by done.
  destruct (decide (x `div` 10 = 0)%N) as [Hq|Hq].
  - rewrite Hq, pretty_N_go_0, string_app_nil_l.
    exists (x `mod` 10)%N, ""%string. split; [|done].
    pose proof (N.div_mod x 10 ltac:(done)) as Hdm.
    pose proof (N.mod_lt x 10 ltac:(done)) as Hm.
    remember (x `div` 10)%N as q. remember (x `mod` 10)%N as r.
    clear Heqq Heqr IH. lia.
  - destruct (IH (x `div` 10)%N) as (d & s & Hd & ->);
      [apply N.div_lt; lia|by apply N.neq_0_lt_0|].
    exists d. eexists. split; [done|]. by rewrite string_app_cons.
Qed.

Lemma parseInt_numeral (d : N) (s : string) :
  (0 < d < 10)%N ->
  parseInt (String (pretty_N_char d) s)
  = Some (Z.of_N (digits_go 10 (String (pretty_N_char d) s) 0)) /\
  parseInt (String "-" (String (pretty_N_char d) s))
  = Some (- Z.of_N (digits_go 10 (String (pretty_N_char d) s) 0)).
Proof.
  intros Hd.
  assert (d = 1 \/ d = 2 \/ d = 3 \/ d = 4 \/ d = 5 \/ d = 6 \/ d = 7 \/
          d = 8 \/ d = 9)%N as H by lia.
  repeat (destruct H as [->|H]; [done|]). by subst.
Qed.

(** [parseInt] reads back the integer that a template literal printed. *)
Lemma parseInt_pretty (v : Z) : parseInt (pretty v) = Some v.
Proof.
  destruct v as [|p|p]; [done| |].
  - rewrite (pretty_Z_pos (Z.pos p)) by lia.
    destruct (pretty_N_go_first (Z.to_N (Z.pos p))) as (d & s & Hd & Hs);
      [lia|].
    rewrite Hs. rewrite (proj1 (parseInt_numeral d s Hd)), <- Hs.
    rewrite <- (string_app_nil_r (pretty_N_go _ _)), digits_go_pretty.
    simpl. f_equal.
  - change (pretty (Z.neg p)) with ("-" +:+ pretty (Z.pos p)).
    rewrite (pretty_Z_pos (Z.pos p)) by lia.
    destruct (pretty_N_go_first (Z.to_N (Z.pos p))) as (d & s & Hd & Hs);
      [lia|].
    rewrite Hs, string_app_cons, string_app_nil_l.
    rewrite (proj2 (parseInt_numeral d s Hd)), <- Hs.
    rewrite <- (string_app_nil_r (pretty_N_go _ _)), digits_go_pretty.
    simpl. f_equal.
Qed.

Lemma prefix_nil (s : string) : String.prefix "" s = true.
Proof. by destruct s. Qed.

Lemma deposit_payload_prefix (userId : Z) :
  startsWith "deposit_" (deposit_payload userId) = true /\
  replace "deposit_" "" (deposit_payload userId) = pretty userId.
Proof.
  unfold deposit_payload, startsWith, replace.
  rewrite !string_app_cons, string_app_nil_l.
  split; [simpl; apply prefix_nil|].
  simpl. rewrite prefix_nil. simpl. rewrite string_app_nil_l, Nat.sub_0_r.
  apply substring_all.
Qed.

Section DepositFacts.
Context {money : Type}.
Variable money_add : money -> num -> money.

(** A notice of payment for the invoice of a deposit is honoured for the
    user the payload names and for nobody else: with the payload that the
    bot gives its invoices, [handlePayment] credits the amount to the user
    of the notice when that user is the one named, and changes nothing
    when it is another one.  A notice whose status is not [paid] changes
    nothing either. *)
Theorem handlePayment_deposit (pool db_fault : bool) (userId payer : Z)
  (amount : num) (status : string) (s : ledger) (u : gmap Z user_row) :
  handlePayment money_add pool db_fault
    {| i_status := status; i_payload := deposit_payload userId;
       i_amount := amount; i_user_id := payer |} s u
  = if String.eqb status "paid" && bool_decide (userId = payer)
    then (snd (addBalance s payer amount),
          if pool && negb db_fault
          then update_balance money_add payer amount u else u)
    else (s, u).
Proof.
  unfold handlePayment. cbn [i_status i_payload i_amount i_user_id].
  destruct (String.eqb status "paid"); [|done]. cbn [negb andb].
  destruct (deposit_payload_prefix userId) as [-> ->].
  rewrite parseInt_pretty.
  case_bool_decide as H1; case_bool_decide as H2; try done.
  - exfalso. apply H1. by subst.
  - exfalso. apply H2. by injection H1.
Qed.

End DepositFacts.

(** ** Migration 002 *)
Import Bot Migrations.

Lemma min_of_group_app (tbl : table) (r : proxy_row) (i : nat) :
  (i < length tbl)%nat ->
  min_of_group (tbl ++ [r]) i = min_of_group tbl i.
Proof.
  intros Hi. unfold min_of_group.
  rewrite lookup_app_l by done. rewrite take_app_le by lia. done.
Qed.

Lemma min_of_group_last (tbl : table) (r : proxy_row) :
  min_of_group (tbl ++ [r]) (length tbl)
  = match proxy_id r with
    | Some k => bool_decide (k ∉ proxy_ids tbl)
    | None => false
    end.
Proof.
  unfold min_of_group. rewrite list_lookup_middle by done.
  by rewrite take_app_length.
Qed.

(** Row by row: a row stays when it has a key that no row before it has. *)
Lemma delete_duplicates_snoc (tbl : table) (r : proxy_row) :
  delete_duplicates (tbl ++ [r])
  = delete_duplicates tbl
    ++ match proxy_id r with
       | Some k => if bool_decide (k ∈ proxy_ids tbl) then [] else [r]
       | None => []
       end.
Proof.
  unfold delete_duplicates. rewrite imap_app, List.filter_app, fmap_app.
  f_equal.
  - f_equal. apply List.filter_ext_in. intros [i x] Hin. simpl.
    apply min_of_group_app.
    apply list_elem_of_In, elem_of_lookup_imap in Hin
      as (j & y & [= -> ->] & Hj).
    by apply lookup_lt_Some in Hj.
  - simpl. rewrite Nat.add_0_r, min_of_group_last.
    destruct (proxy_id r) as [k|]; [|done].
    case_bool_decide; case_bool_decide; done.
Qed.

Lemma delete_duplicates_facts (tbl : table) :
  unique_proxy_id (delete_duplicates tbl) /\
  (forall k, k ∈ proxy_ids (delete_duplicates tbl) <-> k ∈ proxy_ids tbl) /\
  delete_duplicates tbl `sublist_of` tbl /\
  Forall (fun r => is_Some (proxy_id r)) (delete_duplicates tbl).
Proof.
  induction tbl as [|r tbl IH] using rev_ind.
  { repeat split; try done; constructor. }
  destruct IH as (Hu & Hk & Hs & Ha).
  rewrite delete_duplicates_snoc.
  destruct (proxy_id r) as [k|] eqn:Hr.
  - case_bool_decide as Hin.
    + rewrite app_nil_r. split; [done|]. split; [|split; [|done]].
      * intros j. rewrite Hk, proxy_ids_app, elem_of_app.
        unfold proxy_ids at 3. simpl. rewrite Hr. simpl.
        rewrite list_elem_of_singleton. split; [tauto|].
        intros [H| ->]; done.
      * by apply sublist_inserts_r.
    + split; [|split; [|split]].
      * apply unique_proxy_id_snoc; [done|]. rewrite Hr. by rewrite Hk.
      * intros j. rewrite !proxy_ids_app, !elem_of_app, Hk. done.
      * by apply sublist_app.
      * apply Forall_app. split; [done|]. constructor; [|constructor].
        by rewrite Hr.
  - rewrite app_nil_r. split; [done|]. split; [|split; [|done]].
    + intros j. rewrite Hk, proxy_ids_app, elem_of_app.
      unfold proxy_ids at 3. simpl. rewrite Hr. simpl.
      rewrite elem_of_nil. tauto.
    + by apply sublist_inserts_r.
Qed.

(** Migration 002 always goes through, and what its DELETE leaves is this:
    of the rows with a key, the first row of each key, in their order, so
    that every key that was in the table is still there, once; and no row
    without a key: the rows whose [proxy_id] is NULL are deleted with the
    duplicates. *)
Theorem migration_002_result (tbl : table) :
  migration_002 tbl = Some (delete_duplicates tbl) /\
  unique_proxy_id (delete_duplicates tbl) /\
  (forall k, k ∈ proxy_ids (delete_duplicates tbl) <-> k ∈ proxy_ids tbl) /\
  delete_duplicates tbl `sublist_of` tbl /\
  Forall (fun r => is_Some (proxy_id r)) (delete_duplicates tbl).
Proof.
  destruct (delete_duplicates_facts tbl) as (Hu & Hk & Hs & Ha).
  split; [|done].
  unfold migration_002, add_constraint. by rewrite bool_decide_eq_true_2.
Qed.

(** A table that has a key in every row and no key twice is left as it
    is by the migration. *)
Theorem migration_002_keeps_clean_table (tbl : table) :
  unique_proxy_id tbl -> Forall (fun r => is_Some (proxy_id r)) tbl ->
  migration_002 tbl = Some tbl.
Proof.
  intros Hu Ha.
  assert (delete_duplicates tbl = tbl) as Hd.
  { induction tbl as [|r tbl IH] using rev_ind; [done|].
    rewrite delete_duplicates_snoc.
    apply Forall_app in Ha as [Ha Hr].
    apply Forall_singleton in Hr as [k Hr].
    unfold unique_proxy_id in Hu. rewrite proxy_ids_app in Hu.
    apply NoDup_app in Hu as (Hu & Hdis & _).
    rewrite IH by done. rewrite Hr.
    rewrite bool_decide_eq_false_2; [done|].
    intros Hin. apply (Hdis k Hin). unfold proxy_ids. simpl. rewrite Hr.
    simpl. left. }
  unfold migration_002, add_constraint. rewrite Hd.
  by rewrite bool_decide_eq_true_2.
Qed.

Lemma migration_002_keeps_clean_table_witness :
  unique_proxy_id [Scenario.row7 Scenario.bob "CM000001"] /\
  migration_002 [Scenario.row7 Scenario.bob "CM000001"]
  = Some [Scenario.row7 Scenario.bob "CM000001"].
Proof.
  assert (unique_proxy_id [Scenario.row7 Scenario.bob "CM000001"]) as Hu
    by apply NoDup_singleton.
  split; [exact Hu|].
  apply (migration_002_keeps_clean_table _ Hu).
  repeat constructor. by eexists.
Defined.

(** ** Keyboards *)
Import Bot.

Lemma chunk_loop_spec {A : Type} (array : list A) (size : nat) :
  (0 < size)%nat ->
  forall fuel i out,
  (length array - i <= fuel)%nat ->
  exists rest,
    chunk_loop fuel array size i out = Some (out ++ rest) /\
    concat rest = drop i array /\
    Forall (fun c => (0 < length c <= size)%nat) rest.
Proof.
  intros Hsize. induction fuel as [|fuel IH]; intros i out Hfuel; simpl.
  - destruct (i <? length array)%nat eqn:Hi.
    { apply Nat.ltb_lt in Hi. lia. }
    apply Nat.ltb_ge in Hi. exists []. rewrite app_nil_r.
    split; [done|]. split; [|constructor].
    simpl. by rewrite drop_ge.
  - destruct (i <? length array)%nat eqn:Hi.
    + apply Nat.ltb_lt in Hi.
      destruct (IH (i + size)%nat (out ++ [take size (drop i array)]))
        as (rest & -> & Hcat & Hall); [lia|].
      exists (take size (drop i array) :: rest).
      rewrite <- app_assoc. split; [done|]. split.
      * simpl. rewrite Hcat, <- drop_drop. apply take_drop.
      * constructor; [|done].
        rewrite length_take, length_drop. lia.
    + apply Nat.ltb_ge in Hi. exists []. rewrite app_nil_r.
      split; [done|]. split; [|constructor].
      simpl. by rewrite drop_ge.
Qed.

(** [chunk] cuts the array into rows without losing, repeating or
    reordering an element: for a size above zero the loop ends within as
    many rounds as the array has elements, the rows put one after the
    other are the array, and every row has at least one and at most
    [size] elements. *)
Theorem chunk_rows {A : Type} (fuel : nat) (array : list A) (size : nat) :
  (0 < size)%nat -> (length array <= fuel)%nat ->
  exists out,
    chunk fuel array size = Some out /\
    concat out = array /\
    Forall (fun row => (0 < length row <= size)%nat) out.
Proof.
  intros Hsize Hfuel.
  destruct (chunk_loop_spec array size Hsize fuel 0%nat [])
    as (rest & Hrun & Hcat & Hall); [lia|].
  exists rest. by rewrite drop_0 in Hcat.
Qed.

Lemma chunk_rows_witness :
  chunk 7 [1; 2; 3; 4; 5; 6; 7] 3 = Some [[1; 2; 3]; [4; 5; 6]; [7]] /\
  exists out,
    chunk 7 [1; 2; 3; 4; 5; 6; 7] 3 = Some out /\
    concat out = [1; 2; 3; 4; 5; 6; 7] /\
    Forall (fun row => (0 < length row <= 3)%nat) out.
Proof.
  split; [reflexivity|].
  apply (chunk_rows 7 [1; 2; 3; 4; 5; 6; 7] 3); simpl; lia.
Defined.

(** With the size 0 the loop of [chunk] never ends on an array that is not
    empty: no number of rounds is enough. *)
Theorem chunk_size_zero_runs_on {A : Type} (fuel : nat) (array : list A) :
  array <> [] -> chunk fuel array 0 = None.
Proof.
  intros Harr. unfold chunk. generalize (@nil (list A)) as out.
  assert ((0 <? length array)%nat = true) as Hi
    by (apply Nat.ltb_lt; destruct array; [done|simpl; lia]).
  induction fuel as [|fuel IH]; intros out; simpl; rewrite Hi; [done|].
  apply IH.
Qed.

Lemma chunk_size_zero_runs_on_witness :
  [1] <> @nil Z /\ chunk 1000 [1] 0 = None.
Proof.
  split; [discriminate|]. apply (chunk_size_zero_runs_on 1000 [1]).
  discriminate.
Defined.

(** *** The pages of the country keyboard *)

Lemma pages_concat {A : Type} (n : nat) :
  (0 < n)%nat ->
  forall (k : nat) (l : list A),
  (length l <= k * n)%nat ->
  flat_map (fun p => take n (drop (p * n) l)) (seq 0 k) = l.
Proof.
  intros Hn. induction k as [|k IH]; intros l Hl.
  - destruct l; [done|simpl in Hl; lia].
  - change (seq 0 (S k)) with (0%nat :: seq 1 k).
    rewrite <- seq_shift. cbn [flat_map].
    rewrite flat_map_concat_map, map_map, <- flat_map_concat_map.
    rewrite (flat_map_ext _ (fun p => take n (drop (p * n) (drop n l)))).
    + rewrite IH by (rewrite length_drop; lia).
      simpl. apply take_drop.
    + intros p. by rewrite drop_drop.
Qed.

Lemma totalPages_covers {A : Type} (l : list A) :
  1 <= totalPages l /\
  Z.of_nat (length l) <= totalPages l * PAGE_SIZE /\
  (l <> [] -> (totalPages l - 1) * PAGE_SIZE < Z.of_nat (length l)).
Proof.
  unfold totalPages, PAGE_SIZE.
  remember (Z.of_nat (length l)) as n.
  assert (0 <= n) as Hn by lia.
  assert (l <> [] -> 0 < n) as Hpos.
  { intros Hl. destruct l; [done|]. simpl in Heqn. lia. }
  clear Heqn.
  pose proof (Z.div_mod (n + 18 - 1) 18 ltac:(lia)) as Hdm.
  pose proof (Z.mod_pos_bound (n + 18 - 1) 18 ltac:(lia)) as Hm.
  remember ((n + 18 - 1) / 18) as q. remember ((n + 18 - 1) mod 18) as r.
  clear Heqq Heqr. split; [lia|]. split; [lia|].
  intros Hl. specialize (Hpos Hl). lia.
Qed.

(** The pages of the country keyboard show every country once: the pages
    0 to [totalPages - 1], one after the other, are the list of the
    countries, in its order. *)
Theorem pages_cover {A : Type} (filtered : list A) :
  flat_map (fun p => page_slice filtered (Z.of_nat p))
    (seq 0 (Z.to_nat (totalPages filtered)))
  = filtered.
Proof.
  destruct (totalPages_covers filtered) as (H1 & Hlen & _).
  unfold PAGE_SIZE in Hlen.
  rewrite flat_map_concat_map.
  rewrite (map_ext_in _ (fun p => take 18 (drop (p * 18) filtered))).
  - rewrite <- flat_map_concat_map. apply pages_concat; lia.
  - intros p Hp. apply in_seq in Hp.
    unfold page_slice, safePage, PAGE_SIZE.
    rewrite Z.max_r, Z.min_l by lia. f_equal. f_equal. lia.
Qed.

(** Whatever page is asked for, the keyboard shows countries when there
    are any: a page number out of range is brought back into range, and
    no page in range is empty. *)
Theorem page_slice_nonempty {A : Type} (filtered : list A) (page : Z) :
  filtered <> [] ->
  page_slice filtered page <> [] /\
  0 <= safePage filtered page < totalPages filtered.
Proof.
  intros Hl. destruct (totalPages_covers filtered) as (H1 & _ & Hlast).
  specialize (Hlast Hl). unfold PAGE_SIZE in Hlast.
  assert (0 <= safePage filtered page < totalPages filtered) as Hsafe
    by (unfold safePage; lia).
  split; [|done]. unfold page_slice, PAGE_SIZE.
  intros Hnil. apply (f_equal length) in Hnil.
  rewrite length_take, length_drop in Hnil.
  assert (safePage filtered page * 18 <= (totalPages filtered - 1) * 18)
    as Hle by lia.
  remember (safePage filtered page * 18) as start.
  change (Z.to_nat 18) with 18%nat in Hnil. cbn [length] in Hnil. lia.
Qed.

Lemma page_slice_nonempty_witness :
  [1; 2; 3] <> @nil Z /\
  page_slice [1; 2; 3] 5 <> [] /\
  0 <= safePage [1; 2; 3] 5 < totalPages [1; 2; 3].
Proof.
  split; [discriminate|].
  apply (page_slice_nonempty [1; 2; 3] 5). discriminate.
Defined.

(** ** What a purchase stores *)
Import JsNumber Bot.

(** A saved row is appended to the table; it belongs to the buyer and
    carries the key of its candidate, which no row had before. *)
Lemma claim_one_cases userId proxyType orderId ce p tbl seq :
  match claim_one userId proxyType orderId ce p tbl seq with
  | (tbl', _, Saved row) =>
      tbl' = tbl ++ [row] /\ telegram_id row = userId /\
      exists k, p_id p = Some k /\ k <> 0 /\ proxy_id row = Some k /\
                k ∉ proxy_ids tbl
  | (tbl', _, _) => tbl' = tbl
  end.
Proof.
  unfold claim_one. destruct (p_id p) as [k|]; [|done].
  destruct (k =? 0) eqn:Hk; [done|]. apply Z.eqb_neq in Hk.
  destruct (claim_check tbl userId (check_fault ce) k); [done|].
  destruct (Db.generateCmId_pool (cm ce) seq) as [cmId seq1].
  pose proof (claim_insert_cases tbl (insert_fault ce)
                (make_row userId cmId k proxyType orderId p)) as H.
  destruct (claim_insert tbl (insert_fault ce) _) as [tbl1 [why|row|msg]];
    [done| |done].
  destruct H as (-> & -> & Hfree). simpl in Hfree.
  split; [done|]. split; [done|]. by exists k.
Qed.

Lemma claim_loop_cases quantity userId proxyType orderId ce ps :
  forall tbl seq saved,
  match claim_loop quantity userId proxyType orderId ce ps tbl seq saved with
  | (tbl', _, saved', _) =>
      exists new, tbl' = tbl ++ new /\ saved' = saved ++ new /\
        Forall (owned_by userId) new /\
        (unique_proxy_id tbl -> unique_proxy_id tbl') /\
        Z.of_nat (length saved')
        <= Z.max quantity (Z.of_nat (length saved))
  end.
Proof.
  induction ps as [|p ps IH]; intros tbl seq saved; simpl.
  { exists []. rewrite !app_nil_r. repeat split; [constructor|done|lia]. }
  destruct (quantity <=? Z.of_nat (length saved)) eqn:Hq.
  { exists []. rewrite !app_nil_r. repeat split; [constructor|done|lia]. }
  apply Z.leb_gt in Hq.
  pose proof (claim_one_cases userId proxyType orderId (ce (id_key p)) p
                tbl seq) as H1.
  destruct (claim_one _ _ _ _ _ _ _) as [[tbl1 seq1] [why|row|msg]].
  - subst tbl1. apply IH.
  - destruct H1 as (-> & Hown & k & _ & _ & Hk & Hfree).
    specialize (IH (tbl ++ [row]) seq1 (saved ++ [row])).
    destruct (claim_loop _ _ _ _ _ _ _ _ _) as [[[tbl2 seq2] saved2] raised].
    destruct IH as (new & -> & -> & Hnew & Hu & Hlen).
    exists (row :: new). rewrite <- !app_assoc. simpl.
    split; [done|]. split; [done|].
    split; [constructor; [split; [done|by rewrite Hk]|done]|].
    split.
    + intros Hu0.
      replace (tbl ++ row :: new) with ((tbl ++ [row]) ++ new)
        by (by rewrite <- app_assoc).
      apply Hu. apply unique_proxy_id_snoc; [done|by rewrite Hk].
    + rewrite !length_app in Hlen. rewrite !length_app. simpl in *. lia.
  - subst tbl1. exists []. rewrite !app_nil_r.
    repeat split; [constructor|done|lia].
Qed.

(** The claim loop only appends.  The table afterwards is the table
    before, followed by exactly the rows reported as saved; each of them
    belongs to the buyer; at most [quantity] rows are saved; and the
    constraint on the keys is kept.  No row already stored is changed or
    removed, whoever owns it. *)
Theorem claim_loop_appends (quantity userId : Z) (proxyType : string)
  (orderId : option Z) (ce : Z -> claim_env) (ps : list api_proxy)
  (tbl : table) (seq : Z) :
  let '(tbl', _, saved', _) :=
    claim_loop quantity userId proxyType orderId ce ps tbl seq [] in
  tbl' = tbl ++ saved' /\
  Forall (fun r => telegram_id r = userId /\ is_Some (proxy_id r)) saved' /\
  Z.of_nat (length saved') <= Z.max quantity 0 /\
  (unique_proxy_id tbl -> unique_proxy_id tbl').
Proof.
  pose proof (claim_loop_cases quantity userId proxyType orderId ce ps
                tbl seq []) as H.
  destruct (claim_loop _ _ _ _ _ _ _ _ _) as [[[tbl' seq'] saved'] raised].
  destruct H as (new & -> & Hs & Hnew & Hu & Hlen). simpl in Hs. subst.
  done.
Qed.
Lemma fetch_loop_cases remaining quantity userId proxyType orderCountry
  orderId boughtProxyIds fetch ce :
  forall st,
  match fetch_loop remaining quantity userId proxyType orderCountry orderId
          boughtProxyIds fetch ce st with
  | (st', _) =>
      exists new, l_table st' = l_table st ++ new /\
        l_saved st' = l_saved st ++ new /\
        Forall (owned_by userId) new /\
        (unique_proxy_id (l_table st) -> unique_proxy_id (l_table st')) /\
        Z.of_nat (length (l_saved st'))
        <= Z.max quantity (Z.of_nat (length (l_saved st)))
  end.
Proof.
  assert (forall st : loop_state,
            exists new, l_table st = l_table st ++ new /\
              l_saved st = l_saved st ++ new /\
              Forall (owned_by userId) new /\
              (unique_proxy_id (l_table st) -> unique_proxy_id (l_table st)) /\
              Z.of_nat (length (l_saved st))
              <= Z.max quantity (Z.of_nat (length (l_saved st)))) as Hrefl.
  { intros st. exists []. rewrite !app_nil_r.
    repeat split; [constructor|done|lia]. }
  induction remaining as [|n IH]; intros st; cbn [fetch_loop];
    [apply Hrefl|].
  destruct (quantity <=? Z.of_nat (length (l_saved st))); [apply Hrefl|].
  set (st1 := {| l_table := l_table st; l_saved := l_saved st;
                 l_outside := emit (GetProxyCredentials (maxAttempts - n))
                                (l_outside st) |}).
  assert (forall st2 : loop_state,
    (exists new, l_table st2 = l_table st ++ new /\
        l_saved st2 = l_saved st ++ new /\
        Forall (owned_by userId) new /\
        (unique_proxy_id (l_table st) -> unique_proxy_id (l_table st2)) /\
        Z.of_nat (length (l_saved st2))
        <= Z.max quantity (Z.of_nat (length (l_saved st)))) ->
    match fetch_loop n quantity userId proxyType orderCountry orderId
            boughtProxyIds fetch ce st2 with
    | (st', _) =>
        exists new, l_table st' = l_table st ++ new /\
          l_saved st' = l_saved st ++ new /\
          Forall (owned_by userId) new /\
          (unique_proxy_id (l_table st) -> unique_proxy_id (l_table st')) /\
          Z.of_nat (length (l_saved st'))
          <= Z.max quantity (Z.of_nat (length (l_saved st)))
    end) as Hagain.
  { intros st2 (new1 & Ht1 & Hs1 & Hn1 & Hu1 & Hl1).
    specialize (IH st2).
    destruct (fetch_loop n _ _ _ _ _ _ _ _ st2) as [st' r].
    destruct IH as (new2 & Ht2 & Hs2 & Hn2 & Hu2 & Hl2).
    exists (new1 ++ new2).
    split; [by rewrite Ht2, Ht1, app_assoc|].
    split; [by rewrite Hs2, Hs1, app_assoc|].
    split; [by apply Forall_app|].
    split; [intros H; apply Hu2, Hu1, H|lia]. }
  destruct (fetch (maxAttempts - n)%nat) as [msg|[|p ps]].
  - destruct (maxAttempts <=? maxAttempts - n)%nat;
      [apply (Hrefl st1)|apply Hagain, (Hrefl st1)].
  - destruct (maxAttempts - n <? maxAttempts)%nat;
      [apply Hagain, (Hrefl st1)|].
    destruct (maxAttempts <=? maxAttempts - n)%nat;
      [apply (Hrefl st1)|apply Hagain, (Hrefl st1)].
  - destruct (bool_decide _ && _); [apply Hagain, (Hrefl st1)|].
    pose proof (claim_loop_cases quantity userId proxyType orderId
                  (ce (maxAttempts - n)%nat)
                  (map (enrich orderCountry)
                     (select_candidates boughtProxyIds orderId quantity
                        (p :: ps)))
                  (l_table st1) (cm_id_seq (l_outside st1)) (l_saved st1))
      as Hc.
    destruct (claim_loop _ _ _ _ _ _ _ _ _) as [[[tbl1 seq1] saved1] raised].
    assert (exists new, tbl1 = l_table st ++ new /\
        saved1 = l_saved st ++ new /\
        Forall (owned_by userId) new /\
        (unique_proxy_id (l_table st) -> unique_proxy_id tbl1) /\
        Z.of_nat (length saved1)
        <= Z.max quantity (Z.of_nat (length (l_saved st)))) as Hc' by exact Hc.
    clear Hc.
    destruct raised as [msg|].
    + destruct (maxAttempts <=? maxAttempts - n)%nat;
        [exact Hc'|by apply Hagain].
    + destruct (quantity <=? Z.of_nat (length saved1));
        [exact Hc'|by apply Hagain].
Qed.
Section PurchaseOutcome.
Context {money : Type}.
Variable money_zero : money.
Variable money_sub : money -> num -> money.
Variable money_to_js : money -> num.

(** The price a purchase goes on with is above zero. *)
Lemma quote_price_positive amount e x x1 p :
  quote_price amount e x = (x1, inr p) -> js_gt p zero = true.
Proof.
  assert (forall a : num,
            js_le (if falsy a then zero else a) zero = false ->
            js_gt (if falsy a then zero else a) zero = true) as Hpos.
  { intros [[]|[]| |[] m ex]; done. }
  unfold quote_price.
  destruct (js_le (if falsy amount then zero else amount) zero) eqn:H0.
  - destruct (price e) as [msg|finalUsd]; [done|].
    destruct (js_le (if falsy finalUsd then zero else finalUsd) zero) eqn:H1;
      [done|].
    intros [= <- <-]. by apply Hpos.
  - intros [= <- <-]. by apply Hpos.
Qed.

(** What the callback of a purchase has done when it returns a receipt. *)
Lemma purchase_receipt userId name type country quantity amount e
  (d d1 : @database money) x x1 rc :
  purchase money_zero money_sub money_to_js userId name type country
    quantity amount e d x = (d1, x1, inr rc) ->
  exists u,
    users d !! userId = Some u /\
    js_lt (money_to_js (balance u)) (totalPrice rc) = false /\
    users d1
    = <[userId := {| balance := money_sub (balance u) (totalPrice rc);
                     proxies_purchased :=
                       proxies_purchased u
                       + Z.of_nat (length (savedProxies rc));
                     username := username u |}]> (users d) /\
    finalBalance rc = money_to_js (money_sub (balance u) (totalPrice rc)) /\
    user_proxies d1 = user_proxies d ++ savedProxies rc /\
    Forall (owned_by userId) (savedProxies rc) /\
    1 <= Z.of_nat (length (savedProxies rc)) <= quantity /\
    js_gt (totalPrice rc) zero = true /\
    (unique_proxy_id (user_proxies d) -> unique_proxy_id (user_proxies d1)).
Proof.
  unfold purchase.
  destruct (quote_price amount e x) as [xq [errq|p]] eqn:Hq; [done|].
  apply quote_price_positive in Hq.
  unfold debit.
  destruct (users d !! userId) as [u|] eqn:Hu; [|done].
  destruct (js_lt (money_to_js (balance u)) p) eqn:Hlt; [done|].
  destruct (buy e) as [msg|orderId boughtProxyIds]; [done|].
  destruct (edit_fault e) as [msg|]; [done|].
  match goal with
  | |- context [fetch_loop ?n ?q ?uid ?pt ?c ?o ?b ?f ?ce ?st] =>
      pose proof (fetch_loop_cases n q uid pt c o b f ce st) as Hf;
      destruct (fetch_loop n q uid pt c o b f ce st) as [st' [errf|]]
  end; [done|].
  destruct Hf as (new & Ht & Hs & Hnew & Huniq & Hlen).
  simpl in Ht, Hs, Huniq, Hlen. subst new.
  destruct (l_saved st') as [|row saved] eqn:Hsaved; [done|].
  unfold settle.
  destruct (counter_fault e) as [msg|]; [done|].
  destruct (final_fault e) as [msg|]; [done|].
  intros [= <- <- <-]. exists u. simpl.
  split; [done|]. split; [done|].
  rewrite alter_insert_eq, lookup_insert_eq. simpl.
  split; [done|]. split; [done|]. split; [done|]. split; [done|].
  split; [|done]. simpl in Hlen. lia.
Qed.


(** A purchase, however it ends, leaves no two rows with one key in the
    table: the handler keeps the constraint of migration 002 by itself
    when it runs alone. *)
Theorem buy_action_keeps_unique (pool : bool) (userId : Z)
  (name : option string) (session_order : option order) (e : env)
  (d : @database money) (x : outside) :
  unique_proxy_id (user_proxies d) ->
  unique_proxy_id
    (user_proxies
       (buy_action money_zero money_sub money_to_js pool userId name
          session_order e d x).1.1).
Proof.
  intros Hu. unfold buy_action.
  destruct session_order as [o|]; [|done].
  destruct (order_invalid o); [done|].
  destruct pool; [|done].
  rewrite transact_cases.
  destruct (purchase _ _ _ _ _ _ _ _ _ _ _ _) as [[d1 x1] [err|rc]] eqn:Hp;
    [done|].
  destruct (commit_fault e) as [msg|]; [done|].
  simpl. apply purchase_receipt in Hp as (u & H).
  by apply H.
Qed.

End PurchaseOutcome.
(** *** Candidates without an id *)

Lemma claim_loop_no_ids quantity userId proxyType orderId ce ps :
  forall tbl seq saved,
  Forall (fun p => p_id p = None) ps ->
  claim_loop quantity userId proxyType orderId ce ps tbl seq saved
  = (tbl, seq, saved, None).
Proof.
  induction ps as [|p ps IH]; intros tbl seq saved Hps; simpl; [done|].
  apply Forall_cons in Hps as [Hp Hps].
  destruct (quantity <=? Z.of_nat (length saved)); [done|].
  unfold claim_one. rewrite Hp. by apply IH.
Qed.

Lemma insert_desc_Forall (P : api_proxy -> Prop) x l :
  P x -> Forall P l -> Forall P (insert_desc x l).
Proof.
  intros Hx. induction 1 as [|y l Hy Hl IH]; simpl.
  - by constructor.
  - destruct (id_key y <=? id_key x); repeat constructor; done.
Qed.

Lemma sort_desc_Forall (P : api_proxy -> Prop) l :
  Forall P l -> Forall P (sort_desc l).
Proof.
  induction 1 as [|x l Hx Hl IH]; simpl; [constructor|].
  by apply insert_desc_Forall.
Qed.

Lemma select_candidates_Forall (P : api_proxy -> Prop) ids orderId quantity l :
  Forall P l -> Forall P (select_candidates ids orderId quantity l).
Proof.
  intros Hl. unfold select_candidates. destruct ids as [|i ids].
  - destruct (truthy_int orderId).
    + apply Forall_forall. intros p Hp.
      apply list_elem_of_filter in Hp as [_ Hp].
      by apply (proj1 (Forall_forall P l) Hl).
    + by apply Forall_take, sort_desc_Forall.
  - apply List.Forall_forall. intros p Hp.
    apply List.filter_In in Hp as [Hp _].
    by apply (proj1 (List.Forall_forall P l) Hl).
Qed.

(** One invariant for all the attempts: what holds before, is kept when a
    call goes out and is kept by the claim loop of an attempt, holds
    after. *)
Lemma fetch_loop_invariant (I : loop_state -> Prop) quantity userId
  proxyType orderCountry orderId boughtProxyIds fetch ce :
  (forall st n, I st ->
     I {| l_table := l_table st; l_saved := l_saved st;
          l_outside := emit (GetProxyCredentials n) (l_outside st) |}) ->
  (forall st n p ps tbl' seq' saved' raised, I st ->
     fetch n = FetchReturns (p :: ps) ->
     claim_loop quantity userId proxyType orderId (ce n)
       (map (enrich orderCountry)
          (select_candidates boughtProxyIds orderId quantity (p :: ps)))
       (l_table st) (cm_id_seq (l_outside st)) (l_saved st)
     = (tbl', seq', saved', raised) ->
     I {| l_table := tbl'; l_saved := saved';
          l_outside := set_seq seq' (l_outside st) |}) ->
  forall remaining st st' r,
  fetch_loop remaining quantity userId proxyType orderCountry orderId
    boughtProxyIds fetch ce st = (st', r) ->
  I st -> I st'.
Proof.
  intros Hemit Hclaim.
  induction remaining as [|n IH]; intros st st' r; cbn [fetch_loop].
  { by intros [= <- <-]. }
  destruct (quantity <=? Z.of_nat (length (l_saved st)));
    [by intros [= <- <-]|].
  intros H HI.
  apply (Hemit st (maxAttempts - n)%nat) in HI.
  destruct (fetch (maxAttempts - n)%nat) as [msg|[|p ps]] eqn:Hfetch.
  - destruct (maxAttempts <=? maxAttempts - n)%nat.
    + by injection H as <- <-.
    + by eapply IH.
  - destruct (maxAttempts - n <? maxAttempts)%nat; [by eapply IH|].
    destruct (maxAttempts <=? maxAttempts - n)%nat.
    + by injection H as <- <-.
    + by eapply IH.
  - destruct (bool_decide _ && _); [by eapply IH|].
    destruct (claim_loop _ _ _ _ _ _ _ _ _)
      as [[[tbl1 seq1] saved1] raised] eqn:Hc.
    eapply Hclaim in Hc; [|exact HI|exact Hfetch]. simpl in Hc.
    destruct raised as [msg|].
    + destruct (maxAttempts <=? maxAttempts - n)%nat.
      * by injection H as <- <-.
      * by eapply IH.
    + destruct (quantity <=? Z.of_nat (length saved1)).
      * by injection H as <- <-.
      * by eapply IH.
Qed.

Section PurchaseEdges.
Context {money : Type}.
Variable money_zero : money.
Variable money_sub : money -> num -> money.
Variable money_to_js : money -> num.

(** Records without an id cannot be claimed.  When every record that the
    provisioning API lists lacks an id (as the records read from the
    download export do), the purchase saves nothing and fails, and the
    database is as before: nothing is debited. *)
Theorem purchase_without_ids_fails (userId : Z) (name : option string)
  (type country : string) (quantity : Z) (amount : num) (e : env)
  (d : @database money) (x : outside) :
  (forall n l, fetch e n = FetchReturns l ->
               Forall (fun p => p_id p = None) l) ->
  exists x' err,
    transact (purchase money_zero money_sub money_to_js userId name type
                country quantity amount e) true (commit_fault e) d x
    = (d, x', inl err).
Proof.
  intros Hids. rewrite transact_cases.
  destruct (purchase _ _ _ _ _ _ _ _ _ _ _ _) as [[d1 x1] [err|rc]] eqn:Hp;
    [by eauto|].
  exfalso. revert Hp. unfold purchase.
  destruct (quote_price amount e _) as [xq [errq|p]]; [done|].
  destruct (debit _ _ _ _ _ _ _ _) as [[d2 x2] [errd|[]]]; [done|].
  destruct (buy e) as [msg|orderId boughtProxyIds]; [done|].
  destruct (edit_fault e) as [msg|]; [done|].
  destruct (fetch_loop _ _ _ _ _ _ _ _ _ _) as [st' [errf|]] eqn:Hf; [done|].
  eapply (fetch_loop_invariant (fun st => l_saved st = [])) in Hf.
  - by rewrite Hf.
  - done.
  - intros st n q ps tbl' seq' saved' raised Hst Hfetch.
    rewrite claim_loop_no_ids.
    + rewrite Hst. by intros [= <- <- <- <-].
    + apply Forall_map. apply select_candidates_Forall.
      by apply (Hids n).
  - done.
Qed.

(** A balance below the price stops the purchase before anything is
    ordered: the transaction reads the balance, is rolled back, and
    reports the balance and the price; no order is placed, no credentials
    are asked for, nothing is debited. *)
Theorem purchase_insufficient_funds (userId : Z) (name : option string)
  (type country : string) (quantity : Z) (amount : num) (e : env)
  (d : @database money) (x : outside) (u : user_row) :
  falsy amount = false -> js_le amount zero = false ->
  users d !! userId = Some u ->
  js_lt (money_to_js (balance u)) amount = true ->
  transact (purchase money_zero money_sub money_to_js userId name type
              country quantity amount e) true (commit_fault e) d x
  = (d,
     {| cm_id_seq := cm_id_seq x;
        effects := effects x
                   ++ [Begin; SelectBalanceForUpdate userId; Rollback] |},
     inl (NotEnoughFunds (money_to_js (balance u)) amount)).
Proof.
  intros Hf Hpos Hu Hlt.
  rewrite transact_cases. unfold purchase, quote_price.
  rewrite Hf, Hpos. unfold debit. rewrite Hu, Hlt. unfold emit. simpl.
  by rewrite <- !app_assoc.
Qed.

End PurchaseEdges.
(** *** How often a purchase calls out *)

Lemma count_emit p f x :
  count p (emit f x) = (count p x + if p f then 1 else 0)%nat.
Proof.
  unfold count, emit. simpl. rewrite List.filter_app, length_app. simpl.
  by destruct (p f).
Qed.

Lemma count_set_seq p s x : count p (set_seq s x) = count p x.
Proof. done. Qed.

Lemma fetch_loop_other_calls (p : effect -> bool) quantity userId
  proxyType orderCountry orderId boughtProxyIds fetch ce remaining st st' r :
  (forall n, p (GetProxyCredentials n) = false) ->
  fetch_loop remaining quantity userId proxyType orderCountry orderId
    boughtProxyIds fetch ce st = (st', r) ->
  count p (l_outside st') = count p (l_outside st).
Proof.
  intros Hp Hf.
  eapply (fetch_loop_invariant
            (fun s => count p (l_outside s) = count p (l_outside st)))
    in Hf; [done| | |done].
  - intros s n Hs. simpl. rewrite count_emit, Hp. lia.
  - intros s n q ps tbl' seq' saved' raised Hs _ _. done.
Qed.

Lemma fetch_loop_fetches quantity userId proxyType orderCountry orderId
  boughtProxyIds fetch ce remaining :
  forall st st' r,
  fetch_loop remaining quantity userId proxyType orderCountry orderId
    boughtProxyIds fetch ce st = (st', r) ->
  (count is_fetch (l_outside st')
   <= count is_fetch (l_outside st) + remaining)%nat.
Proof.
  induction remaining as [|n IH]; intros st st' r; cbn [fetch_loop].
  { intros [= <- <-]. lia. }
  destruct (quantity <=? Z.of_nat (length (l_saved st)));
    [intros [= <- <-]; lia|].
  intros H.
  assert (forall s : loop_state,
            count is_fetch (l_outside s)
            = S (count is_fetch (l_outside st)) ->
            forall s' r',
            fetch_loop n quantity userId proxyType orderCountry orderId
              boughtProxyIds fetch ce s = (s', r') ->
            (count is_fetch (l_outside s')
             <= count is_fetch (l_outside st) + S n)%nat) as Hagain.
  { intros s Hs s' r' Hrun. apply IH in Hrun. lia. }
  assert (count is_fetch
            (emit (GetProxyCredentials (maxAttempts - n)) (l_outside st))
          = S (count is_fetch (l_outside st))) as H1.
  { rewrite count_emit. simpl. lia. }
  destruct (fetch (maxAttempts - n)%nat) as [msg|[|p ps]].
  - destruct (maxAttempts <=? maxAttempts - n)%nat.
    + injection H as <- <-. cbn [l_outside]. rewrite H1. lia.
    + eapply Hagain; [|exact H]. done.
  - destruct (maxAttempts - n <? maxAttempts)%nat;
      [eapply Hagain; [|exact H]; done|].
    destruct (maxAttempts <=? maxAttempts - n)%nat.
    + injection H as <- <-. cbn [l_outside]. rewrite H1. lia.
    + eapply Hagain; [|exact H]. done.
  - destruct (bool_decide _ && _); [eapply Hagain; [|exact H]; done|].
    destruct (claim_loop _ _ _ _ _ _ _ _ _) as [[[tbl1 seq1] saved1] raised].
    destruct raised as [msg|].
    + destruct (maxAttempts <=? maxAttempts - n)%nat.
      * injection H as <- <-. cbn [l_outside]. rewrite count_set_seq, H1. lia.
      * eapply Hagain; [|exact H]. done.
    + destruct (quantity <=? Z.of_nat (length saved1)).
      * injection H as <- <-. cbn [l_outside]. rewrite count_set_seq, H1. lia.
      * eapply Hagain; [|exact H]. done.
Qed.

Section PurchaseCalls.
Context {money : Type}.
Variable money_zero : money.
Variable money_sub : money -> num -> money.
Variable money_to_js : money -> num.

Lemma purchase_calls userId name type country quantity amount e
  (d d1 : @database money) x x1 r :
  purchase money_zero money_sub money_to_js userId name type country
    quantity amount e d x = (d1, x1, r) ->
  (count is_buy x1 <= count is_buy x + 1)%nat /\
  (count is_debit x1 <= count is_debit x + 1)%nat /\
  (count is_fetch x1 <= count is_fetch x + maxAttempts)%nat.
Proof.
  unfold purchase, quote_price.
  assert (forall p xq,
    count is_buy xq = count is_buy x -> count is_debit xq = count is_debit x
    -> count is_fetch xq = count is_fetch x ->
    match debit money_zero money_sub money_to_js userId name p d xq with
    | (db2, x2, inl err) => (db2, x2, inl err)
    | (db2, x2, inr _) =>
        match buy e with
        | BuyThrows msg => (db2, emit BuyProxy x2, inl (BuyFailed msg))
        | BuyReturns orderId boughtProxyIds =>
            match edit_fault e with
            | Some msg =>
                (db2, emit (EditMessage FetchingProxies) (emit BuyProxy x2),
                 inl (Rethrown msg))
            | None =>
                match fetch_loop maxAttempts quantity userId (proxy_type type)
                        country orderId boughtProxyIds (fetch e) (claim e)
                        {| l_table := user_proxies db2; l_saved := [];
                           l_outside := emit (EditMessage FetchingProxies)
                                          (emit BuyProxy x2) |} with
                | (st', Some err) =>
                    (set_user_proxies (l_table st') db2, l_outside st',
                     inl err)
                | (st', None) =>
                    match l_saved st' with
                    | [] => (set_user_proxies (l_table st') db2,
                             l_outside st', inl NothingSaved)
                    | _ :: _ =>
                        settle money_to_js userId p (l_saved st') e
                          (set_user_proxies (l_table st') db2) (l_outside st')
                    end
                end
            end
        end
    end = (d1, x1, r) ->
    (count is_buy x1 <= count is_buy x + 1)%nat /\
    (count is_debit x1 <= count is_debit x + 1)%nat /\
    (count is_fetch x1 <= count is_fetch x + maxAttempts)%nat) as Hrest.
  { intros p xq Hb Hd Hf. unfold debit.
    destruct (users d !! userId) as [u|].
    - destruct (js_lt _ p).
      + intros [= <- <- <-]. rewrite !count_emit. cbn [is_buy is_debit is_fetch]. lia.
      + destruct (buy e) as [msg|orderId boughtProxyIds].
        * intros [= <- <- <-]. rewrite !count_emit. cbn [is_buy is_debit is_fetch]. lia.
        * destruct (edit_fault e) as [msg|].
          { intros [= <- <- <-]. rewrite !count_emit.
            cbn [is_buy is_debit is_fetch]. lia. }
          destruct (fetch_loop _ _ _ _ _ _ _ _ _ _) as [st' res] eqn:Hloop.
          pose proof (fetch_loop_fetches _ _ _ _ _ _ _ _ _ _ _ _ Hloop) as Hn.
          pose proof (fetch_loop_other_calls is_buy _ _ _ _ _ _ _ _ _ _ _ _
                        (fun _ => eq_refl) Hloop) as Hnb.
          pose proof (fetch_loop_other_calls is_debit _ _ _ _ _ _ _ _ _ _ _ _
                        (fun _ => eq_refl) Hloop) as Hnd.
          cbn [l_outside] in Hn, Hnb, Hnd.
          rewrite !count_emit in Hn, Hnb, Hnd.
          cbn [is_buy is_debit is_fetch] in Hn, Hnb, Hnd.
          destruct res as [err|].
          -- intros [= <- <- <-]. lia.
          -- destruct (l_saved st').
             ++ intros [= <- <- <-]. lia.
             ++ unfold settle.
                destruct (counter_fault e) as [msg|];
                  [|destruct (final_fault e) as [msg|]];
                  intros [= <- <- <-]; rewrite !count_emit;
                  cbn [is_buy is_debit is_fetch]; lia.
    - intros [= <- <- <-]. rewrite !count_emit. cbn [is_buy is_debit is_fetch]. lia. }
  destruct (js_le (if falsy amount then zero else amount) zero).
  - destruct (price e) as [msg|finalUsd].
    + intros [= <- <- <-]. rewrite !count_emit. cbn [is_buy is_debit is_fetch]. lia.
    + destruct (js_le (if falsy finalUsd then zero else finalUsd) zero).
      * intros [= <- <- <-]. rewrite !count_emit. cbn [is_buy is_debit is_fetch]. lia.
      * apply Hrest; rewrite count_emit; cbn [is_buy is_debit is_fetch]; lia.
  - by apply Hrest.
Qed.

(** One purchase places at most one order, debits the balance at most
    once and asks for the credentials at most twelve times, whatever the
    shop answers. *)
Theorem buy_action_calls_bounded (pool : bool) (userId : Z)
  (name : option string) (session_order : option order) (e : env)
  (d : @database money) (x : outside) :
  let x' := (buy_action money_zero money_sub money_to_js pool userId name
               session_order e d x).1.2 in
  (count is_buy x' <= count is_buy x + 1)%nat /\
  (count is_debit x' <= count is_debit x + 1)%nat /\
  (count is_fetch x' <= count is_fetch x + 12)%nat.
Proof.
  unfold buy_action.
  destruct session_order as [o|]; cbn [fst snd];
    [|rewrite !count_emit; cbn [is_buy is_debit is_fetch]; lia].
  destruct (order_invalid o); cbn [fst snd];
    [rewrite !count_emit; cbn [is_buy is_debit is_fetch]; lia|].
  destruct pool.
  - rewrite transact_cases.
    destruct (purchase _ _ _ _ _ _ _ _ _ _ _ _) as [[d1 x1] r] eqn:Hp.
    apply purchase_calls in Hp. rewrite !count_emit in Hp. simpl in Hp.
    unfold maxAttempts in Hp.
    destruct r as [err|rc]; [|destruct (commit_fault e) as [msg|]];
      simpl; rewrite !count_emit; simpl; lia.
  - unfold transact, Db.withTransaction. simpl. rewrite !count_emit.
    cbn [is_buy is_debit is_fetch]. lia.
Qed.

End PurchaseCalls.

(** *** A purchase that saves nothing *)

(** An error that leaves the loop of the attempts is an error of the
    credentials. *)
Lemma fetch_loop_error remaining quantity userId proxyType orderCountry
  orderId boughtProxyIds fetch ce :
  forall st st' err,
  fetch_loop remaining quantity userId proxyType orderCountry orderId
    boughtProxyIds fetch ce st = (st', Some err) ->
  exists c, err = CredentialsFailed c.
Proof.
  induction remaining as [|n IH]; intros st st' err; cbn [fetch_loop].
  - done.
  - destruct (quantity <=? Z.of_nat (length (l_saved st))); [done|].
    intros H.
    destruct (fetch (maxAttempts - n)%nat) as [msg|[|p ps]].
    + destruct (maxAttempts <=? maxAttempts - n)%nat.
      * injection H as <- <-. eauto.
      * by eapply IH.
    + destruct (maxAttempts - n <? maxAttempts)%nat; [by eapply IH|].
      destruct (maxAttempts <=? maxAttempts - n)%nat.
      * injection H as <- <-. eauto.
      * by eapply IH.
    + destruct (bool_decide _ && _); [by eapply IH|].
      destruct (claim_loop _ _ _ _ _ _ _ _ _) as [[[tbl1 seq1] saved1] [msg|]].
      * destruct (maxAttempts <=? maxAttempts - n)%nat.
        -- injection H as <- <-. eauto.
        -- by eapply IH.
      * destruct (quantity <=? Z.of_nat (length saved1)); [done|].
        by eapply IH.
Qed.

(** The loop ends without an error and short of the quantity only when
    every one of the attempts has been made. *)
Lemma fetch_loop_all_attempts quantity userId proxyType orderCountry orderId
  boughtProxyIds fetch ce remaining :
  forall st st',
  fetch_loop remaining quantity userId proxyType orderCountry orderId
    boughtProxyIds fetch ce st = (st', None) ->
  Z.of_nat (length (l_saved st')) < quantity ->
  count is_fetch (l_outside st')
  = (count is_fetch (l_outside st) + remaining)%nat.
Proof.
  induction remaining as [|n IH]; intros st st'; cbn [fetch_loop].
  { intros [= <-] _. lia. }
  destruct (quantity <=? Z.of_nat (length (l_saved st))) eqn:Hq.
  { intros [= <-] Hlt. apply Z.leb_le in Hq. lia. }
  intros H Hlt.
  assert (forall s : loop_state,
            count is_fetch (l_outside s)
            = S (count is_fetch (l_outside st)) ->
            fetch_loop n quantity userId proxyType orderCountry orderId
              boughtProxyIds fetch ce s = (st', None) ->
            count is_fetch (l_outside st')
            = (count is_fetch (l_outside st) + S n)%nat) as Hagain.
  { intros s Hs Hrun. rewrite (IH _ _ Hrun Hlt), Hs. lia. }
  assert (count is_fetch
            (emit (GetProxyCredentials (maxAttempts - n)) (l_outside st))
          = S (count is_fetch (l_outside st))) as H1.
  { rewrite count_emit. simpl. lia. }
  destruct (fetch (maxAttempts - n)%nat) as [msg|[|p ps]].
  - destruct (maxAttempts <=? maxAttempts - n)%nat; [done|].
    eapply Hagain; [|exact H]. done.
  - destruct (maxAttempts - n <? maxAttempts)%nat;
      [eapply Hagain; [|exact H]; done|].
    destruct (maxAttempts <=? maxAttempts - n)%nat; [done|].
    eapply Hagain; [|exact H]. done.
  - destruct (bool_decide _ && _); [eapply Hagain; [|exact H]; done|].
    destruct (claim_loop _ _ _ _ _ _ _ _ _) as [[[tbl1 seq1] saved1] raised].
    destruct raised as [msg|].
    + destruct (maxAttempts <=? maxAttempts - n)%nat; [done|].
      eapply Hagain; [|exact H]. done.
    + destruct (quantity <=? Z.of_nat (length saved1)) eqn:Hq1.
      * injection H as <-. cbn [l_saved] in Hlt. apply Z.leb_le in Hq1. lia.
      * eapply Hagain; [|exact H]. done.
Qed.

(** The quote of the price asks the shop at most; it debits nothing and
    fetches nothing, and the error that nothing was saved is not among
    its errors. *)
Lemma quote_price_quiet (p : effect -> bool) amount e x x1 r :
  p CalculatePrice = false ->
  quote_price amount e x = (x1, r) ->
  count p x1 = count p x /\ r <> inl NothingSaved.
Proof.
  intros Hp. unfold quote_price.
  destruct (js_le _ zero).
  - destruct (price e) as [msg|finalUsd].
    + intros [= <- <-]. rewrite count_emit, Hp. split; [lia|done].
    + destruct (js_le _ zero); intros [= <- <-]; rewrite count_emit, Hp;
        (split; [lia|done]).
  - intros [= <- <-]. done.
Qed.

Section PurchaseRollback.
Context {money : Type}.
Variable money_zero : money.
Variable money_sub : money -> num -> money.
Variable money_to_js : money -> num.

(** C2 (as amended).  A purchase whose callback has saved no claim is
    rolled back.  The callback of the transaction is run after BEGIN,
    from the database [d] to the database [d1] with the result [r1].  When
    it leaves the table [user_proxies] as it found it, it has thrown, the
    transaction ends in ROLLBACK and the database is the one before the
    purchase, the balance of the user included.  When the error is that no
    proxy could be saved, the debit had been made inside the transaction
    and, for a positive quantity, all twelve attempts had been made: the
    debit is reverted.  This is not the only way a debit is reverted:
    whatever error the callback throws, and whatever error COMMIT throws
    after it, the transaction ends in ROLLBACK on the database as it
    was. *)
Theorem purchase_failure_restores_balance (userId : Z) (name : option string)
  (type country : string) (quantity : Z) (amount : num) (e : env)
  (d d1 : @database money) (x x1 : outside) (r1 : buy_error + receipt) :
  purchase money_zero money_sub money_to_js userId name type country
    quantity amount e d (emit Begin x) = (d1, x1, r1) ->
  (user_proxies d1 = user_proxies d ->
   exists err,
     r1 = inl err /\
     transact (purchase money_zero money_sub money_to_js userId name type
                 country quantity amount e) true (commit_fault e) d x
     = (d, emit Rollback x1, inl err) /\
     (err = NothingSaved ->
      exists u p,
        users d !! userId = Some u /\
        js_lt (money_to_js (balance u)) p = false /\
        users d1
        = <[userId := {| balance := money_sub (balance u) p;
                         proxies_purchased := proxies_purchased u;
                         username := username u |}]> (users d) /\
        count is_debit x1 = S (count is_debit x) /\
        (0 < quantity ->
         count is_fetch x1 = (count is_fetch x + maxAttempts)%nat))) /\
  (forall err, r1 = inl err ->
   transact (purchase money_zero money_sub money_to_js userId name type
               country quantity amount e) true (commit_fault e) d x
   = (d, emit Rollback x1, inl err)) /\
  (forall rc msg, r1 = inr rc -> commit_fault e = Some msg ->
   transact (purchase money_zero money_sub money_to_js userId name type
               country quantity amount e) true (commit_fault e) d x
   = (d, emit Rollback (emit Commit x1), inl (Rethrown msg))).
Proof.
  intros Hrun.
  pose proof (transact_cases
                (purchase money_zero money_sub money_to_js userId name type
                   country quantity amount e) (commit_fault e) d x) as Ht.
  rewrite Hrun in Ht.
  assert (forall err, r1 = inl err ->
            transact (purchase money_zero money_sub money_to_js userId name
                        type country quantity amount e)
              true (commit_fault e) d x
            = (d, emit Rollback x1, inl err)) as Hthrown.
  { intros err Herr. by rewrite Herr in Ht. }
  assert (forall rc msg, r1 = inr rc -> commit_fault e = Some msg ->
            transact (purchase money_zero money_sub money_to_js userId name
                        type country quantity amount e)
              true (commit_fault e) d x
            = (d, emit Rollback (emit Commit x1), inl (Rethrown msg)))
    as Hcommit.
  { intros rc msg Hrc Hc. by rewrite Ht, Hrc, Hc. }
  split; [|by split].
  clear Hthrown Hcommit. intros Htbl.
  assert (forall (P : Prop) err, r1 = inl err -> err <> NothingSaved ->
    exists err,
      r1 = inl err /\
      transact (purchase money_zero money_sub money_to_js userId name type
                  country quantity amount e) true (commit_fault e) d x
      = (d, emit Rollback x1, inl err) /\
      (err = NothingSaved -> P))
    as Hother.
  { intros P err -> Hne. exists err. split; [done|]. split; [exact Ht|done]. }
  unfold purchase in Hrun. revert Hrun.
  destruct (quote_price amount e (emit Begin x)) as [xq [errq|p]] eqn:Hq.
  { intros [= <- <- <-]. eapply (Hother _ errq); [done|].
    apply (quote_price_quiet is_debit) in Hq as [_ Hq]; [|done]. congruence. }
  pose proof (quote_price_quiet is_debit _ _ _ _ _ eq_refl Hq) as [Hqd _].
  pose proof (quote_price_quiet is_fetch _ _ _ _ _ eq_refl Hq) as [Hqf _].
  rewrite count_emit in Hqd, Hqf. cbn [is_debit is_fetch] in Hqd, Hqf.
  unfold debit.
  destruct (users d !! userId) as [u|] eqn:Hu;
    [|intros [= <- <- <-]; by eapply (Hother _ TopUpFirst)].
  destruct (js_lt (money_to_js (balance u)) p) eqn:Hlt;
    [intros [= <- <- <-]; eapply Hother; [reflexivity|done]|].
  destruct (buy e) as [msg|orderId boughtProxyIds];
    [intros [= <- <- <-]; eapply Hother; [reflexivity|done]|].
  destruct (edit_fault e) as [msg|];
    [intros [= <- <- <-]; eapply Hother; [reflexivity|done]|].
  match goal with
  | |- context [fetch_loop ?n ?q ?uid ?pt ?c ?o ?b ?f ?ce ?st] =>
      pose proof (fetch_loop_cases n q uid pt c o b f ce st) as Hf;
      destruct (fetch_loop n q uid pt c o b f ce st) as [st' res] eqn:Hloop
  end.
  destruct Hf as (new & Hnew & Hsaved & _). cbn [l_table l_saved] in Hnew, Hsaved.
  simpl in Hsaved. subst new.
  destruct res as [errf|].
  { intros [= <- <- <-]. apply fetch_loop_error in Hloop as [c ->].
    eapply Hother; [reflexivity|done]. }
  destruct (l_saved st') as [|row saved] eqn:Hs.
  - intros [= <- <- <-]. exists NothingSaved.
    split; [done|]. split; [exact Ht|]. intros _. exists u, p.
    split; [done|]. split; [done|]. split; [done|].
    pose proof (fetch_loop_other_calls is_debit _ _ _ _ _ _ _ _ _ _ _ _
                  (fun _ => eq_refl) Hloop) as Hd.
    cbn [l_outside] in Hd. rewrite !count_emit in Hd. cbn [is_debit] in Hd.
    split; [lia|]. intros Hpos.
    rewrite (fetch_loop_all_attempts _ _ _ _ _ _ _ _ _ _ _ Hloop)
      by (rewrite Hs; simpl; lia).
    cbn [l_outside]. rewrite !count_emit. cbn [is_fetch]. lia.
  - (* a row was saved: the table has grown *)
    intros Hrun. exfalso.
    assert (user_proxies d1 = l_table st') as Hd1.
    { revert Hrun. unfold settle.
      destruct (counter_fault e) as [msg|];
        [|destruct (final_fault e) as [msg|]]; by intros [= <- <- <-]. }
    rewrite Hd1, Hnew in Htbl. simpl in Htbl.
    apply (f_equal length) in Htbl. rewrite length_app in Htbl.
    simpl in Htbl. lia.
Qed.

End PurchaseRollback.

(** *** The candidates of last resort *)

Lemma insert_desc_perm x l : insert_desc x l ≡ₚ x :: l.
Proof.
  induction l as [|y l IH]; simpl; [done|].
  destruct (id_key y <=? id_key x); [done|].
  rewrite IH. apply Permutation_swap.
Qed.

Lemma sort_desc_perm l : sort_desc l ≡ₚ l.
Proof.
  induction l as [|x l IH]; simpl; [done|].
  by rewrite insert_desc_perm, IH.
Qed.

Lemma insert_desc_descending x l :
  descending l -> descending (insert_desc x l).
Proof.
  induction l as [|y l IH]; simpl; [done|]. intros [Hy Hl].
  destruct (id_key y <=? id_key x) eqn:Hle.
  - apply Z.leb_le in Hle. simpl. split; [|done].
    constructor; [done|].
    eapply Forall_impl; [exact Hy|]. simpl. intros z Hz. lia.
  - apply Z.leb_gt in Hle. simpl. split; [|by apply IH].
    rewrite insert_desc_perm. constructor; [lia|done].
Qed.

Lemma sort_desc_descending l : descending (sort_desc l).
Proof.
  induction l as [|x l IH]; simpl; [done|].
  by apply insert_desc_descending.
Qed.

Lemma descending_app l1 l2 p q :
  descending (l1 ++ l2) -> p ∈ l1 -> q ∈ l2 -> id_key q <= id_key p.
Proof.
  induction l1 as [|x l1 IH]; simpl.
  { intros _ Hp. by apply elem_of_nil in Hp. }
  intros [Hx Hl] Hp Hq.
  apply elem_of_cons in Hp as [->|Hp]; [|by apply IH].
  apply Forall_app in Hx as [_ Hx].
  by apply (proj1 (Forall_forall _ _) Hx).
Qed.

(** The selection of last resort.  When the order call named neither the
    proxies nor an order, the handler takes [quantity] records of the list,
    or all of them when there are fewer, and takes those with the largest
    ids: no record left out has a larger id than a record taken. *)
Theorem last_resort_takes_largest (quantity : Z) (orderId : option Z)
  (proxiesFromAPI : list api_proxy) :
  truthy_int orderId = false ->
  let picked := select_candidates [] orderId quantity proxiesFromAPI in
  exists rest,
    picked ++ rest ≡ₚ proxiesFromAPI /\
    length picked = Nat.min (Z.to_nat quantity) (length proxiesFromAPI) /\
    forall p q, p ∈ picked -> q ∈ rest -> id_key q <= id_key p.
Proof.
  intros Ho. unfold select_candidates. rewrite Ho. simpl.
  exists (drop (Z.to_nat quantity) (sort_desc proxiesFromAPI)).
  split; [by rewrite take_drop, sort_desc_perm|].
  split.
  - rewrite length_take. by rewrite (Permutation_length (sort_desc_perm _)).
  - intros p q. apply descending_app. rewrite take_drop.
    apply sort_desc_descending.
Qed.

Lemma last_resort_takes_largest_witness :
  truthy_int None = false /\
  exists rest,
    select_candidates [] None 1 [Scenario.proxy7; Scenario.proxy8] ++ rest
    ≡ₚ [Scenario.proxy7; Scenario.proxy8] /\
    length (select_candidates [] None 1 [Scenario.proxy7; Scenario.proxy8])
    = Nat.min (Z.to_nat 1) 2 /\
    forall p q,
      p ∈ select_candidates [] None 1 [Scenario.proxy7; Scenario.proxy8] ->
      q ∈ rest -> id_key q <= id_key p.
Proof.
  split; [reflexivity|].
  apply (last_resort_takes_largest 1 None [Scenario.proxy7; Scenario.proxy8]).
  reflexivity.
Defined.

(** ** The payment check, round by round *)
Import JsNumber Bot.

Section PaymentRounds.
Context {money : Type}.
Variable money_zero : money.
Variable money_add : money -> num -> money.
Variable money_to_js : money -> num.

Abbreviation cstate := (@check_state money).
Abbreviation over := (@check_over money).

Lemma poll_step_not_paid pool userId amount (st : cstate) ev :
  is_paid ev = false ->
  let st' := poll_step money_zero money_add money_to_js pool userId amount
               st ev in
  pay_users st' = pay_users st /\ credits st' = credits st.
Proof.
  intros Hev. destruct ev as [|r]; cbn [poll_step].
  - by destruct (timer_on st).
  - destruct (awaiting st) as [|n]; [done|].
    unfold on_response.
    cbn [timer_on registered checkCount deposit_session pay_users notices
         awaiting credits].
    destruct r as [|[| |]| |failing]; try done.
    + by destruct (maxChecks <=? checkCount st)%nat.
    + rewrite orb_false_l. by destruct (maxChecks <=? checkCount st)%nat.
    + by destruct (maxChecks <=? checkCount st)%nat.
Qed.

(** A paid invoice ends the check, whatever the statements on [users]
    do. *)
Lemma on_paid_over pool userId amount failing (st : cstate) :
  awaiting st = O ->
  over (on_paid money_zero money_add money_to_js pool userId amount failing
          st).
Proof.
  intros Ha. unfold on_paid. destruct pool; [|done].
  by destruct (credit_steps _ _ _ _ _ _) as [[u updated] [newBalance|]].
Qed.

(** Nothing is credited unless a poll answers [paid]: a poll that fails,
    answers nothing, or reports the invoice active or expired leaves the
    table [users] as it is, however the timer and the answers interleave
    and however long the check runs. *)
Theorem no_credit_without_paid (pool : bool) (userId : Z) (amount : num)
  (evs : list tick_event) (st : cstate) :
  forallb (fun ev => negb (is_paid ev)) evs = true ->
  let st' := poll_run money_zero money_add money_to_js pool userId amount
               evs st in
  pay_users st' = pay_users st /\ credits st' = credits st.
Proof.
  revert st. induction evs as [|ev evs IH]; intros st Hevs; simpl; [done|].
  simpl in Hevs. apply andb_prop in Hevs as [Hev Hevs].
  apply negb_true_iff in Hev.
  destruct (poll_step_not_paid pool userId amount st ev Hev) as [Hu Hc].
  destruct (IH (poll_step money_zero money_add money_to_js pool userId
                  amount st ev) Hevs) as [Hu' Hc'].
  unfold poll_run in *. by rewrite Hu', Hc'.
Qed.

Lemma round_counts pool userId amount r (st : cstate) :
  awaiting st = O -> timer_on st = true ->
  let st' := poll_step money_zero money_add money_to_js pool userId amount
               (poll_step money_zero money_add money_to_js pool userId
                  amount st TimerFires) (PollReturns r) in
  over st' \/
  (awaiting st' = O /\ timer_on st' = true /\
   checkCount st' = S (checkCount st) /\ (S (checkCount st) < maxChecks)%nat).
Proof.
  intros Ha Ht. unfold poll_step. rewrite Ht. cbn [awaiting]. rewrite Ha.
  cbn [timer_on registered checkCount deposit_session pay_users notices
       credits].
  unfold on_response.
  cbn [timer_on registered checkCount deposit_session pay_users notices
       awaiting credits].
  destruct (maxChecks <=? S (checkCount st))%nat eqn:Hmax.
  - left. destruct r as [|[| |]| |failing];
      [done|done|by apply on_paid_over|done|done|by apply on_paid_over].
  - apply Nat.leb_gt in Hmax. destruct r as [|[| |]| |failing].
    + by right.
    + by right.
    + left. by apply on_paid_over.
    + by left.
    + by right.
    + left. by apply on_paid_over.
Qed.

Lemma rounds_end pool userId amount rs : forall st : cstate,
  awaiting st = O ->
  over st \/
  (timer_on st = true /\ (checkCount st < maxChecks)%nat /\
   (maxChecks <= checkCount st + length rs)%nat) ->
  over (poll_run money_zero money_add money_to_js pool userId amount
          (one_at_a_time rs) st).
Proof.
  induction rs as [|r rs IH]; intros st Ha Hst.
  { destruct Hst as [Hover|(Ht & Hlt & Hn)]; [exact Hover|]. simpl in Hn. lia. }
  change (one_at_a_time (r :: rs))
    with (TimerFires :: PollReturns r :: one_at_a_time rs).
  change (poll_run money_zero money_add money_to_js pool userId amount
            (TimerFires :: PollReturns r :: one_at_a_time rs) st)
    with (poll_run money_zero money_add money_to_js pool userId amount
            (one_at_a_time rs)
            (poll_step money_zero money_add money_to_js pool userId amount
               (poll_step money_zero money_add money_to_js pool userId
                  amount st TimerFires) (PollReturns r))).
  destruct Hst as [(Ht & Hr & _)|(Ht & Hlt & Hn)].
  - rewrite (poll_step_stopped money_zero money_add money_to_js pool userId
               amount st TimerFires) by done.
    rewrite poll_step_stopped by done.
    apply IH; [done|]. by left.
  - destruct (round_counts pool userId amount r st Ha Ht)
      as [Hover|(Ha' & Ht' & Hc & Hlt')].
    + apply IH; [apply Hover|by left].
    + apply IH; [done|]. right. split; [done|]. rewrite Hc.
      split; [done|]. simpl in Hn. lia.
Qed.

(** The check does not run for ever: when each poll answers before the
    timer fires again, the check is over after 180 rounds at the latest,
    whatever the polls answer; the timer is cleared and the entry of the
    user is deleted. *)
Theorem payment_check_ends (pool : bool) (userId : Z) (amount : num)
  (u : gmap Z user_row) (rs : list poll_response) :
  (180 <= length rs)%nat ->
  let st := poll_run money_zero money_add money_to_js pool userId amount
              (one_at_a_time rs) (start_check u) in
  timer_on st = false /\ registered st = false /\ awaiting st = O.
Proof.
  intros Hn. apply rounds_end; [done|]. right.
  split; [done|]. unfold maxChecks. simpl. split; lia.
Qed.


Lemma quiet_round pool userId amount r (st : cstate) :
  is_quiet r = true -> awaiting st = O -> timer_on st = true ->
  (S (checkCount st) < maxChecks)%nat ->
  poll_step money_zero money_add money_to_js pool userId amount
    (poll_step money_zero money_add money_to_js pool userId amount st
       TimerFires) (PollReturns r)
  = {| timer_on := true; registered := registered st;
       checkCount := S (checkCount st); awaiting := O;
       deposit_session := deposit_session st; pay_users := pay_users st;
       credits := credits st; notices := notices st |}.
Proof.
  intros Hq Ha Ht Hlt. unfold poll_step. rewrite Ht. cbn [awaiting].
  rewrite Ha.
  cbn [timer_on registered checkCount deposit_session pay_users notices
       credits].
  unfold on_response.
  cbn [timer_on registered checkCount deposit_session pay_users notices
       awaiting credits].
  apply Nat.leb_gt in Hlt. rewrite Hlt.
  by destruct r as [|[| |]| |failing].
Qed.

Lemma quiet_rounds pool userId amount quiet : forall st : cstate,
  forallb is_quiet quiet = true -> awaiting st = O -> timer_on st = true ->
  (checkCount st + length quiet < maxChecks)%nat ->
  poll_run money_zero money_add money_to_js pool userId amount
    (one_at_a_time quiet) st
  = {| timer_on := true; registered := registered st;
       checkCount := (checkCount st + length quiet)%nat; awaiting := O;
       deposit_session := deposit_session st; pay_users := pay_users st;
       credits := credits st; notices := notices st |}.
Proof.
  induction quiet as [|r quiet IH]; intros st Hq Ha Ht Hlt.
  { simpl. rewrite Nat.add_0_r. destruct st. simpl in *. by subst. }
  simpl in Hq. apply andb_prop in Hq as [Hr Hq].
  change (one_at_a_time (r :: quiet))
    with (TimerFires :: PollReturns r :: one_at_a_time quiet).
  change (poll_run money_zero money_add money_to_js pool userId amount
            (TimerFires :: PollReturns r :: one_at_a_time quiet) st)
    with (poll_run money_zero money_add money_to_js pool userId amount
            (one_at_a_time quiet)
            (poll_step money_zero money_add money_to_js pool userId amount
               (poll_step money_zero money_add money_to_js pool userId
                  amount st TimerFires) (PollReturns r))).
  simpl in Hlt. rewrite quiet_round by (done || lia).
  rewrite IH; [|done|done|done|simpl; lia].
  simpl. f_equal. lia.
Qed.

(** The run up to and including the first answer [paid]: the rounds
    before it leave the check as it was started, the answer itself is
    handled by the branch for a paid invoice, and what is answered
    afterwards finds the timer stopped. *)
Lemma paid_after_quiet userId amount (u : gmap Z user_row)
  (quiet rest : list poll_response) (failing : option users_step) :
  forallb is_quiet quiet = true -> (length quiet < 180)%nat ->
  poll_run money_zero money_add money_to_js true userId amount
    (one_at_a_time
       (quiet ++ match failing with
                 | None => PollStatus InvoicePaid
                 | Some f => PollPaidDbFails f
                 end :: rest))
    (start_check u)
  = on_paid money_zero money_add money_to_js true userId amount failing
      {| timer_on := true; registered := true;
         checkCount := S (length quiet); awaiting := O;
         deposit_session := true; pay_users := u; credits := O;
         notices := [] |}.
Proof.
  intros Hq Hn. unfold one_at_a_time. rewrite flat_map_app.
  unfold poll_run. rewrite fold_left_app.
  pose proof (quiet_rounds true userId amount quiet (start_check u) Hq
                eq_refl eq_refl) as Hquiet.
  unfold poll_run, one_at_a_time in Hquiet. rewrite Hquiet.
  2:{ unfold maxChecks. simpl. lia. }
  cbn [flat_map app fold_left].
  cbn [poll_step start_check timer_on registered checkCount awaiting
       deposit_session pay_users credits notices].
  change (0 + length quiet)%nat with (length quiet).
  set (st0 := {| timer_on := true; registered := true;
                 checkCount := S (length quiet); awaiting := O;
                 deposit_session := true; pay_users := u; credits := O;
                 notices := [] |}).
  assert (on_response money_zero money_add money_to_js true userId amount
            match failing with
            | None => PollStatus InvoicePaid
            | Some f => PollPaidDbFails f
            end st0
          = on_paid money_zero money_add money_to_js true userId amount
              failing st0) as -> by (by destruct failing).
  destruct (on_paid_over true userId amount failing st0 eq_refl)
    as (Hoff & _ & Hnone).
  exact (poll_run_stopped money_zero money_add money_to_js true userId amount
           (flat_map (fun r => [TimerFires; PollReturns r]) rest) _
           Hoff Hnone).
Qed.

(** Paid once, credited at most once.  Each poll answers before the timer
    fires again, and after fewer than 180 rounds that left the invoice
    open a poll answers [paid].  When the statements on [users] go
    through, the amount is added to the balance of the user exactly once,
    whatever is answered afterwards; the check is over and the deposit is
    cleared from the session.  When one of them throws, the check is over
    all the same and the deposit stays in the session; the amount is not
    added to the balance, unless the statement that threw is the last one,
    the SELECT of the new balance: then it has been added, once. *)
Theorem payment_credited_once (userId : Z) (amount : num)
  (u : gmap Z user_row) (quiet rest : list poll_response) :
  forallb is_quiet quiet = true -> (length quiet < 180)%nat ->
  (let st := poll_run money_zero money_add money_to_js true userId amount
               (one_at_a_time (quiet ++ PollStatus InvoicePaid :: rest))
               (start_check u) in
   pay_users st = credit_user money_zero money_add userId amount u /\
   credits st = 1%nat /\
   timer_on st = false /\ registered st = false /\
   deposit_session st = false) /\
  (forall failing : users_step,
   (failing = InsertUserRow -> u !! userId = None) ->
   let st := poll_run money_zero money_add money_to_js true userId amount
               (one_at_a_time (quiet ++ PollPaidDbFails failing :: rest))
               (start_check u) in
   timer_on st = false /\ registered st = false /\
   deposit_session st = true /\
   notices st = [CreditFailed] /\
   credits st = match failing with
                | SelectNewBalance => 1%nat
                | _ => 0%nat
                end /\
   pay_users st = match failing with
                  | SelectUser | InsertUserRow => u
                  | UpdateBalance => ensure_user money_zero userId u
                  | SelectNewBalance =>
                      credit_user money_zero money_add userId amount u
                  end).
Proof.
  intros Hq Hn. split.
  - cbv zeta.
    rewrite (paid_after_quiet userId amount u quiet rest None Hq Hn).
    by rewrite on_paid_ok.
  - intros failing Hissued. cbv zeta.
    rewrite (paid_after_quiet userId amount u quiet rest (Some failing) Hq Hn).
    unfold on_paid, credit_steps. cbn [stop_check pay_users].
    destruct failing; cbn [throws]; rewrite ?andb_false_r, ?andb_true_r;
      try done.
    unfold no_user. by rewrite Hissued.
Qed.




End PaymentRounds.

(** ** Deposits *)
Import JsNumber Balance Bot.

(** An amount that the deposit dialogue accepts is a finite number above
    zero: not [NaN], not an infinity, not a zero, not negative.  So every
    deposit made through the dialogue is a credit of a non-negative amount,
    as the ledger of src/balance.js needs it to stay non-negative. *)
Theorem deposit_accepted_positive (amount : num) (u : Z) :
  deposit_rejected amount = false ->
  (exists m e, amount = S754_finite false m e) /\
  js_gt amount zero = true /\
  credit_nonneg (OpAdd u amount) = true.
Proof.
  unfold deposit_rejected.
  assert (exists M E, of_cents 1 = S754_finite false M E) as (M & E & H1)
    by (vm_compute; eauto).
  assert (exists M E, of_cents 100000 = S754_finite false M E)
    as (M' & E' & H2) by (vm_compute; eauto).
  rewrite H1, H2.
  destruct amount as [s|[]| |[] m e]; try done.
  intros _. split; [eauto|]. done.
Qed.

Lemma deposit_accepted_positive_witness :
  deposit_rejected (of_cents 2550) = false /\
  js_gt (of_cents 2550) zero = true /\
  credit_nonneg (OpAdd 7 (of_cents 2550)) = true.
Proof.
  split; [reflexivity|].
  apply (deposit_accepted_positive (of_cents 2550) 7). reflexivity.
Defined.

(** ** Further scenarios *)
Import JsNumber Balance ProxySellerApi Db Bot Scenario.

(** Two weeks against two months. *)
Lemma calculateMarkupPercent_antitone_witness :
  14 <= 60 /\ calculateMarkupPercent 60 <= calculateMarkupPercent 14.
Proof.
  split; [lia|]. apply (calculateMarkupPercent_antitone 14 60). lia.
Defined.

(** Alice claims proxy 7 on an empty table; offered it again, she is
    passed over, as if the proxy were another user's. *)
Lemma claim_one_twice_witness :
  claim_one alice "ipv4" (Some 55) steady proxy7 [] 0
  = ([row7 alice "CM000001"], 1, Saved (row7 alice "CM000001")) /\
  unique_proxy_id [row7 alice "CM000001"] /\
  exists why,
    claim_one alice "ipv4" (Some 55) steady proxy7
      [row7 alice "CM000001"] 1
    = ([row7 alice "CM000001"], 1, Skipped why) /\
    why <> AlreadyOwned /\
    (check_fault steady = None -> why = OwnedByOther alice).
Proof.
  split; [reflexivity|].
  apply (claim_one_twice alice "ipv4" (Some 55) steady steady proxy7 [] 0
           [row7 alice "CM000001"] 1 (row7 alice "CM000001")).
  - apply NoDup_nil_2.
  - reflexivity.
Defined.


(** Alice orders proxy 7, which Bob holds: twelve attempts save nothing,
    the debit of 30 dollars is rolled back and her 50 dollars are there
    as before. *)
Lemma purchase_failure_restores_balance_witness :
  let e := shop (BuyReturns (Some 55) [7]) (fun _ => FetchReturns [proxy7]) in
  exists x1,
    purchase_30 e = (db_alice_50, emit Rollback x1, inl NothingSaved) /\
    count is_debit x1 = 1%nat /\ count is_fetch x1 = 12%nat.
Proof.
  intros e.
  destruct (purchase zero js_sub js_money_to_js alice None "private_ipv4"
              "DEU" 1 (of_cents 3000) e db_alice_50 (emit Begin fresh))
    as [[d1 x1] r1] eqn:Hrun.
  assert (user_proxies d1 = user_proxies db_alice_50 /\ r1 = inl NothingSaved)
    as [Htbl ->].
  { vm_compute in Hrun. injection Hrun as <- _ <-. split; reflexivity. }
  destruct (purchase_failure_restores_balance zero js_sub js_money_to_js
              alice None "private_ipv4" "DEU" 1 (of_cents 3000) e
              db_alice_50 d1 fresh x1 (inl NothingSaved) Hrun)
    as [Hzero _].
  destruct (Hzero Htbl) as (err & Herr & Ht & Hfacts).
  injection Herr as <-.
  destruct (Hfacts eq_refl) as (u & p & _ & _ & _ & Hd & Hf).
  exists x1. split; [exact Ht|]. split; [exact Hd|]. apply Hf. lia.
Defined.

(** Whatever Alice orders, the table keeps one row per key. *)
Lemma buy_action_keeps_unique_witness :
  unique_proxy_id (user_proxies db_alice_50) /\
  unique_proxy_id
    (user_proxies
       (buy_action zero js_sub js_money_to_js true alice None
          (Some (order_of 1)) shop8 db_alice_50 fresh).1.1).
Proof.
  assert (unique_proxy_id (user_proxies db_alice_50)) as Hu
    by apply NoDup_singleton.
  split; [exact Hu|].
  apply (buy_action_keeps_unique zero js_sub js_money_to_js true alice None
           (Some (order_of 1)) shop8 db_alice_50 fresh Hu).
Defined.

(** The API lists only records of the export: Alice's purchase fails and
    her 50 dollars stay. *)
Lemma purchase_without_ids_fails_witness :
  exists x' err,
    purchase_30 (shop (BuyReturns None []) (fun _ => FetchReturns [export_record]))
    = (db_alice_50, x', inl err).
Proof.
  apply (purchase_without_ids_fails zero js_sub js_money_to_js alice None
           "private_ipv4" "DEU" 1 (of_cents 3000)
           (shop (BuyReturns None []) (fun _ => FetchReturns [export_record]))
           db_alice_50 fresh).
  intros n l [= <-]. repeat constructor.
Defined.

(** Alice has 50 dollars and orders for 80. *)
Lemma purchase_insufficient_funds_witness :
  js_lt (of_cents 5000) (of_cents 8000) = true /\
  transact
    (purchase zero js_sub js_money_to_js alice None "private_ipv4" "DEU" 1
       (of_cents 8000) shop8)
    true (commit_fault shop8) db_alice_50 fresh
  = (db_alice_50,
     {| cm_id_seq := 1;
        effects := [Begin; SelectBalanceForUpdate alice; Rollback] |},
     inl (NotEnoughFunds (of_cents 5000) (of_cents 8000))).
Proof.
  split; [reflexivity|].
  apply (purchase_insufficient_funds zero js_sub js_money_to_js alice None
           "private_ipv4" "DEU" 1 (of_cents 8000) shop8 db_alice_50 fresh
           (account (of_cents 5000))); reflexivity.
Defined.

(** A check that meets an outage and then an expired invoice. *)
Lemma no_credit_without_paid_witness :
  let evs := [TimerFires; PollReturns PollNull; TimerFires;
              PollReturns (PollStatus InvoiceExpired)] in
  let st := poll_run zero js_add js_money_to_js true alice (of_cents 500)
              evs (start_check (users db_alice_50)) in
  pay_users st = users db_alice_50 /\ credits st = O.
Proof.
  intros evs.
  apply (no_credit_without_paid zero js_add js_money_to_js true alice
           (of_cents 500) evs (start_check (users db_alice_50))).
  reflexivity.
Defined.

(** 180 polls without an answer. *)
Lemma payment_check_ends_witness :
  let st := poll_run zero js_add js_money_to_js true alice (of_cents 500)
              (one_at_a_time (repeat PollNull 180))
              (start_check (users db_alice_50)) in
  timer_on st = false /\ registered st = false /\ awaiting st = O.
Proof.
  apply (payment_check_ends zero js_add js_money_to_js true alice
           (of_cents 500) (users db_alice_50) (repeat PollNull 180)).
  rewrite repeat_length. lia.
Defined.

(** An outage, an open invoice, then the payment; a late second [paid].
    With the statements on [users] going through, Alice is credited once;
    with the UPDATE throwing, she is not credited and the check is over
    all the same. *)
Lemma payment_credited_once_witness :
  (let st := poll_run zero js_add js_money_to_js true alice (of_cents 500)
               (one_at_a_time
                  ([PollNull; PollStatus InvoiceActive]
                   ++ PollStatus InvoicePaid :: [PollStatus InvoicePaid]))
               (start_check (users db_alice_50)) in
   pay_users st
   = credit_user zero js_add alice (of_cents 500) (users db_alice_50) /\
   credits st = 1%nat /\
   timer_on st = false /\ registered st = false /\
   deposit_session st = false) /\
  (let st := poll_run zero js_add js_money_to_js true alice (of_cents 500)
               (one_at_a_time
                  ([PollNull; PollStatus InvoiceActive]
                   ++ PollPaidDbFails UpdateBalance
                      :: [PollStatus InvoicePaid]))
               (start_check (users db_alice_50)) in
   timer_on st = false /\ registered st = false /\
   deposit_session st = true /\
   notices st = [CreditFailed] /\
   credits st = 0%nat /\
   pay_users st = ensure_user zero alice (users db_alice_50)).
Proof.
  destruct (payment_credited_once zero js_add js_money_to_js alice
              (of_cents 500) (users db_alice_50)
              [PollNull; PollStatus InvoiceActive] [PollStatus InvoicePaid])
    as [Hok Hfails].
  - reflexivity.
  - simpl. lia.
  - split; [exact Hok|].
    apply (Hfails UpdateBalance). intros H. discriminate H.
Defined.

(** Two answers [paid], one after the other. *)
Lemma poll_one_at_a_time_credits_witness :
  (credits
     (poll_run zero js_add js_money_to_js true alice (of_cents 500)
        (one_at_a_time [PollStatus InvoicePaid; PollStatus InvoicePaid])
        (start_check (users db_alice_50))) <= 1)%nat.
Proof.
  apply (poll_one_at_a_time_credits zero js_add js_money_to_js true alice
           (of_cents 500) [PollStatus InvoicePaid; PollStatus InvoicePaid]
           (start_check (users db_alice_50))); reflexivity.
Defined.

